(** * ntl::RandomTwister (ntlRandom.hpp)

    A shallow embedding of the class [ntl::RandomTwister] together with the
    parts of the C++ standard library that it drives: the engine
    [std::mt19937] and the distributions [std::uniform_int_distribution],
    [std::uniform_real_distribution] and [std::normal_distribution].

    The header itself only forwards to <random> and <memory>.  What those do
    is fixed here by the GNU implementation (libstdc++ 12, x86-64 GNU/Linux,
    LP64): [unsigned long] and [std::uint_fast32_t] are 64-bit, [float],
    [double] and [long double] are binary32, binary64 and the x87 extended
    format.  The engine's algorithm is the one ISO C++ prescribes
    ([rand.eng.mers], [rand.predef]); the distributions' algorithms are the
    library's own.

    Layout: definitions first (integer types, engine, distributions, the
    store of objects and engines, the class), then the lemmas on the engine
    and the distributions, then the properties of the class. *)

From stdpp Require Import base numbers list option gmap.
From Stdlib Require Import ZArith Lia Bool SpecFloat.

Local Open Scope Z_scope.

(** ** Integer types

    The types [std::uniform_int_distribution] may be instantiated with
    ([rand.req.genl]), their widths on LP64, and the conversion of a
    mathematical integer to each of them (wrap-around; two's complement for
    the signed types). *)

Inductive IntegerT :=
  | Short | Int | Long | LongLong
  | UShort | UInt | ULong | ULongLong.

Definition int_digits (T : IntegerT) : Z :=
  match T with
  | Short | UShort => 16
  | Int | UInt => 32
  | Long | ULong | LongLong | ULongLong => 64
  end.

Definition int_signed (T : IntegerT) : bool :=
  match T with
  | Short | Int | Long | LongLong => true
  | UShort | UInt | ULong | ULongLong => false
  end.

Definition int_min (T : IntegerT) : Z :=
  if int_signed T then - 2 ^ (int_digits T - 1) else 0.

Definition int_max (T : IntegerT) : Z :=
  if int_signed T then 2 ^ (int_digits T - 1) - 1 else 2 ^ int_digits T - 1.

Definition int_cast (T : IntegerT) (z : Z) : Z :=
  if int_signed T
  then (z + 2 ^ (int_digits T - 1)) mod 2 ^ int_digits T - 2 ^ (int_digits T - 1)
  else z mod 2 ^ int_digits T.

(** ** std::mt19937

    [mersenne_twister_engine<uint_fast32_t, 32, 624, 397, 31, 0x9908b0df, 11,
    0xffffffff, 7, 0x9d2c5680, 15, 0xefc60000, 18, 1812433253>].  The state is
    the array [_M_x] of 624 words and the position [_M_p]; the words are kept
    in a 64-bit unsigned type, whose arithmetic wraps ([wrap]). *)

Module mt19937.

Definition digits : Z := 64.
Definition wrap (z : Z) : Z := z mod 2 ^ digits.

Definition word_size : Z := 32.
Definition state_size : nat := 624.
Definition shift_size : nat := 397.
Definition mask_bits : Z := 31.
Definition xor_mask : Z := 0x9908b0df.
Definition tempering_u : Z := 11.
Definition tempering_d : Z := 0xffffffff.
Definition tempering_s : Z := 7.
Definition tempering_b : Z := 0x9d2c5680.
Definition tempering_t : Z := 15.
Definition tempering_c : Z := 0xefc60000.
Definition tempering_l : Z := 18.
Definition initialization_multiplier : Z := 1812433253.
Definition default_seed : Z := 5489.

Definition min : Z := 0.
Definition max : Z := 2 ^ word_size - 1.

Record state := State { _M_x : list Z; _M_p : nat }.

(** The body of the loop of [seed]: the word for [_M_x[i]] from
    [_M_x[i - 1]]. *)
Definition seed_word (x0 : Z) (i : nat) : Z :=
  let x1 := Z.lxor x0 (Z.shiftr x0 (word_size - 2)) in
  let x2 := wrap (x1 * initialization_multiplier) in
  let x3 := wrap (x2 + Z.of_nat i mod Z.of_nat state_size) in
  x3 mod 2 ^ word_size.

Definition seed_step (x : list Z) (i : nat) : list Z :=
  <[i := seed_word (x !!! (i - 1)%nat) i]> x.

(** [void seed(result_type __sd)]: every word of the array is written. *)
Definition seed (sd : Z) (e : state) : state :=
  {| _M_x := foldl seed_step (<[0%nat := sd mod 2 ^ word_size]> (_M_x e))
                   (seq 1 (state_size - 1));
     _M_p := state_size |}.

(** [explicit mersenne_twister_engine(result_type __sd) { seed(__sd); }].
    The members are not initialized before [seed] runs; [seed_fresh]
    below shows that what the array held does not matter. *)
Definition construct (sd : Z) : state :=
  seed sd {| _M_x := replicate state_size 0; _M_p := 0 |}.

(** The words [seed] writes at positions [i], [i + 1], ..., one after the
    other, [x0] being the word before them. *)
Fixpoint seed_words (x0 : Z) (i : nat) (n : nat) : list Z :=
  match n with
  | O => []
  | S n' => let v := seed_word x0 i in v :: seed_words v (S i) n'
  end.

Definition upper_mask : Z := wrap (Z.shiftl (wrap (Z.lnot 0)) mask_bits).
Definition lower_mask : Z := wrap (Z.lnot upper_mask).

(** The body shared by the three loops of [_M_gen_rand]. *)
Definition twist (x : list Z) (k k1 km : nat) : list Z :=
  let y := Z.lor (Z.land (x !!! k) upper_mask) (Z.land (x !!! k1) lower_mask) in
  <[k := Z.lxor (Z.lxor (x !!! km) (Z.shiftr y 1))
                (if Z.land y 1 =? 0 then 0 else xor_mask)]> x.

Definition _M_gen_rand (e : state) : state :=
  let x1 := foldl (fun x k => twist x k (k + 1) (k + shift_size)) (_M_x e)
                  (seq 0 (state_size - shift_size)) in
  let x2 := foldl (fun x k => twist x k (k + 1) (k + shift_size - state_size)) x1
                  (seq (state_size - shift_size) (shift_size - 1)) in
  {| _M_x := twist x2 (state_size - 1) 0 (shift_size - 1); _M_p := 0 |}.

(** [result_type operator()()]: the next word, tempered. *)
Definition operator_call (e : state) : Z * state :=
  let e1 := if decide (state_size ≤ _M_p e)%nat then _M_gen_rand e else e in
  let z0 := _M_x e1 !!! _M_p e1 in
  let z1 := Z.lxor z0 (Z.land (Z.shiftr z0 tempering_u) tempering_d) in
  let z2 := Z.lxor z1 (Z.land (wrap (Z.shiftl z1 tempering_s)) tempering_b) in
  let z3 := Z.lxor z2 (Z.land (wrap (Z.shiftl z2 tempering_t)) tempering_c) in
  let z4 := Z.lxor z3 (Z.shiftr z3 tempering_l) in
  (z4, {| _M_x := _M_x e1; _M_p := S (_M_p e1) |}).

Fixpoint discard (n : nat) (e : state) : state :=
  match n with
  | O => e
  | S k => discard k (operator_call e).2
  end.

(** The invariant of the class: 624 words, each below 2^32, and a position
    that does not pass the end of the array. *)
Definition word_ok (v : Z) : bool := (0 <=? v) && (v <? 2 ^ word_size).

Definition wf (e : state) : bool :=
  (length (_M_x e) =? state_size)%nat
  && forallb word_ok (_M_x e)
  && (_M_p e <=? state_size)%nat.

End mt19937.

(** ** std::uniform_int_distribution<IntegerT>

    [operator()(urng, param)] of bits/uniform_int_dist.h, for the engine
    above: [__uctype], the common type of the engine's result type and of the
    unsigned counterpart of [IntegerT], is a 64-bit unsigned type, and
    [__urngrange] is 2^32 - 1, so that of the compile-time alternatives of the
    downscaling branch the one that calls [_S_nd<uint64_t>] with a 32-bit
    range is taken.  The loops that reject a draw take fuel; [None] says that
    the fuel did not suffice. *)

Module uniform_int_distribution.

Definition uctype (z : Z) : Z := z mod 2 ^ 64.
Definition urngmin : Z := mt19937.min.
Definition urngmax : Z := mt19937.max.
Definition urngrange : Z := uctype (urngmax - urngmin).

(** The [while (__low < __threshold)] loop of [_S_nd]. *)
Fixpoint _S_nd_loop (fuel : nat) (g : mt19937.state) (range threshold product : Z)
  : option (Z * mt19937.state) :=
  if product mod 2 ^ 32 <? threshold then
    match fuel with
    | O => None
    | S fuel' =>
        let '(v, g') := mt19937.operator_call g in
        _S_nd_loop fuel' g' range threshold ((v * range) mod 2 ^ 64)
    end
  else Some (product, g).

(** [_S_nd<uint64_t>(g, range)], Lemire's nearly divisionless algorithm:
    the product is a 64-bit word, [range], [__low] and the result are
    32-bit words. *)
Definition _S_nd (fuel : nat) (g : mt19937.state) (range : Z)
  : option (Z * mt19937.state) :=
  let '(v, g1) := mt19937.operator_call g in
  let product := (v * range) mod 2 ^ 64 in
  let low := product mod 2 ^ 32 in
  if low <? range then
    let threshold := ((- range) mod 2 ^ 32) mod range in
    '(product', g2) ← _S_nd_loop fuel g1 range threshold product;
    Some (Z.shiftr product' 32 mod 2 ^ 32, g2)
  else Some (Z.shiftr product 32 mod 2 ^ 32, g1).

(** The do-while loop of the upscaling branch; [inner] is the recursive
    call [operator()(__urng, param_type(0, __urange / __uerngrange))]. *)
Fixpoint upscale_loop (inner : mt19937.state → option (Z * mt19937.state))
    (fuel : nat) (urange : Z) (g : mt19937.state) : option (Z * mt19937.state) :=
  match fuel with
  | O => None
  | S fuel' =>
      '(high, g1) ← inner g;
      let uerngrange := uctype (urngrange + 1) in
      let tmp := uctype (uerngrange * uctype high) in
      let '(v, g2) := mt19937.operator_call g1 in
      let ret := uctype (tmp + uctype (uctype v - urngmin)) in
      if (ret >? urange) || (ret <? tmp)
      then upscale_loop inner fuel' urange g2
      else Some (ret, g2)
  end.

Fixpoint operator_call (fuel : nat) (T : IntegerT) (a b : Z) (g : mt19937.state)
  : option (Z * mt19937.state) :=
  let urange := uctype (uctype b - uctype a) in
  let result (r : Z * mt19937.state) :=
    (int_cast T (uctype (r.1 + uctype a)), r.2) in
  if urngrange >? urange then
    let uerange := uctype (urange + 1) in
    result <$> _S_nd fuel g (uerange mod 2 ^ 32)
  else if urngrange <? urange then
    match fuel with
    | O => None
    | S fuel' =>
        let uerngrange := uctype (urngrange + 1) in
        result <$> upscale_loop
          (operator_call fuel' T (int_cast T 0) (int_cast T (urange / uerngrange)))
          fuel' urange g
    end
  else
    let '(v, g1) := mt19937.operator_call g in
    Some (result (uctype (uctype v - urngmin), g1)).

End uniform_int_distribution.

(** ** Floating-point types

    The three floating-point types, and the operations on their values that
    the library's real-valued distributions use.  The operations are kept
    behind an interface: what the class does to its engine does not depend on
    how they round.  [IEEE] below gives the instance on which results are
    computed. *)

Inductive RealT := Float | Double | LongDouble.

(** [std::numeric_limits<RealT>::digits] *)
Definition real_digits (T : RealT) : Z :=
  match T with
  | Float => 24
  | Double => 53
  | LongDouble => 64
  end.

Class Floating (real : Type) := {
  (** conversion of an integer to the type, rounded *)
  real_of_Z : RealT → Z → real;
  real_add : RealT → real → real → real;
  real_sub : RealT → real → real → real;
  real_mul : RealT → real → real → real;
  real_div : RealT → real → real → real;
  real_eqb : real → real → bool;
  real_ltb : real → real → bool;
  real_leb : real → real → bool;
  (** [std::nextafter], [std::sqrt], [std::log] of <cmath> *)
  real_nextafter : RealT → real → real → real;
  real_sqrt : RealT → real → real;
  real_log : RealT → real → real;
}.

Section distributions.
Context {real : Type} {FP : Floating real}.

(** *** std::generate_canonical<RealT, digits>

    [__r] is 2^32 and [__log2r], which the library computes as
    [std::log(__r) / std::log(2.0L)] converted to [size_t], is 32; the loop
    runs [__m] times, once for [float] and twice for the wider types.
    [__tmp *= __r] multiplies by a power of two. *)

Definition canonical_r : Z := mt19937.max - mt19937.min + 1.

Definition canonical_m (T : RealT) (bits : Z) : nat :=
  let b := Z.min (real_digits T) bits in
  let log2r := Z.log2 canonical_r in
  Z.to_nat (Z.max 1 ((b + log2r - 1) / log2r)).

Fixpoint canonical_loop (T : RealT) (k : nat) (sum tmp : real) (g : mt19937.state)
  : real * real * mt19937.state :=
  match k with
  | O => (sum, tmp, g)
  | S k' =>
      let '(v, g') := mt19937.operator_call g in
      canonical_loop T k'
        (real_add T sum (real_mul T (real_of_Z T (mt19937.wrap (v - mt19937.min))) tmp))
        (real_mul T tmp (real_of_Z T canonical_r)) g'
  end.

Definition generate_canonical (T : RealT) (bits : Z) (g : mt19937.state)
  : real * mt19937.state :=
  let '(sum, tmp, g') :=
    canonical_loop T (canonical_m T bits) (real_of_Z T 0) (real_of_Z T 1) g in
  let ret := real_div T sum tmp in
  (if real_leb (real_of_Z T 1) ret
   then real_nextafter T (real_of_Z T 1) (real_of_Z T 0)
   else ret, g').

(** [__detail::_Adaptor<_Engine, RealT>::operator()] *)
Definition _Adaptor (T : RealT) (g : mt19937.state) : real * mt19937.state :=
  generate_canonical T (real_digits T) g.

(** *** std::uniform_real_distribution<RealT>

    [return (__aurng() * (__p.b() - __p.a())) + __p.a();] *)
Definition uniform_real_distribution (T : RealT) (a b : real) (g : mt19937.state)
  : real * mt19937.state :=
  let '(u, g') := _Adaptor T g in
  (real_add T (real_mul T u (real_sub T b a)) a, g').

(** *** std::normal_distribution<RealT>

    The object keeps the second value of each pair that the polar method
    produces.  The class builds a new object for every call, so that value
    is dropped with the object. *)
Record normal_distribution := {
  _M_mean : real;
  _M_stddev : real;
  _M_saved : real;
  _M_saved_available : bool;
}.

Definition normal_distribution_construct (T : RealT) (mean stddev : real)
  : normal_distribution :=
  {| _M_mean := mean; _M_stddev := stddev;
     _M_saved := real_of_Z T 0; _M_saved_available := false |}.

(** The do-while loop: a point of the square, until it lies in the unit
    disc and is not the origin. *)
Fixpoint polar_loop (fuel : nat) (T : RealT) (g : mt19937.state)
  : option (real * real * real * mt19937.state) :=
  match fuel with
  | O => None
  | S fuel' =>
      let '(u1, g1) := _Adaptor T g in
      let x := real_sub T (real_mul T (real_of_Z T 2) u1) (real_of_Z T 1) in
      let '(u2, g2) := _Adaptor T g1 in
      let y := real_sub T (real_mul T (real_of_Z T 2) u2) (real_of_Z T 1) in
      let r2 := real_add T (real_mul T x x) (real_mul T y y) in
      if real_ltb (real_of_Z T 1) r2 || real_eqb r2 (real_of_Z T 0)
      then polar_loop fuel' T g2
      else Some (x, y, r2, g2)
  end.

Definition normal_distribution_call (fuel : nat) (T : RealT)
    (d : normal_distribution) (g : mt19937.state)
  : option (real * normal_distribution * mt19937.state) :=
  let scale (ret : real) := real_add T (real_mul T ret (_M_stddev d)) (_M_mean d) in
  if _M_saved_available d then
    Some (scale (_M_saved d),
          {| _M_mean := _M_mean d; _M_stddev := _M_stddev d;
             _M_saved := _M_saved d; _M_saved_available := false |}, g)
  else
    '(x, y, r2, g') ← polar_loop fuel T g;
    let mult :=
      real_sqrt T (real_div T (real_mul T (real_of_Z T (-2)) (real_log T r2)) r2) in
    Some (scale (real_mul T y mult),
          {| _M_mean := _M_mean d; _M_stddev := _M_stddev d;
             _M_saved := real_mul T x mult; _M_saved_available := true |}, g').

End distributions.

Arguments normal_distribution : clear implicits.

(** *** The IEEE 754 formats

    [float], [double] and [long double] with the operations of the standard
    library's executable specification of binary floating point, rounding to
    nearest, ties to even. *)

Module IEEE.

Definition prec (T : RealT) : Z := real_digits T.

Definition emax (T : RealT) : Z :=
  match T with
  | Float => 128
  | Double => 1024
  | LongDouble => 16384
  end.

Definition of_Z (T : RealT) (z : Z) : spec_float :=
  binary_normalize (prec T) (emax T) z 0 false.

Definition nextafter (T : RealT) (x y : spec_float) : spec_float :=
  match SFcompare x y with
  | Some Eq => y
  | Some Lt => SFsucc (prec T) (emax T) x
  | Some Gt => SFpred (prec T) (emax T) x
  | None => S754_nan
  end.

(** [std::log] has no executable specification.  This one stands for it:
    with [x = f * 2^e] and [f] in [1/2, 1), it sums
    [e * ln 2 + 2 * atanh ((f - 1) / (f + 1))] in the arithmetic of the
    type; it is close to, but not bit for bit, what libm returns. *)
Fixpoint atanh_series (T : RealT) (n : nat) (k : Z) (z2 term : spec_float) : spec_float :=
  match n with
  | O => S754_zero false
  | S n' =>
      SFadd (prec T) (emax T)
        (SFdiv (prec T) (emax T) term (of_Z T k))
        (atanh_series T n' (k + 2) z2 (SFmul (prec T) (emax T) term z2))
  end.

Definition atanh2 (T : RealT) (z : spec_float) : spec_float :=
  SFmul (prec T) (emax T) (of_Z T 2)
    (atanh_series T 40 1 (SFmul (prec T) (emax T) z z) z).

Definition log (T : RealT) (x : spec_float) : spec_float :=
  match x with
  | S754_nan => S754_nan
  | S754_zero _ => S754_infinity true
  | S754_infinity false => x
  | S754_infinity true => S754_nan
  | S754_finite true _ _ => S754_nan
  | S754_finite false _ _ =>
      let '(f, e) := SFfrexp (prec T) (emax T) x in
      let ln2 := atanh2 T (SFdiv (prec T) (emax T) (of_Z T 1) (of_Z T 3)) in
      let z := SFdiv (prec T) (emax T)
                 (SFsub (prec T) (emax T) f (of_Z T 1))
                 (SFadd (prec T) (emax T) f (of_Z T 1)) in
      SFadd (prec T) (emax T) (SFmul (prec T) (emax T) (of_Z T e) ln2) (atanh2 T z)
  end.

#[global] Instance floating : Floating spec_float := {|
  real_of_Z := of_Z;
  real_add T := SFadd (prec T) (emax T);
  real_sub T := SFsub (prec T) (emax T);
  real_mul T := SFmul (prec T) (emax T);
  real_div T := SFdiv (prec T) (emax T);
  real_eqb := SFeqb;
  real_ltb := SFltb;
  real_leb := SFleb;
  real_nextafter := nextafter;
  real_sqrt T := SFsqrt (prec T) (emax T);
  real_log := log;
|}.

(** [DBL_MAX] *)
Definition DBL_MAX : spec_float := SFmax_float (prec Double) (emax Double).

End IEEE.

(** ** The store

    [RandomTwister] has one member, [std::unique_ptr<engine_type> engine]:
    a pointer to an engine in the free store, or the null pointer (after the
    object has been moved from).  The world holds the engines that [new] has
    allocated, the [RandomTwister] objects by name, the number of engines the
    free store can still provide, and the values [std::random_device] is
    going to deliver. *)

Abbreviation loc := positive.
Abbreviation name := positive.

Record RandomTwister := { engine : option loc }.

Record World := {
  heap : gmap loc mt19937.state;
  objects : gmap name RandomTwister;
  free_store : nat;
  entropy : list Z;
}.

(** What a call can end in: it returns, it throws, its behaviour is undefined
    (a null or dangling [engine] is dereferenced, an object that does not
    exist is used), or a rejection loop of the library is still running when
    the fuel is spent. *)

Inductive exn := bad_alloc | random_device_error.

Inductive outcome (A : Type) :=
  | Returns (a : A) (w : World)
  | Throws (e : exn) (w : World)
  | Undefined
  | Unfinished.
Arguments Returns {A} a w.
Arguments Throws {A} e w.
Arguments Undefined {A}.
Arguments Unfinished {A}.

Definition and_then {A B} (o : outcome A) (k : A → World → outcome B) : outcome B :=
  match o with
  | Returns a w => k a w
  | Throws e w => Throws e w
  | Undefined => Undefined
  | Unfinished => Unfinished
  end.

(** An outcome without the world it leaves. *)
Inductive result (A : Type) :=
  | Value (a : A)
  | Raised (e : exn)
  | UndefinedBehaviour
  | Running.
Arguments Value {A} a.
Arguments Raised {A} e.
Arguments UndefinedBehaviour {A}.
Arguments Running {A}.

Definition result_of {A} (o : outcome A) : result A :=
  match o with
  | Returns a _ => Value a
  | Throws e _ => Raised e
  | Undefined => UndefinedBehaviour
  | Unfinished => Running
  end.

Definition set_heap (h : gmap loc mt19937.state) (w : World) : World :=
  {| heap := h; objects := objects w; free_store := free_store w; entropy := entropy w |}.

Definition set_objects (o : gmap name RandomTwister) (w : World) : World :=
  {| heap := heap w; objects := o; free_store := free_store w; entropy := entropy w |}.

(** [operator new]: storage for one engine, its contents not yet written
    (zeros stand for them), or [std::bad_alloc]. *)
Definition operator_new (w : World) : outcome loc :=
  match free_store w with
  | O => Throws bad_alloc w
  | S n =>
      let l := fresh (dom (heap w)) in
      Returns l {| heap := <[l := mt19937.State (replicate mt19937.state_size 0) 0]> (heap w);
                   objects := objects w; free_store := n; entropy := entropy w |}
  end.

(** [delete p], as [~unique_ptr] calls it: nothing for the null pointer. *)
Definition operator_delete (p : option loc) (w : World) : outcome unit :=
  match p with
  | None => Returns tt w
  | Some l =>
      match heap w !! l with
      | Some _ =>
          Returns tt {| heap := delete l (heap w); objects := objects w;
                        free_store := S (free_store w); entropy := entropy w |}
      | None => Undefined
      end
  end.

(** [std::random_device()()]: an [unsigned int], or an exception when the
    device cannot deliver one ([rand.device]). *)
Definition random_device (w : World) : outcome Z :=
  match entropy w with
  | [] => Throws random_device_error w
  | v :: rest =>
      Returns (v mod 2 ^ 32)
        {| heap := heap w; objects := objects w; free_store := free_store w;
           entropy := rest |}
  end.

(** ** The class *)

(** Dereferencing [engine]: run [f] on the engine the object owns and store
    the state it leaves. *)
Definition with_engine {A} (this : name)
    (f : mt19937.state → option (A * mt19937.state)) (w : World) : outcome A :=
  match objects w !! this with
  | Some {| engine := Some l |} =>
      match heap w !! l with
      | Some e =>
          match f e with
          | Some (a, e') => Returns a (set_heap (<[l := e']> (heap w)) w)
          | None => Unfinished
          end
      | None => Undefined
      end
  | _ => Undefined
  end.

(** The conversion of the [unsigned long] argument to the engine's
    [result_type]. *)
Definition result_type (sd : Z) : Z := mt19937.wrap sd.

(** [new engine_type(sd)] where evaluating [sd] has already succeeded. *)
Definition new_engine (sd : Z) (w : World) : outcome loc :=
  and_then (operator_new w) (fun l w1 =>
    match heap w1 !! l with
    | Some e => Returns l (set_heap (<[l := mt19937.seed (result_type sd) e]> (heap w1)) w1)
    | None => Undefined
    end).

(** [explicit RandomTwister(unsigned long seed) : engine(new engine_type(seed))];
    [this] names the storage of the new object. *)
Definition RandomTwister_seed (this : name) (sd : Z) (w : World) : outcome unit :=
  match objects w !! this with
  | Some _ => Undefined
  | None =>
      and_then (new_engine sd w) (fun l w1 =>
        Returns tt (set_objects (<[this := {| engine := Some l |}]> (objects w1)) w1))
  end.

(** [RandomTwister() : engine(new engine_type(std::random_device()()))]:
    the storage is allocated, then the argument is evaluated; when that
    throws, the storage is released and the exception leaves the
    constructor. *)
Definition RandomTwister_default (this : name) (w : World) : outcome unit :=
  match objects w !! this with
  | Some _ => Undefined
  | None =>
      and_then (operator_new w) (fun l w1 =>
        match random_device w1 with
        | Returns sd w2 =>
            match heap w2 !! l with
            | Some e =>
                Returns tt
                  (set_objects (<[this := {| engine := Some l |}]> (objects w2))
                     (set_heap (<[l := mt19937.seed (result_type sd) e]> (heap w2)) w2))
            | None => Undefined
            end
        | Throws ex w2 =>
            and_then (operator_delete (Some l) w2) (fun _ w3 => Throws ex w3)
        | Undefined => Undefined
        | Unfinished => Unfinished
        end)
  end.

(** [RandomTwister(RandomTwister&& other) : engine(std::move(other.engine))] *)
Definition RandomTwister_move (this other : name) (w : World) : outcome unit :=
  match objects w !! this, objects w !! other with
  | None, Some o =>
      Returns tt
        (set_objects (<[this := {| engine := engine o |}]>
                        (<[other := {| engine := None |}]> (objects w))) w)
  | _, _ => Undefined
  end.

(** [void swap(RandomTwister& other)]: [swap(this->engine, other.engine)] *)
Definition swap (this other : name) (w : World) : outcome unit :=
  match objects w !! this, objects w !! other with
  | Some a, Some b =>
      Returns tt
        (set_objects (<[other := {| engine := engine a |}]>
                        (<[this := {| engine := engine b |}]> (objects w))) w)
  | _, _ => Undefined
  end.

(** [~RandomTwister() = default]: the [unique_ptr] deletes the engine. *)
Definition RandomTwister_destroy (this : name) (w : World) : outcome unit :=
  match objects w !! this with
  | Some o =>
      and_then (operator_delete (engine o) w) (fun _ w1 =>
        Returns tt (set_objects (delete this (objects w1)) w1))
  | None => Undefined
  end.

(** [RandomTwister& operator=(RandomTwister&& other)]: a local [temp] is
    move-constructed from [other], swapped with [*this] and destroyed at the
    end of the body. *)
Definition operator_assign (this other : name) (w : World) : outcome unit :=
  let temp := fresh (dom (objects w)) in
  and_then (RandomTwister_move temp other w) (fun _ w1 =>
  and_then (swap temp this w1) (fun _ w2 =>
  RandomTwister_destroy temp w2)).

(** The non-member [swap(lhs, rhs)]. *)
Definition ntl_swap (lhs rhs : name) (w : World) : outcome unit := swap lhs rhs w.

Definition uniform_int (fuel : nat) (T : IntegerT) (this : name)
    (lowerInclusiveBound upperInclusiveBound : Z) (w : World) : outcome Z :=
  with_engine this
    (uniform_int_distribution.operator_call fuel T
       lowerInclusiveBound upperInclusiveBound) w.

(** [void seed(unsigned long _seed)]: [engine->seed(_seed)] *)
Definition seed (this : name) (sd : Z) (w : World) : outcome unit :=
  with_engine this (fun e => Some (tt, mt19937.seed (result_type sd) e)) w.

Section sampling.
Context {real : Type} {FP : Floating real}.

Definition uniform_real (T : RealT) (this : name)
    (lowerInclusiveBound upperInclusiveBound : real) (w : World) : outcome real :=
  with_engine this
    (fun e => Some (uniform_real_distribution T
                      lowerInclusiveBound upperInclusiveBound e)) w.

Definition uniform_probability (this : name) (w : World) : outcome real :=
  with_engine this
    (fun e => Some (uniform_real_distribution Double
                      (real_of_Z Double 0) (real_of_Z Double 1) e)) w.

Definition normal_real (fuel : nat) (this : name)
    (distributionMean distributionSigma : real) (w : World) : outcome real :=
  with_engine this
    (fun e =>
       '(x, _, e') ← normal_distribution_call fuel Double
         (normal_distribution_construct Double distributionMean distributionSigma) e;
       Some (x, e')) w.

(** What the specification says of [uniform_probability]: shorthand for
    [uniform_real(0.0, 1.0)] producing a [double]. *)
Definition uniform_probability_spec (this : name) (w : World) : outcome real :=
  uniform_real Double this (real_of_Z Double 0) (real_of_Z Double 1) w.

(** *** Sequences of sampling calls *)

Inductive call :=
  | call_uniform_int (T : IntegerT) (low high : Z)
  | call_uniform_real (T : RealT) (low high : real)
  | call_uniform_probability
  | call_normal_real (mean sigma : real).

Inductive sample :=
  | sample_int (v : Z)
  | sample_real (x : real).

Definition do_call (fuel : nat) (this : name) (c : call) (w : World) : outcome sample :=
  match c with
  | call_uniform_int T low high =>
      and_then (uniform_int fuel T this low high w) (fun v w' => Returns (sample_int v) w')
  | call_uniform_real T low high =>
      and_then (uniform_real T this low high w) (fun x w' => Returns (sample_real x) w')
  | call_uniform_probability =>
      and_then (uniform_probability this w) (fun x w' => Returns (sample_real x) w')
  | call_normal_real mean sigma =>
      and_then (normal_real fuel this mean sigma w) (fun x w' => Returns (sample_real x) w')
  end.

Fixpoint run (fuel : nat) (this : name) (cs : list call) (w : World)
  : outcome (list sample) :=
  match cs with
  | [] => Returns [] w
  | c :: cs' =>
      and_then (do_call fuel this c w) (fun v w1 =>
      and_then (run fuel this cs' w1) (fun vs w2 => Returns (v :: vs) w2))
  end.

(** The same calls on an engine alone: what a generator is going to produce
    is a function of the state of its engine. *)
Definition engine_call (fuel : nat) (c : call) (e : mt19937.state)
  : option (sample * mt19937.state) :=
  match c with
  | call_uniform_int T low high =>
      '(v, e') ← uniform_int_distribution.operator_call fuel T low high e;
      Some (sample_int v, e')
  | call_uniform_real T low high =>
      let '(x, e') := uniform_real_distribution T low high e in
      Some (sample_real x, e')
  | call_uniform_probability =>
      let '(x, e') := uniform_real_distribution Double
                        (real_of_Z Double 0) (real_of_Z Double 1) e in
      Some (sample_real x, e')
  | call_normal_real mean sigma =>
      '(x, _, e') ← normal_distribution_call fuel Double
        (normal_distribution_construct Double mean sigma) e;
      Some (sample_real x, e')
  end.

Fixpoint engine_run (fuel : nat) (cs : list call) (e : mt19937.state)
  : option (list sample * mt19937.state) :=
  match cs with
  | [] => Some ([], e)
  | c :: cs' =>
      '(v, e1) ← engine_call fuel c e;
      '(vs, e2) ← engine_run fuel cs' e1;
      Some (v :: vs, e2)
  end.

End sampling.

Arguments call : clear implicits.
Arguments sample : clear implicits.
Arguments call_uniform_int {real} T low high.
Arguments call_uniform_real {real} T low high.
Arguments call_uniform_probability {real}.
Arguments call_normal_real {real} mean sigma.
Arguments sample_int {real} v.
Arguments sample_real {real} x.

(** ** Valid generators and well-formed worlds *)

(** The engine a generator owns, if it is valid: the object exists, its
    pointer is not null and points to an engine. *)
Definition engine_of (w : World) (this : name) : option mt19937.state :=
  match objects w !! this with
  | Some {| engine := Some l |} => heap w !! l
  | _ => None
  end.

(** A valid generator: constructed, not moved from, its engine within the
    invariant of [std::mt19937]. *)
Definition valid (w : World) (this : name) : bool :=
  match engine_of w this with
  | Some e => mt19937.wf e
  | None => false
  end.

(** [unique_ptr]: no two objects own the same engine, and an owned engine is
    allocated. *)
Definition unique_owner (w : World) : Prop :=
  map_Forall (fun a ra =>
    match engine ra with
    | None => True
    | Some l =>
        is_Some (heap w !! l) ∧
        map_Forall (fun b rb => engine rb = Some l → a = b) (objects w)
    end) (objects w).

Definition empty_world (store : nat) (device : list Z) : World :=
  {| heap := ∅; objects := ∅; free_store := store; entropy := device |}.

(** The final world of an outcome that returned. *)
Definition world_of {A} (o : outcome A) (otherwise : World) : World :=
  match o with
  | Returns _ w => w
  | _ => otherwise
  end.

(** ** Notions the statements use *)

(** A non-negative integer of at most [n] bits. *)
Definition below (n x : Z) : Prop := 0 <= x < 2 ^ n.

(** [this] owns the engine at [l], which is in state [e]. *)
Definition owns (w : World) (this : name) (l : loc) (e : mt19937.state) : Prop :=
  objects w !! this = Some {| engine := Some l |} /\ heap w !! l = Some e.

(** The world after [RandomTwister a(sd)]. *)
Definition constructed (this : name) (sd : Z) (n : nat) (w : World) : World :=
  {| heap := <[fresh (dom (heap w)) := mt19937.construct (result_type sd)]> (heap w);
     objects := <[this := {| engine := Some (fresh (dom (heap w))) |}]> (objects w);
     free_store := n; entropy := entropy w |}.

Section results.
Context {real : Type}.

(** What a run on an engine alone says of the run of the generator that owns
    it. *)
Definition engine_result (o : option (list (sample real) * mt19937.state))
  : result (list (sample real)) :=
  match o with
  | Some (vs, _) => Value vs
  | None => Running
  end.

End results.

#[global] Instance RandomTwister_eq_dec : EqDecision RandomTwister.
Proof. solve_decision. Defined.

#[global] Instance unique_owner_dec w : Decision (unique_owner w).
Proof.
  unfold unique_owner. apply map_Forall_dec. intros a ra.
  destruct (engine ra) as [l|]; apply _.
Defined.

Module Example.
Import IEEE.
(** A free store with room for two engines and a random device that can
    deliver one value. *)
Definition w0 : World := empty_world 2 [2024].
Definition a : name := 1%positive.
Definition b : name := 2%positive.
(** [RandomTwister a(42);] *)
Definition w1 : World := world_of (RandomTwister_seed a 42 w0) w0.
(** ... three calls of [a.uniform_int<int>(1, 100)] *)
Definition three : list (call spec_float) :=
  [call_uniform_int Int 1 100; call_uniform_int Int 1 100; call_uniform_int Int 1 100].
Definition w2 : World := world_of (run 8 a three w1) w1.
(** ... [RandomTwister b;] *)
Definition w3 : World := world_of (RandomTwister_default b w2) w2.
(** Another program: [RandomTwister b(42);] where nothing else lives. *)
Definition v0 : World := empty_world 1 [].
Definition v1 : World := world_of (RandomTwister_seed b 42 v0) v0.
End Example.

From Stdlib Require Import Rbase Rfunctions Lra.

(** ** Numbers of a binary format

    What is needed to say which real number a value of [spec_float] stands
    for and how the operations round: the notions the lemmas on
    [uniform_real] are stated with.  [prec] and [emax] are the precision and
    the exponent bound of the format, as in the library's [SpecFloat]. *)

Module Binary.

(** [M / 2^n] rounded to an integer, to nearest, ties to even. *)
Definition rne (M n : Z) : Z :=
  let q := M / 2 ^ n in
  match 2 * (M mod 2 ^ n) ?= 2 ^ n with
  | Lt => q
  | Gt => q + 1
  | Eq => if Z.even q then q else q + 1
  end.

(** A mantissa and an exponent in canonical position. *)
Definition can (prec emax m e : Z) : Prop :=
  SpecFloat.fexp prec emax (Zdigits2 m + e) = e.

(** The result of [binary_round_aux] from its final mantissa and exponent. *)
Definition pack (prec emax : Z) (s : bool) (m e : Z) : spec_float :=
  match m with
  | 0 => S754_zero s
  | Zpos p => if e <=? emax - prec then S754_finite s p e else S754_infinity s
  | Zneg _ => S754_nan
  end.

Definition bpow (e : Z) : R := powerRZ 2 e.

(** The value [M * 2^E] rounded to the format, to nearest, ties to even. *)
Definition rnd (prec emax M E : Z) : R :=
  (IZR (rne M (SpecFloat.fexp prec emax (Zdigits2 M + E) - E))
   * bpow (SpecFloat.fexp prec emax (Zdigits2 M + E)))%R.

(** The real number a finite float stands for; [0] for the others. *)
Definition val (f : spec_float) : R :=
  match f with
  | S754_finite s m e => (IZR (cond_Zopp s (Zpos m)) * bpow e)%R
  | _ => 0%R
  end.

Definition signed (s : bool) (x : R) : R := if s then (- x)%R else x.

(** A value of the type that is a number: a zero or a finite float within
    the bounds of the format. *)
Definition finite_ok (prec emax : Z) (f : spec_float) : Prop :=
  match f with
  | S754_zero _ => True
  | S754_finite _ m e => SpecFloat.bounded prec emax m e = true
  | _ => False
  end.

(** A non-negative real that the format holds. *)
Definition repr (prec emax : Z) (x : R) : Prop :=
  exists m e, 0 <= m /\ can prec emax m e /\ e <= emax - prec /\ x = (IZR m * bpow e)%R.

(** What [binary_round_aux] gives for a sign: that sign on a zero, a finite
    float within bounds or an infinity. *)
Definition shaped (prec emax : Z) (s : bool) (r : spec_float) : Prop :=
  match r with
  | S754_zero s' | S754_infinity s' => s' = s
  | S754_finite s' m e => s' = s /\ SpecFloat.bounded prec emax m e = true
  | S754_nan => False
  end.

(** The order of two positive canonical floats, as [SFcompare] finds it. *)
Definition compare_pos (m1 : positive) (e1 : Z) (m2 : positive) (e2 : Z) : comparison :=
  match e1 ?= e2 with
  | Eq => Pos.compare_cont Eq m1 m2
  | Lt => Lt
  | Gt => Gt
  end.

(** A zero, a positive number of the type or the positive infinity. *)
Definition nonneg (prec emax : Z) (r : spec_float) : Prop :=
  match r with
  | S754_zero _ => True
  | S754_infinity s => s = false
  | S754_finite s m e => s = false /\ SpecFloat.bounded prec emax m e = true
  | S754_nan => False
  end.

(** A positive number of the type. *)
Definition positive_finite (prec emax : Z) (r : spec_float) : bool :=
  match r with
  | S754_finite false m e => SpecFloat.bounded prec emax m e
  | _ => false
  end.

(** [std::isfinite] on a value of the type [T]. *)
Definition finite (T : RealT) (f : spec_float) : bool :=
  match f with
  | S754_zero _ => true
  | S754_finite _ m e => SpecFloat.bounded (IEEE.prec T) (IEEE.emax T) m e
  | _ => false
  end.

(** The factor [__tmp] of [generate_canonical] stays a positive number
    through [k] rounds. *)
Fixpoint factors_ok (T : RealT) (k : nat) (tmp : spec_float) : bool :=
  positive_finite (IEEE.prec T) (IEEE.emax T) tmp
  && match k with
     | O => true
     | S k' => factors_ok T k' (real_mul T tmp (real_of_Z T canonical_r))
     end.

End Binary.

(** ** Ownership

    The engine an object holds, if the object exists and its pointer is not
    null. *)
Definition owner (w : World) (x : name) : option loc := objects w !! x ≫= engine.

(** Exchanging two names. *)
Definition transpose (a b x : name) : name :=
  if decide (x = a) then b else if decide (x = b) then a else x.

(** ** The words an engine delivers

    What the rejection loops of the library see of the engine. *)

(** The [k]-th word the engine is going to deliver, counting from 0. *)
Definition output (e : mt19937.state) (k : nat) : Z :=
  (mt19937.operator_call (mt19937.discard k e)).1.

(** [_S_nd] rejects the word [v] for [range]: [__low < __threshold], where
    [__low] is the low half of the product [v * range] and [__threshold] is
    [-range % range] in 32 bits. *)
Definition rejected (range v : Z) : bool :=
  (v * range) mod 2 ^ 32 <? ((- range) mod 2 ^ 32) mod range.

(** ** More of the example program *)

Module Samples.
Import IEEE Example.
(** [a.uniform_real<double>(-3.0, 5.0)] on the generator seeded with 42. *)
Definition real_draw : outcome spec_float :=
  uniform_real Double a (of_Z Double (-3)) (of_Z Double 5) w1.
(** [a.uniform_real<double>(-DBL_MAX, DBL_MAX)] *)
Definition wide_draw : outcome spec_float :=
  uniform_real Double a (SFopp DBL_MAX) DBL_MAX w1.
(** [a.uniform_probability()] *)
Definition probability_draw : outcome spec_float := uniform_probability a w1.
(** [a.normal_real()] *)
Definition normal_draw : outcome spec_float :=
  normal_real 8 a (of_Z Double 0) (of_Z Double 1) w1.
(** The engine of [a] in [w1] and where it lives. *)
Definition e1 : mt19937.state := mt19937.construct (result_type 42).
Definition l1 : loc := fresh (dom (heap w0)).
(** A third name, for [RandomTwister c(std::move(a));] *)
Definition c : name := 3%positive.
Definition moved : World := world_of (RandomTwister_move c a w1) w1.
End Samples.

(** * Lemmas

    ** Words

    Bounds on the bitwise operations of non-negative integers. *)

Section words.
Variable n : Z.
Hypothesis Hn : 0 <= n.

Lemma below_log2 x : 0 <= x -> (x < 2 ^ n <-> x = 0 \/ Z.log2 x < n).
Proof.
  intros Hx. destruct (Z.eq_dec x 0) as [->|Hne].
  - split; [auto|]. intros _. apply Z.pow_pos_nonneg; lia.
  - rewrite Z.log2_lt_pow2 by lia. intuition lia.
Qed.

Lemma below_lxor x y : below n x -> below n y -> below n (Z.lxor x y).
Proof.
  intros [Hx0 Hx] [Hy0 Hy].
  assert (H0 : 0 <= Z.lxor x y) by (apply Z.lxor_nonneg; lia).
  split; [done|]. apply below_log2; [done|].
  apply below_log2 in Hx; [|done]. apply below_log2 in Hy; [|done].
  destruct Hx as [->|Hx]; [rewrite Z.lxor_0_l; tauto|].
  destruct Hy as [->|Hy]; [rewrite Z.lxor_0_r; tauto|].
  destruct (Z.eq_dec (Z.lxor x y) 0); [auto|right].
  pose proof (Z.log2_lxor x y Hx0 Hy0). lia.
Qed.

Lemma below_land_l x y : below n x -> 0 <= y -> below n (Z.land x y).
Proof.
  intros [Hx0 Hx] Hy0.
  assert (H0 : 0 <= Z.land x y) by (apply Z.land_nonneg; lia).
  split; [done|]. apply below_log2; [done|].
  apply below_log2 in Hx; [|done].
  destruct (Z.eq_dec (Z.land x y) 0); [auto|right].
  pose proof (Z.log2_land x y Hx0 Hy0).
  destruct Hx as [->|Hx]; [rewrite Z.land_0_l in *; lia|lia].
Qed.

Lemma below_land_r x y : 0 <= x -> below n y -> below n (Z.land x y).
Proof. intros. rewrite Z.land_comm. by apply below_land_l. Qed.

Lemma below_lor x y : below n x -> below n y -> below n (Z.lor x y).
Proof.
  intros [Hx0 Hx] [Hy0 Hy].
  assert (H0 : 0 <= Z.lor x y) by (apply Z.lor_nonneg; lia).
  split; [done|]. apply below_log2; [done|].
  apply below_log2 in Hx; [|done]. apply below_log2 in Hy; [|done].
  destruct Hx as [->|Hx]; [rewrite Z.lor_0_l; tauto|].
  destruct Hy as [->|Hy]; [rewrite Z.lor_0_r; tauto|].
  right. rewrite (Z.log2_lor x y Hx0 Hy0). lia.
Qed.

Lemma below_shiftr x k : 0 <= k -> below n x -> below n (Z.shiftr x k).
Proof.
  intros Hk [Hx0 Hx]. rewrite Z.shiftr_div_pow2 by done.
  assert (0 < 2 ^ k) by (apply Z.pow_pos_nonneg; lia).
  split; [apply Z.div_pos; lia|].
  apply Z.le_lt_trans with x; [|done].
  apply Z.div_le_upper_bound; [lia|]. nia.
Qed.
End words.

(** ** The engine *)

Module mt19937_facts.
Import mt19937.

Lemma word_ok_spec v : word_ok v = true <-> below word_size v.
Proof. unfold word_ok, below. rewrite andb_true_iff, Z.leb_le, Z.ltb_lt. done. Qed.

Lemma forallb_word_ok x : forallb word_ok x = true <-> Forall (below word_size) x.
Proof.
  rewrite forallb_forall, Forall_forall. split; intros H v Hv.
  - apply word_ok_spec, H. by apply list_elem_of_In.
  - apply word_ok_spec, H. by apply list_elem_of_In.
Qed.

Lemma wf_spec e :
  wf e = true <->
  length (_M_x e) = state_size /\ Forall (below word_size) (_M_x e) /\ (_M_p e <= state_size)%nat.
Proof.
  unfold wf. rewrite !andb_true_iff, Nat.eqb_eq, Nat.leb_le, forallb_word_ok. tauto.
Qed.

Lemma below_inhabitant : below word_size inhabitant.
Proof. by vm_compute. Qed.

Lemma lookup_total_below (x : list Z) i :
  Forall (below word_size) x -> below word_size (x !!! i).
Proof.
  intros H. rewrite list_lookup_total_alt.
  destruct (x !! i) as [v|] eqn:E; simpl; [|apply below_inhabitant].
  eapply Forall_lookup_1; eauto.
Qed.

(** ** [seed] *)

Lemma seed_word_below x0 i : below word_size (seed_word x0 i).
Proof. unfold seed_word, below. apply Z.mod_pos_bound. by vm_compute. Qed.

Lemma seed_words_length x0 i n : length (seed_words x0 i n) = n.
Proof. revert x0 i. induction n; intros; simpl; [done|]. by rewrite IHn. Qed.

Lemma seed_words_below x0 i n : Forall (below word_size) (seed_words x0 i n).
Proof.
  revert x0 i. induction n; intros; simpl; constructor.
  - apply seed_word_below.
  - apply IHn.
Qed.

Lemma foldl_seed_step n : forall i (x : list Z),
  (1 <= i)%nat -> (i + n <= length x)%nat ->
  foldl seed_step x (seq i n)
  = take i x ++ seed_words (x !!! (i - 1)%nat) i n ++ drop (i + n) x.
Proof.
  induction n as [|n IH]; intros i x Hi Hlen; simpl.
  - rewrite Nat.add_0_r. by rewrite take_drop.
  - assert (Hlt : (i < length x)%nat) by lia.
    rewrite IH; [|lia|unfold seed_step; rewrite length_insert; lia].
    unfold seed_step at 1 2 3.
    replace (S i - 1)%nat with i by lia.
    rewrite list_lookup_total_insert_eq by done.
    rewrite (take_S_r _ _ (seed_word (x !!! (i - 1)%nat) i))
      by (by apply list_lookup_insert_eq).
    rewrite take_insert_ge by lia.
    rewrite drop_insert_lt by lia.
    rewrite <- app_assoc. simpl. repeat f_equal. lia.
Qed.

Lemma foldl_seed_step_all n v (x : list Z) :
  length x = S n ->
  foldl seed_step (<[0%nat := v]> x) (seq 1 n) = v :: seed_words v 1 n.
Proof.
  intros Hlen. rewrite foldl_seed_step; [|lia|rewrite length_insert; lia].
  rewrite drop_ge by (rewrite length_insert; lia).
  rewrite app_nil_r. destruct x as [|x0 xs]; [discriminate|]. reflexivity.
Qed.

Lemma _M_x_State x p : _M_x (State x p) = x.
Proof. reflexivity. Qed.

Lemma _M_p_State x p : _M_p (State x p) = p.
Proof. reflexivity. Qed.

(** What [seed] leaves in the array, whatever it held before. *)
Lemma seed_array sd e :
  length (_M_x e) = state_size ->
  _M_x (seed sd e)
  = sd mod 2 ^ word_size :: seed_words (sd mod 2 ^ word_size) 1 (state_size - 1).
Proof.
  intros Hlen. unfold seed. rewrite _M_x_State. apply foldl_seed_step_all.
  rewrite Hlen. reflexivity.
Qed.

Lemma seed_fresh sd e e' :
  length (_M_x e) = state_size -> length (_M_x e') = state_size ->
  seed sd e = seed sd e'.
Proof.
  intros H H'. unfold seed. f_equal.
  rewrite !(foldl_seed_step_all (state_size - 1)); [done| |].
  - rewrite H'. reflexivity.
  - rewrite H. reflexivity.
Qed.

Lemma seed_construct sd e :
  wf e = true -> seed sd e = construct sd.
Proof.
  intros [H _]%wf_spec. unfold construct. apply seed_fresh; [done|].
  cbn [_M_x]. by rewrite length_replicate.
Qed.

Lemma seed_mod sd e : seed (sd mod 2 ^ word_size) e = seed sd e.
Proof. unfold seed. rewrite Z.mod_mod; [done|by vm_compute]. Qed.

Lemma seed_wf sd e : length (_M_x e) = state_size -> wf (seed sd e) = true.
Proof.
  intros Hlen. apply wf_spec. rewrite seed_array by done.
  split_and!.
  - rewrite length_cons, seed_words_length. reflexivity.
  - constructor; [|apply seed_words_below].
    apply Z.mod_pos_bound. by vm_compute.
  - unfold seed. by rewrite _M_p_State.
Qed.

Lemma construct_wf sd : wf (construct sd) = true.
Proof. unfold construct. apply seed_wf. rewrite _M_x_State. by rewrite length_replicate. Qed.

(** ** [_M_gen_rand] and [operator()] *)

Lemma twist_below x k k1 km :
  Forall (below word_size) x -> Forall (below word_size) (twist x k k1 km).
Proof.
  intros H. unfold twist. apply Forall_insert; [done|].
  assert (Hw : 0 <= word_size) by (by vm_compute).
  apply below_lxor; [done| |].
  - apply below_lxor; [done|by apply lookup_total_below|].
    apply below_shiftr; [done|lia|].
    apply below_lor; [done| |].
    + apply below_land_l; [done|by apply lookup_total_below|by vm_compute].
    + apply below_land_l; [done|by apply lookup_total_below|by vm_compute].
  - destruct (_ =? _); by vm_compute.
Qed.

Lemma twist_length x k k1 km : length (twist x k k1 km) = length x.
Proof. unfold twist. apply length_insert. Qed.

Lemma foldl_twist_below (f : nat -> nat * nat) ks : forall x,
  Forall (below word_size) x ->
  Forall (below word_size) (foldl (fun x k => twist x k (f k).1 (f k).2) x ks)
  /\ length (foldl (fun x k => twist x k (f k).1 (f k).2) x ks) = length x.
Proof.
  induction ks as [|k ks IH]; intros x H; simpl; [done|].
  destruct (IH (twist x k (f k).1 (f k).2)) as [IH1 IH2]; [by apply twist_below|].
  split; [done|]. by rewrite IH2, twist_length.
Qed.

Lemma _M_gen_rand_wf e : wf e = true -> wf (_M_gen_rand e) = true.
Proof.
  intros (Hlen & Hx & Hp)%wf_spec. apply wf_spec. unfold _M_gen_rand.
  rewrite _M_x_State, _M_p_State.
  destruct (foldl_twist_below (fun k => ((k + 1)%nat, (k + shift_size)%nat))
              (seq 0 (state_size - shift_size)) _ Hx) as [H1 L1].
  cbn [fst snd] in H1, L1.
  destruct (foldl_twist_below (fun k => ((k + 1)%nat, (k + shift_size - state_size)%nat))
              (seq (state_size - shift_size) (shift_size - 1)) _ H1) as [H2 L2].
  cbn [fst snd] in H2, L2.
  split_and!.
  - rewrite twist_length. congruence.
  - by apply twist_below.
  - lia.
Qed.

Lemma temper_below z0 :
  below word_size z0 ->
  below word_size
    (let z1 := Z.lxor z0 (Z.land (Z.shiftr z0 tempering_u) tempering_d) in
     let z2 := Z.lxor z1 (Z.land (wrap (Z.shiftl z1 tempering_s)) tempering_b) in
     let z3 := Z.lxor z2 (Z.land (wrap (Z.shiftl z2 tempering_t)) tempering_c) in
     Z.lxor z3 (Z.shiftr z3 tempering_l)).
Proof.
  intros H0. assert (Hw : 0 <= word_size) by (by vm_compute).
  assert (Hwrap : forall z, 0 <= wrap z).
  { intros z. unfold wrap. apply Z.mod_pos_bound. by vm_compute. }
  cbv zeta.
  set (z1 := Z.lxor z0 _).
  assert (H1 : below word_size z1).
  { apply below_lxor; [done|done|]. apply below_land_l; [done| |by vm_compute].
    apply below_shiftr; [done|by vm_compute|done]. }
  set (z2 := Z.lxor z1 _).
  assert (H2 : below word_size z2).
  { apply below_lxor; [done|done|]. apply below_land_r; [done|apply Hwrap|by vm_compute]. }
  set (z3 := Z.lxor z2 _).
  assert (H3 : below word_size z3).
  { apply below_lxor; [done|done|]. apply below_land_r; [done|apply Hwrap|by vm_compute]. }
  apply below_lxor; [done|done|]. apply below_shiftr; [done|by vm_compute|done].
Qed.

(** A draw is a 32-bit word, and leaves the engine within its invariant. *)
Lemma operator_call_wf e :
  wf e = true ->
  below word_size (operator_call e).1 /\ wf (operator_call e).2 = true.
Proof.
  intros He. unfold operator_call.
  set (e1 := if decide _ then _ else _).
  assert (He1 : wf e1 = true /\ (_M_p e1 < state_size)%nat).
  { subst e1. destruct (decide _) as [Hge|Hlt].
    - split; [by apply _M_gen_rand_wf|]. unfold _M_gen_rand. rewrite _M_p_State.
      apply Nat.ltb_lt. by vm_compute.
    - split; [done|lia]. }
  destruct He1 as [(Hlen & Hx & Hp)%wf_spec Hlt]. cbn [fst snd].
  split.
  - apply temper_below. by apply lookup_total_below.
  - apply wf_spec. rewrite _M_x_State, _M_p_State. split_and!; [done|done|lia].
Qed.

Lemma discard_wf n : forall e, wf e = true -> wf (discard n e) = true.
Proof.
  induction n as [|n IH]; intros e He; simpl; [done|].
  apply IH. by apply operator_call_wf.
Qed.
End mt19937_facts.

Import mt19937_facts.

(** ** The integer distribution *)

Module uniform_int_distribution_facts.
Import uniform_int_distribution mt19937_facts.

Lemma urngrange_eq : urngrange = 2 ^ 32 - 1.
Proof. reflexivity. Qed.

Lemma int_range_width T : int_max T - int_min T = 2 ^ int_digits T - 1.
Proof. destruct T; reflexivity. Qed.

Lemma int_digits_le T : 2 ^ int_digits T <= 2 ^ 64.
Proof. destruct T; by vm_compute. Qed.

(** The width of the range, as the library computes it in [__uctype]. *)
Lemma urange_eq T a b :
  int_min T <= a -> a <= b -> b <= int_max T ->
  uctype (uctype b - uctype a) = b - a.
Proof.
  intros Ha Hab Hb. unfold uctype. rewrite <- Zminus_mod.
  apply Z.mod_small. pose proof (int_range_width T). pose proof (int_digits_le T). lia.
Qed.

(** Adding the lower bound in [__uctype] and converting to [IntegerT]
    gives the sum, when the sum is a value of the type. *)
Lemma result_eq T a r :
  int_min T <= a + r <= int_max T ->
  int_cast T (uctype (r + uctype a)) = a + r.
Proof.
  unfold uctype. rewrite Zplus_mod_idemp_r.
  unfold int_cast, int_min, int_max.
  destruct T; cbn [int_signed int_digits];
    change (2 ^ 64) with 18446744073709551616;
    change (2 ^ (16 - 1)) with 32768; change (2 ^ 16) with 65536;
    change (2 ^ (32 - 1)) with 2147483648; change (2 ^ 32) with 4294967296;
    change (2 ^ (64 - 1)) with 9223372036854775808;
    intros H; Z.to_euclidean_division_equations; lia.
Qed.

Lemma _S_nd_loop_spec fuel : forall g range threshold product p' g',
  mt19937.wf g = true ->
  (exists v, below 32 v /\ product = (v * range) mod 2 ^ 64) ->
  _S_nd_loop fuel g range threshold product = Some (p', g') ->
  (exists v, below 32 v /\ p' = (v * range) mod 2 ^ 64) /\ mt19937.wf g' = true.
Proof.
  induction fuel as [|fuel IH]; intros g range threshold product p' g' Hg Hp; cbn [_S_nd_loop].
  - destruct (_ <? _); [done|]. intros [= <- <-]. done.
  - destruct (_ <? _); [|intros [= <- <-]; done].
    destruct (mt19937.operator_call g) as [v g1] eqn:E.
    pose proof (operator_call_wf g Hg) as [Hv Hg1]. rewrite E in Hv, Hg1. cbn [fst snd] in Hv, Hg1.
    apply IH; [done|]. by exists v.
Qed.

Lemma _S_nd_spec fuel g range r g' :
  mt19937.wf g = true -> 0 < range < 2 ^ 32 ->
  _S_nd fuel g range = Some (r, g') ->
  0 <= r < range /\ mt19937.wf g' = true.
Proof.
  intros Hg Hr. unfold _S_nd.
  destruct (mt19937.operator_call g) as [v g1] eqn:E.
  pose proof (operator_call_wf g Hg) as [Hv Hg1]. rewrite E in Hv, Hg1. cbn [fst snd] in Hv, Hg1.
  assert (Hshift : forall v', below 32 v' ->
             0 <= Z.shiftr ((v' * range) mod 2 ^ 64) 32 mod 2 ^ 32 < range).
  { intros v' [Hv0 Hv1]. rewrite Z.shiftr_div_pow2 by lia.
    change (2 ^ 64) with (2 ^ 32 * 2 ^ 32) in *.
    assert (0 <= v' * range < 2 ^ 32 * 2 ^ 32) by nia.
    rewrite (Z.mod_small (v' * range)) by done.
    assert (0 <= v' * range / 2 ^ 32 < range).
    { split; [apply Z.div_pos; lia|]. apply Z.div_lt_upper_bound; nia. }
    rewrite Z.mod_small; lia. }
  destruct (_ <? _).
  - destruct (_S_nd_loop _ _ _ _ _) as [[p' g2]|] eqn:EL; [|done]. cbn [mbind option_bind].
    intros [= <- <-].
    apply _S_nd_loop_spec in EL as [(v' & Hv' & ->) Hg2]; [|done|by exists v].
    split; [|done]. by apply Hshift.
  - intros [= <- <-]. split; [|done]. by apply Hshift.
Qed.

Lemma upscale_loop_spec inner fuel urange : forall g r g',
  mt19937.wf g = true ->
  (forall g1 h g2, mt19937.wf g1 = true -> inner g1 = Some (h, g2) -> mt19937.wf g2 = true) ->
  upscale_loop inner fuel urange g = Some (r, g') ->
  0 <= r <= urange /\ mt19937.wf g' = true.
Proof.
  intros g r g' Hg Hinner. revert g Hg.
  induction fuel as [|fuel IH]; intros g Hg; cbn [upscale_loop]; [done|].
  destruct (inner g) as [[h g1]|] eqn:EI; [|done]. cbn [mbind option_bind].
  pose proof (Hinner _ _ _ Hg EI) as Hg1.
  destruct (mt19937.operator_call g1) as [v g2] eqn:E.
  pose proof (operator_call_wf g1 Hg1) as [Hv Hg2]. rewrite E in Hv, Hg2. simpl in Hv, Hg2.
  destruct (_ || _) eqn:Hc; [by apply IH|].
  intros [= <- <-]. apply orb_false_iff in Hc as [Hc1 Hc2].
  rewrite Z.gtb_ltb in Hc1. apply Z.ltb_ge in Hc1.
  split; [|done]. split; [|done].
  unfold uctype. apply Z.mod_pos_bound. lia.
Qed.

Lemma draw_all g v g1 :
  mt19937.wf g = true -> mt19937.operator_call g = (v, g1) ->
  (0 <= uctype (uctype v - urngmin) <= 2 ^ 32 - 1) /\ mt19937.wf g1 = true.
Proof.
  intros Hg E. pose proof (operator_call_wf g Hg) as [Hv Hg1].
  rewrite E in Hv, Hg1. cbn [fst snd] in Hv, Hg1. split; [|done].
  destruct Hv as [Hv0 Hv1]. change (2 ^ mt19937.word_size) with (2 ^ 32) in Hv1.
  unfold uctype, urngmin, mt19937.min. rewrite Z.sub_0_r, Z.mod_mod by lia.
  rewrite Z.mod_small; lia.
Qed.

Lemma inner_bounds T a b :
  int_min T <= a -> a <= b -> b <= int_max T -> 2 ^ 32 - 1 < b - a ->
  int_cast T 0 = 0
  /\ int_cast T ((b - a) / uctype (urngrange + 1)) = (b - a) / 2 ^ 32
  /\ int_min T <= 0 /\ 0 <= (b - a) / 2 ^ 32 <= int_max T.
Proof.
  intros Ha Hab Hb Hlt.
  change (uctype (urngrange + 1)) with (2 ^ 32).
  assert (Hq : 0 <= (b - a) / 2 ^ 32 < 2 ^ 32).
  { pose proof (int_range_width T). pose proof (int_digits_le T).
    split; [apply Z.div_pos; lia|]. apply Z.div_lt_upper_bound; [lia|].
    change (2 ^ 64) with (2 ^ 32 * 2 ^ 32) in *. lia. }
  revert Hq. generalize ((b - a) / 2 ^ 32). intros q Hq.
  pose proof (int_range_width T) as Hw. revert Ha Hb Hw.
  unfold int_cast, int_min, int_max.
  destruct T; cbn [int_signed int_digits];
    change (2 ^ (16 - 1)) with 32768; change (2 ^ 16) with 65536;
    change (2 ^ (32 - 1)) with 2147483648; change (2 ^ 32) with 4294967296 in *;
    change (2 ^ (64 - 1)) with 9223372036854775808;
    change (2 ^ 64) with 18446744073709551616;
    intros Ha Hb Hw; Z.to_euclidean_division_equations; lia.
Qed.

(** Every value the distribution returns lies between its bounds, and the
    engine is left within its invariant. *)
Lemma operator_call_spec fuel : forall T a b g v g',
  int_min T <= a -> a <= b -> b <= int_max T ->
  mt19937.wf g = true ->
  operator_call fuel T a b g = Some (v, g') ->
  a <= v <= b /\ mt19937.wf g' = true.
Proof.
  induction fuel as [|fuel IH]; intros T a b g v g' Ha Hab Hb Hg.
  all: assert (Hfin : forall r g1, 0 <= r <= b - a -> mt19937.wf g1 = true ->
         Some (int_cast T (uctype (r + uctype a)), g1) = Some (v, g') ->
         a <= v <= b /\ mt19937.wf g' = true)
    by (intros r g1 Hr Hg1; rewrite result_eq by lia;
        intros [= <- <-]; split; [lia|done]).
  all: assert (Hdown : (urngrange >? b - a) = true ->
         forall fl, (fun r : Z * mt19937.state =>
                       (int_cast T (uctype (r.1 + uctype a)), r.2))
           <$> _S_nd fl g (uctype (b - a + 1) mod 2 ^ 32) = Some (v, g') ->
         a <= v <= b /\ mt19937.wf g' = true).
  1,3: intros Hgt fl; rewrite Z.gtb_ltb in Hgt; apply Z.ltb_lt in Hgt;
       rewrite urngrange_eq in Hgt;
       replace (uctype (b - a + 1) mod 2 ^ 32) with (b - a + 1)
         by (unfold uctype; rewrite (Z.mod_small (b - a + 1) (2 ^ 64)) by lia;
             rewrite Z.mod_small by lia; done);
       destruct (_S_nd fl g (b - a + 1)) as [[r g1]|] eqn:ES; [|done];
       apply _S_nd_spec in ES as [Hr Hg1]; [|done|lia];
       cbn [fmap option_fmap option_map fst snd];
       apply Hfin; [lia|done].
  all: assert (Hsame : (urngrange >? b - a) = false -> (urngrange <? b - a) = false ->
         (let '(w, g1) := mt19937.operator_call g in
          Some ((fun r : Z * mt19937.state =>
                   (int_cast T (uctype (r.1 + uctype a)), r.2))
                  (uctype (uctype w - urngmin), g1))) = Some (v, g') ->
         a <= v <= b /\ mt19937.wf g' = true).
  1,3: intros Hgt Hlt; rewrite Z.gtb_ltb in Hgt; apply Z.ltb_ge in Hgt, Hlt;
       rewrite urngrange_eq in Hgt, Hlt;
       destruct (mt19937.operator_call g) as [w g1] eqn:E;
       apply draw_all in E as [Hw Hg1]; [|done];
       cbn [fst snd]; apply Hfin; [lia|done].
  all: cbn [operator_call]; rewrite (urange_eq T a b) by done.
  all: destruct (urngrange >? b - a) eqn:Hgt; [by apply Hdown|].
  all: destruct (urngrange <? b - a) eqn:Hlt; [|by apply Hsame].
  - done.
  - apply Z.ltb_lt in Hlt. rewrite urngrange_eq in Hlt.
    destruct (inner_bounds T a b Ha Hab Hb Hlt) as (H0 & Hq & Hmin & Hmax).
    destruct (upscale_loop _ _ _ _) as [[r g1]|] eqn:EU; [|done].
    apply upscale_loop_spec in EU as [Hr Hg1]; [|done|].
    + cbn [fmap option_fmap option_map fst snd]. by apply Hfin.
    + intros g1' h g2 Hg1' Hin.
      eapply (IH T _ _ g1' h g2); [| | |exact Hg1'|exact Hin].
      * by rewrite H0.
      * rewrite H0, Hq. lia.
      * rewrite Hq. lia.
Qed.
End uniform_int_distribution_facts.

(** * The class: how a call acts on the world *)

Lemma engine_of_owns w this e :
  engine_of w this = Some e <-> exists l, owns w this l e.
Proof.
  unfold engine_of, owns. split.
  - destruct (objects w !! this) as [[[l|]]|]; [|done..]. intros H. by exists l.
  - intros (l & -> & H). done.
Qed.

Lemma valid_owns w this :
  valid w this = true <-> exists l e, owns w this l e /\ mt19937.wf e = true.
Proof.
  unfold valid. split.
  - destruct (engine_of w this) as [e|] eqn:E; [|done].
    apply engine_of_owns in E as [l Hl]. intros H. by exists l, e.
  - intros (l & e & Ho & Hwf). assert (engine_of w this = Some e) as ->; [|done].
    apply engine_of_owns. by exists l.
Qed.

(** The world a call on the engine at [l] leaves: only that engine differs. *)
Lemma with_engine_owns {A} w this l e (f : mt19937.state -> option (A * mt19937.state)) :
  owns w this l e ->
  with_engine this f w =
    match f e with
    | Some (a, e') => Returns a (set_heap (<[l := e']> (heap w)) w)
    | None => Unfinished
    end.
Proof. intros [Ho Hh]. unfold with_engine. by rewrite Ho, Hh. Qed.

Lemma owns_set_heap w this l e e' :
  owns w this l e -> owns (set_heap (<[l := e']> (heap w)) w) this l e'.
Proof.
  intros [Ho Hh]. split; [done|]. cbn [set_heap heap]. apply lookup_insert_eq.
Qed.

Section sampling_facts.
Context {real : Type} {FP : Floating real}.

(** A sampling call on the class is the same call on the engine it owns. *)
Lemma do_call_owns fuel w this l e c :
  owns w this l e ->
  do_call fuel this c w =
    match engine_call fuel c e with
    | Some (v, e') => Returns v (set_heap (<[l := e']> (heap w)) w)
    | None => Unfinished
    end.
Proof.
  intros Ho. destruct c as [T lo hi|T lo hi| |mean sigma]; cbn [do_call engine_call].
  - unfold uniform_int. rewrite (with_engine_owns w this l e) by done.
    destruct (uniform_int_distribution.operator_call _ _ _ _ _) as [[v e']|]; done.
  - unfold uniform_real. rewrite (with_engine_owns w this l e) by done.
    destruct (uniform_real_distribution _ _ _ _) as [x e']; done.
  - unfold uniform_probability. rewrite (with_engine_owns w this l e) by done.
    destruct (uniform_real_distribution _ _ _ _) as [x e']; done.
  - unfold normal_real. rewrite (with_engine_owns w this l e) by done.
    destruct (normal_distribution_call _ _ _ _) as [[[x d] e']|]; done.
Qed.

Lemma run_owns fuel this l cs : forall w e,
  owns w this l e ->
  run fuel this cs w =
    match engine_run fuel cs e with
    | Some (vs, e') => Returns vs (set_heap (<[l := e']> (heap w)) w)
    | None => Unfinished
    end.
Proof.
  induction cs as [|c cs IH]; intros w e Ho; cbn [run engine_run].
  - f_equal. destruct w as [h o s d], Ho as [_ Hh]. unfold set_heap. cbn in *.
    f_equal. symmetry. by apply insert_id.
  - rewrite (do_call_owns fuel w this l e) by done.
    destruct (engine_call fuel c e) as [[v e1]|]; [|done]. cbn [and_then mbind option_bind].
    rewrite (IH _ e1) by (by eapply owns_set_heap).
    destruct (engine_run fuel cs e1) as [[vs e2]|]; [|done]. cbn [and_then mbind option_bind].
    f_equal. unfold set_heap. cbn. f_equal. apply insert_insert_eq.
Qed.

(** What a generator produces is determined by the state of its engine. *)
Lemma run_engine_of fuel this cs w e :
  engine_of w this = Some e ->
  result_of (run fuel this cs w) = engine_result (engine_run fuel cs e).
Proof.
  intros [l Ho]%engine_of_owns. rewrite (run_owns fuel this l cs w e) by done.
  by destruct (engine_run fuel cs e) as [[vs e']|].
Qed.
End sampling_facts.

(** * Construction, move, swap, destruction *)

Lemma operator_new_spec w n :
  free_store w = S n ->
  let l := fresh (dom (heap w)) in
  heap w !! l = None /\
  operator_new w =
    Returns l {| heap := <[l := mt19937.State (replicate mt19937.state_size 0) 0]> (heap w);
                 objects := objects w; free_store := n; entropy := entropy w |}.
Proof.
  intros Hs l. split.
  - apply not_elem_of_dom. apply is_fresh.
  - unfold operator_new. by rewrite Hs.
Qed.

Lemma new_engine_spec sd w n :
  free_store w = S n ->
  new_engine sd w =
    Returns (fresh (dom (heap w)))
      {| heap := <[fresh (dom (heap w)) := mt19937.construct (result_type sd)]> (heap w);
         objects := objects w; free_store := n; entropy := entropy w |}.
Proof.
  intros Hs. unfold new_engine.
  destruct (operator_new_spec w n Hs) as [Hl ->]. cbn [and_then heap].
  rewrite lookup_insert_eq. unfold set_heap. cbn [heap objects free_store entropy].
  f_equal. f_equal. by rewrite insert_insert_eq.
Qed.

Lemma RandomTwister_seed_spec this sd w :
  objects w !! this = None ->
  match free_store w with
  | O => RandomTwister_seed this sd w = Throws bad_alloc w
  | S n => RandomTwister_seed this sd w = Returns tt (constructed this sd n w)
  end.
Proof.
  intros Hnone. unfold RandomTwister_seed. rewrite Hnone.
  destruct (free_store w) as [|n] eqn:Hs.
  - unfold new_engine, operator_new. by rewrite Hs.
  - by rewrite (new_engine_spec sd w n Hs).
Qed.

Lemma constructed_owns this sd n w :
  owns (constructed this sd n w) this (fresh (dom (heap w)))
    (mt19937.construct (result_type sd)).
Proof. split; cbn [constructed objects heap]; apply lookup_insert_eq. Qed.

Lemma RandomTwister_seed_returns this sd w w' :
  RandomTwister_seed this sd w = Returns tt w' ->
  exists l, owns w' this l (mt19937.construct (result_type sd)).
Proof.
  unfold RandomTwister_seed. destruct (objects w !! this) eqn:Ho; [done|].
  destruct (free_store w) as [|n] eqn:Hs.
  - unfold new_engine, operator_new. by rewrite Hs.
  - rewrite (new_engine_spec sd w n Hs). cbn [and_then]. intros [= <-].
    eexists. split; cbn [set_objects objects heap]; apply lookup_insert_eq.
Qed.


(** [seed] on a valid generator leaves the engine a new generator has. *)
Lemma seed_spec this sd w l e :
  owns w this l e -> mt19937.wf e = true ->
  seed this sd w
  = Returns tt (set_heap (<[l := mt19937.construct (result_type sd)]> (heap w)) w).
Proof.
  intros Ho Hwf. unfold seed. rewrite (with_engine_owns w this l e) by done.
  by rewrite (seed_construct _ e).
Qed.

Lemma RandomTwister_eta (r : RandomTwister) : {| engine := engine r |} = r.
Proof. by destruct r. Qed.

Lemma RandomTwister_move_spec this other w r :
  objects w !! this = None -> objects w !! other = Some r ->
  RandomTwister_move this other w =
    Returns tt (set_objects (<[this := r]> (<[other := {| engine := None |}]> (objects w))) w).
Proof.
  intros Ht Ho. unfold RandomTwister_move. rewrite Ht, Ho. by rewrite RandomTwister_eta.
Qed.

Lemma swap_spec this other w a b :
  objects w !! this = Some a -> objects w !! other = Some b ->
  swap this other w =
    Returns tt (set_objects (<[other := a]> (<[this := b]> (objects w))) w).
Proof.
  intros Ht Ho. unfold swap. rewrite Ht, Ho. by rewrite !RandomTwister_eta.
Qed.

Lemma fresh_name_None (o : gmap name RandomTwister) : o !! fresh (dom o) = None.
Proof. apply not_elem_of_dom. apply is_fresh. Qed.

Lemma fresh_name_ne (o : gmap name RandomTwister) this r :
  o !! this = Some r -> this ≠ fresh (dom o).
Proof. intros H ->. by rewrite fresh_name_None in H. Qed.

(** Self-assignment leaves the world as it is. *)
Lemma operator_assign_self this w r :
  objects w !! this = Some r -> operator_assign this this w = Returns tt w.
Proof.
  intros Hr. unfold operator_assign. set (temp := fresh (dom (objects w))).
  assert (Hne : this ≠ temp) by (by eapply fresh_name_ne).
  rewrite (RandomTwister_move_spec temp this w r) by (done || apply fresh_name_None).
  cbn [and_then].
  erewrite swap_spec; cycle 1.
  { cbn [set_objects objects]. apply lookup_insert_eq. }
  { cbn [set_objects objects]. rewrite lookup_insert_ne by done. apply lookup_insert_eq. }
  cbn [and_then]. unfold RandomTwister_destroy. cbn [set_objects objects heap free_store entropy].
  rewrite lookup_insert_ne by done. rewrite lookup_insert_eq.
  cbn [engine operator_delete and_then set_objects objects heap free_store entropy].
  destruct w as [h o s d]. cbn [objects] in *. f_equal.
  unfold set_objects. cbn [heap objects free_store entropy]. f_equal.
  apply map_eq. intros i. destruct (decide (i = temp)) as [->|Hi].
  - rewrite lookup_delete_eq. symmetry. apply fresh_name_None.
  - rewrite lookup_delete_ne by done.
    destruct (decide (i = this)) as [->|Hi'].
    + by rewrite lookup_insert_eq.
    + by rewrite !lookup_insert_ne.
Qed.

(** Assignment from another object: the target owns the source's engine, its
    own engine is deleted. *)
Lemma operator_assign_owns this other w l e :
  unique_owner w -> this ≠ other ->
  is_Some (objects w !! this) -> owns w other l e ->
  exists w', operator_assign this other w = Returns tt w' /\ owns w' this l e.
Proof.
  intros Hu Hne [rt Ht] [Ho Hh]. unfold operator_assign.
  set (temp := fresh (dom (objects w))).
  assert (Hnt : this ≠ temp) by (by eapply fresh_name_ne).
  assert (Hno : other ≠ temp) by (by eapply fresh_name_ne).
  rewrite (RandomTwister_move_spec temp other w _) by (done || apply fresh_name_None).
  cbn [and_then].
  erewrite swap_spec; cycle 1.
  { cbn [set_objects objects]. apply lookup_insert_eq. }
  { cbn [set_objects objects]. rewrite !lookup_insert_ne by done. exact Ht. }
  cbn [and_then]. unfold RandomTwister_destroy. cbn [set_objects objects heap free_store entropy].
  rewrite lookup_insert_ne by done. rewrite lookup_insert_eq.
  pose proof (Hu this rt Ht) as Hthis.
  destruct rt as [[ld|]]; cbn [engine] in *.
  - destruct Hthis as [[ed Hd] Huniq].
    assert (Hll : ld ≠ l).
    { intros ->. apply Hne. by apply (Huniq other _ Ho). }
    cbn [operator_delete set_objects heap objects free_store entropy]. rewrite Hd.
    cbn [and_then].
    eexists. split; [done|]. split; cbn [set_objects objects heap].
    + rewrite lookup_delete_ne by done. apply lookup_insert_eq.
    + by rewrite lookup_delete_ne.
  - cbn [operator_delete and_then set_objects heap objects free_store entropy].
    eexists. split; [done|].
    split; cbn [set_objects objects heap]; [|done].
    rewrite lookup_delete_ne by done. apply lookup_insert_eq.
Qed.

Section claims.
Context {real : Type} {FP : Floating real}.

(** C1. Two generators constructed with the same seed, in whatever worlds
    and under whatever names, answer the same sequence of sampling calls
    with the same sequence of samples. *)
Theorem seeded_generators_agree (S : Z) (a b : name) (w1 w1' w2 w2' : World)
    (fuel : nat) (cs : list (call real)) :
  RandomTwister_seed a S w1 = Returns tt w1' ->
  RandomTwister_seed b S w2 = Returns tt w2' ->
  result_of (run fuel a cs w1') = result_of (run fuel b cs w2').
Proof.
  intros [la Ha]%RandomTwister_seed_returns [lb Hb]%RandomTwister_seed_returns.
  rewrite (run_engine_of fuel a cs w1' (mt19937.construct (result_type S)))
    by (apply engine_of_owns; eauto).
  rewrite (run_engine_of fuel b cs w2' (mt19937.construct (result_type S)))
    by (apply engine_of_owns; eauto).
  done.
Qed.

(** C4. [seed(X)] on a valid generator, whatever it has produced so far,
    makes it answer every later sequence of sampling calls as a generator
    newly constructed with seed [X] does. *)
Theorem reseeding_restarts (X : Z) (a b : name) (w wb wb' : World)
    (fuel : nat) (cs : list (call real)) :
  valid w a = true ->
  RandomTwister_seed b X wb = Returns tt wb' ->
  exists w', seed a X w = Returns tt w'
    /\ result_of (run fuel a cs w') = result_of (run fuel b cs wb').
Proof.
  intros (l & e & Ho & Hwf)%valid_owns [lb Hb]%RandomTwister_seed_returns.
  eexists. split; [by apply (seed_spec a X w l e)|].
  rewrite (run_engine_of fuel a cs _ (mt19937.construct (result_type X)))
    by (apply engine_of_owns; exists l; by eapply owns_set_heap).
  rewrite (run_engine_of fuel b cs wb' (mt19937.construct (result_type X)))
    by (apply engine_of_owns; eauto).
  done.
Qed.

(** C5. After [RandomTwister fresh(std::move(src))], and after
    [dst = std::move(src)], the destination answers every sequence of
    sampling calls as the source would have, had it not been moved from. *)
Theorem move_hands_over_the_sequence (src fresh dst : name) (w : World) :
  valid w src = true -> unique_owner w ->
  objects w !! fresh = None -> is_Some (objects w !! dst) ->
  (exists w', RandomTwister_move fresh src w = Returns tt w'
     /\ forall fuel cs,
          result_of (run fuel fresh cs w') = result_of (run fuel src cs w))
  /\ (exists w', operator_assign dst src w = Returns tt w'
     /\ forall fuel cs,
          result_of (run fuel dst cs w') = result_of (run fuel src cs w)).
Proof.
  intros (l & e & Ho & Hwf)%valid_owns Hu Hf Hd.
  assert (Hsrc : forall fuel cs,
            result_of (run fuel src cs w) = engine_result (engine_run fuel cs e)).
  { intros. apply run_engine_of, engine_of_owns. eauto. }
  split.
  - destruct Ho as [Ho Hh].
    rewrite (RandomTwister_move_spec fresh src w _ Hf Ho).
    eexists. split; [done|]. intros fuel cs. rewrite Hsrc.
    apply run_engine_of, engine_of_owns. exists l.
    split; cbn [set_objects objects heap]; [apply lookup_insert_eq|done].
  - destruct (decide (dst = src)) as [->|Hne].
    + destruct Ho as [Ho Hh]. rewrite (operator_assign_self src w _ Ho). eauto.
    + destruct (operator_assign_owns dst src w l e Hu Hne Hd Ho) as (w' & -> & Ho').
      eexists. split; [done|]. intros fuel cs. rewrite Hsrc.
      apply run_engine_of, engine_of_owns. eauto.
Qed.

(** C6. [uniform_probability()] is [uniform_real<double>(0.0, 1.0)]: the
    same value and the same world, from every world. *)
Theorem uniform_probability_is_uniform_real (this : name) (w : World) :
  uniform_probability this w = uniform_probability_spec this w.
Proof. reflexivity. Qed.

(** C8. A sampling call that returns has changed the engine of the
    generator it was called on and nothing else: the objects, the free
    store's reserve, the random device and every other engine are as they
    were. *)
Theorem sampling_changes_one_engine (fuel : nat) (this : name) (c : call real)
    (w w' : World) (v : sample real) :
  valid w this = true ->
  do_call fuel this c w = Returns v w' ->
  objects w' = objects w /\ free_store w' = free_store w /\ entropy w' = entropy w
  /\ exists l, objects w !! this = Some {| engine := Some l |}
       /\ forall l', l' ≠ l -> heap w' !! l' = heap w !! l'.
Proof.
  intros (l & e & Ho & Hwf)%valid_owns. rewrite (do_call_owns fuel w this l e c Ho).
  destruct (engine_call fuel c e) as [[v' e']|]; [|done]. intros [= _ <-].
  split_and!; [done..|]. exists l. split; [apply Ho|].
  intros l' Hl'. cbn [set_heap heap]. by rewrite lookup_insert_ne.
Qed.
End claims.

Lemma result_type_mod S1 S2 :
  S1 mod 2 ^ 32 = S2 mod 2 ^ 32 ->
  result_type S1 mod 2 ^ mt19937.word_size = result_type S2 mod 2 ^ mt19937.word_size.
Proof.
  intros H. unfold result_type, mt19937.wrap.
  change (2 ^ mt19937.digits) with (2 ^ 32 * 2 ^ 32).
  change (2 ^ mt19937.word_size) with (2 ^ 32).
  rewrite !Z.mod_mod_divide by (by exists (2 ^ 32)). done.
Qed.

Lemma seed_result_type S1 S2 e :
  S1 mod 2 ^ 32 = S2 mod 2 ^ 32 ->
  mt19937.seed (result_type S1) e = mt19937.seed (result_type S2) e.
Proof.
  intros H. unfold mt19937.seed. rewrite (result_type_mod S1 S2 H). reflexivity.
Qed.

(** C9. Seeds that agree modulo 2^32 give the same generator: constructing
    with either, or reseeding with either, ends in the same world, so every
    later sample is the same as well. *)
Theorem seed_counts_modulo_2_32 (S1 S2 : Z) (this : name) (w : World) :
  S1 mod 2 ^ 32 = S2 mod 2 ^ 32 ->
  RandomTwister_seed this S1 w = RandomTwister_seed this S2 w
  /\ seed this S1 w = seed this S2 w.
Proof.
  intros H. split.
  - unfold RandomTwister_seed, new_engine, mt19937.seed.
    rewrite (result_type_mod S1 S2 H). reflexivity.
  - unfold seed, mt19937.seed. rewrite (result_type_mod S1 S2 H). reflexivity.
Qed.

(** C10. [a = std::move(a)] on a valid generator returns and leaves the
    world as it was: [a] is still valid, its engine is in the same state. *)
Theorem self_move_assignment_is_identity (this : name) (w : World) :
  valid w this = true ->
  operator_assign this this w = Returns tt w.
Proof.
  intros (l & e & [Ho Hh] & Hwf)%valid_owns. by eapply operator_assign_self.
Qed.

Lemma World_eta w :
  {| heap := heap w; objects := objects w; free_store := free_store w;
     entropy := entropy w |} = w.
Proof. by destruct w. Qed.



(** * Witnesses *)

Import Example.

Lemma seeded_generators_agree_witness :
  RandomTwister_seed a 42 w0 = Returns tt w1
  /\ RandomTwister_seed b 42 v0 = Returns tt v1
  /\ result_of (run 8 a three w1) = result_of (run 8 b three v1).
Proof.
  assert (H1 : RandomTwister_seed a 42 w0 = Returns tt w1) by (vm_compute; reflexivity).
  assert (H2 : RandomTwister_seed b 42 v0 = Returns tt v1) by (vm_compute; reflexivity).
  split_and!; [exact H1|exact H2|].
  exact (seeded_generators_agree (FP := IEEE.floating) 42 a b w0 w1 v0 v1 8 three H1 H2).
Defined.

Lemma reseeding_restarts_witness :
  valid w2 a = true
  /\ RandomTwister_seed b 42 v0 = Returns tt v1
  /\ exists w', seed a 42 w2 = Returns tt w'
       /\ result_of (run 8 a three w') = result_of (run 8 b three v1).
Proof.
  assert (H1 : valid w2 a = true) by (vm_compute; reflexivity).
  assert (H2 : RandomTwister_seed b 42 v0 = Returns tt v1) by (vm_compute; reflexivity).
  split_and!; [exact H1|exact H2|].
  exact (reseeding_restarts (FP := IEEE.floating) 42 a b w2 v0 v1 8 three H1 H2).
Defined.

Lemma move_hands_over_the_sequence_witness :
  valid w3 a = true /\ unique_owner w3
  /\ objects w3 !! 3%positive = None /\ is_Some (objects w3 !! b)
  /\ (exists w', RandomTwister_move 3%positive a w3 = Returns tt w'
       /\ forall fuel cs,
            result_of (run fuel 3%positive cs w') = result_of (run fuel a cs w3))
  /\ (exists w', operator_assign b a w3 = Returns tt w'
       /\ forall fuel cs,
            result_of (run fuel b cs w') = result_of (run fuel a cs w3)).
Proof.
  assert (H1 : valid w3 a = true) by (vm_compute; reflexivity).
  assert (H2 : unique_owner w3) by (apply (@bool_decide_unpack _ (unique_owner_dec w3)); vm_compute; exact I).
  assert (H3 : objects w3 !! 3%positive = None) by (vm_compute; reflexivity).
  assert (H4 : is_Some (objects w3 !! b)) by (eexists; vm_compute; reflexivity).
  split_and!; [exact H1|exact H2|exact H3|exact H4|..];
    apply (move_hands_over_the_sequence (FP := IEEE.floating) a 3%positive b w3 H1 H2 H3 H4).
Defined.

Lemma sampling_changes_one_engine_witness :
  valid w1 a = true
  /\ do_call 8 a (call_uniform_int Int 1 100) w1
     = Returns (sample_int 38) (world_of (uniform_int 8 Int a 1 100 w1) w1)
  /\ objects (world_of (uniform_int 8 Int a 1 100 w1) w1) = objects w1
  /\ free_store (world_of (uniform_int 8 Int a 1 100 w1) w1) = free_store w1
  /\ entropy (world_of (uniform_int 8 Int a 1 100 w1) w1) = entropy w1
  /\ exists l, objects w1 !! a = Some {| engine := Some l |}
       /\ forall l', l' ≠ l ->
            heap (world_of (uniform_int 8 Int a 1 100 w1) w1) !! l' = heap w1 !! l'.
Proof.
  assert (H1 : valid w1 a = true) by (vm_compute; reflexivity).
  assert (H2 : do_call (FP := IEEE.floating) 8 a (call_uniform_int Int 1 100) w1
               = Returns (sample_int 38) (world_of (uniform_int 8 Int a 1 100 w1) w1))
    by (vm_compute; reflexivity).
  split_and!; [exact H1|exact H2|..];
    apply (sampling_changes_one_engine (FP := IEEE.floating) 8 a _ w1 _ _ H1 H2).
Defined.

Lemma seed_counts_modulo_2_32_witness :
  42 mod 2 ^ 32 = (42 + 2 ^ 32) mod 2 ^ 32
  /\ RandomTwister_seed a 42 w0 = RandomTwister_seed a (42 + 2 ^ 32) w0
  /\ seed a 42 w1 = seed a (42 + 2 ^ 32) w1.
Proof.
  assert (H : 42 mod 2 ^ 32 = (42 + 2 ^ 32) mod 2 ^ 32) by reflexivity.
  split_and!; [exact H|..].
  - apply (seed_counts_modulo_2_32 42 (42 + 2 ^ 32) a w0 H).
  - apply (seed_counts_modulo_2_32 42 (42 + 2 ^ 32) a w1 H).
Defined.

Lemma self_move_assignment_is_identity_witness :
  valid w2 a = true /\ operator_assign a a w2 = Returns tt w2.
Proof.
  assert (H1 : valid w2 a = true) by (vm_compute; reflexivity).
  split; [exact H1|]. exact (self_move_assignment_is_identity a w2 H1).
Defined.

(** * Numbers of a binary format: lemmas *)

Import Binary.

(** * Binary floating point: digits, shifts, rounding *)

Lemma pow2_succ d : 0 < d -> 2 ^ d = 2 * 2 ^ (d - 1).
Proof. intros. rewrite <- Z.pow_succ_r by lia. f_equal. lia. Qed.

Lemma digits2_pos_bounds (m : positive) :
  2 ^ (Zpos (digits2_pos m) - 1) <= Zpos m < 2 ^ Zpos (digits2_pos m).
Proof.
  induction m as [m IH|m IH|]; cbn [digits2_pos]; [| |cbn; lia].
  all: rewrite Pos2Z.inj_succ;
    replace (Z.succ (Zpos (digits2_pos m)) - 1) with (Zpos (digits2_pos m)) by lia;
    rewrite Z.pow_succ_r by lia;
    revert IH; generalize (Zpos (digits2_pos m)) (Pos2Z.is_pos (digits2_pos m));
    intros d Hd; rewrite (pow2_succ d Hd); lia.
Qed.

Lemma Zdigits2_nonneg M : 0 <= Zdigits2 M.
Proof. destruct M; cbn; lia. Qed.

Lemma Zdigits2_bounds M :
  0 < M -> 2 ^ (Zdigits2 M - 1) <= M < 2 ^ Zdigits2 M.
Proof. destruct M as [|m|m]; [lia| |lia]. intros _. apply digits2_pos_bounds. Qed.

Lemma pow2_lt_inv a b : 0 <= b -> 2 ^ a < 2 ^ b -> a < b.
Proof.
  intros Hb H. destruct (Z_lt_le_dec a b) as [|Hge]; [done|].
  assert (2 ^ b <= 2 ^ a) by (apply Z.pow_le_mono_r; lia). lia.
Qed.

Lemma Zdigits2_unique M d :
  0 < M -> 2 ^ (d - 1) <= M < 2 ^ d -> Zdigits2 M = d.
Proof.
  intros HM [H1 H2]. pose proof (Zdigits2_bounds M HM) as [B1 B2].
  pose proof (Zdigits2_nonneg M) as Hn.
  assert (Hd : 0 < d).
  { destruct (Z_lt_le_dec 0 d) as [|Hle]; [done|].
    rewrite (Z.pow_neg_r 2 d) in H2 by (destruct (Z.eq_dec d 0); [subst; cbn in *|]; lia). lia. }
  assert (Zdigits2 M - 1 < d) by (apply pow2_lt_inv; lia).
  assert (0 < Zdigits2 M).
  { destruct (Z.eq_dec (Zdigits2 M) 0) as [E|]; [|lia]. rewrite E in B2. cbn in B2. lia. }
  assert (d - 1 < Zdigits2 M) by (apply pow2_lt_inv; lia).
  lia.
Qed.

(** ** Shifting right with a round bit and a sticky bit *)

Lemma iter_pos_nat {A} (f : A -> A) p : forall x,
  SpecFloat.iter_pos f p x = Nat.iter (Pos.to_nat p) f x.
Proof.
  induction p as [p IH|p IH|]; intros x; cbn [SpecFloat.iter_pos].
  - rewrite !IH, Pos2Nat.inj_xI, <- Nat.iter_add, Nat.iter_swap.
    replace (S (2 * Pos.to_nat p)) with (S (Pos.to_nat p + Pos.to_nat p)) by lia. done.
  - rewrite !IH, Pos2Nat.inj_xO, <- Nat.iter_add. f_equal. lia.
  - done.
Qed.

Lemma shr_1_spec m r s :
  0 <= m -> shr_1 (Build_shr_record m r s) = Build_shr_record (m / 2) (Z.odd m) (r || s).
Proof.
  intros Hm. destruct m as [|[p|p|]|p]; try lia; cbn [shr_1 Z.odd]; try done.
  - f_equal. rewrite Pos2Z.inj_xI. apply Z.div_unique with 1; lia.
  - f_equal. rewrite Pos2Z.inj_xO. apply Z.div_unique with 0; lia.
Qed.

(** [k + 1] shifts of an exact record. *)
Lemma shr_iter_spec M k :
  0 <= M ->
  Nat.iter (S k) shr_1 (Build_shr_record M false false)
  = Build_shr_record (M / 2 ^ Z.of_nat (S k)) (Z.odd (M / 2 ^ Z.of_nat k))
      (negb (M mod 2 ^ Z.of_nat k =? 0)).
Proof.
  intros HM. induction k as [|k IH].
  - cbn [Nat.iter]. rewrite shr_1_spec by done. cbn [Z.of_nat].
    change (2 ^ 0) with 1. change (2 ^ Z.pos 1) with 2.
    rewrite Z.div_1_r, Z.mod_1_r. done.
  - rewrite Nat.iter_succ, IH. rewrite shr_1_spec by (apply Z.div_pos; lia).
    rewrite !Nat2Z.inj_succ. rewrite !Z.pow_succ_r by lia.
    assert (Hp : 0 < 2 ^ Z.of_nat k) by (apply Z.pow_pos_nonneg; lia).
    f_equal.
    + rewrite Z.div_div by lia. f_equal. lia.
    + rewrite (Z.mul_comm 2), Z.rem_mul_r by lia.
      rewrite Zodd_mod.
      destruct (Z.eqb_spec (M mod 2 ^ Z.of_nat k) 0) as [E0|E0];
        destruct (Z.eqb_spec ((M / 2 ^ Z.of_nat k) mod 2) 1) as [E1|E1]; cbn.
      * symmetry. apply negb_true_iff, Z.eqb_neq. lia.
      * symmetry. apply negb_false_iff, Z.eqb_eq.
        pose proof (Z.mod_pos_bound (M / 2 ^ Z.of_nat k) 2). lia.
      * symmetry. apply negb_true_iff, Z.eqb_neq.
        pose proof (Z.mod_pos_bound M (2 ^ Z.of_nat k)). lia.
      * symmetry. apply negb_true_iff, Z.eqb_neq.
        pose proof (Z.mod_pos_bound M (2 ^ Z.of_nat k)).
        pose proof (Z.mod_pos_bound (M / 2 ^ Z.of_nat k) 2). lia.
Qed.

(** The mantissa after any number of shifts, whatever the record's bits. *)
Lemma shr_iter_m mrs k :
  0 <= shr_m mrs ->
  shr_m (Nat.iter k shr_1 mrs) = shr_m mrs / 2 ^ Z.of_nat k.
Proof.
  intros HM. induction k as [|k IH].
  - cbn. by rewrite Z.div_1_r.
  - rewrite Nat.iter_succ. destruct (Nat.iter k shr_1 mrs) as [m r s]. cbn [shr_m] in IH.
    assert (Hp : 0 < 2 ^ Z.of_nat k) by (apply Z.pow_pos_nonneg; lia).
    rewrite shr_1_spec by (rewrite IH; apply Z.div_pos; done).
    cbn [shr_m]. rewrite IH, Nat2Z.inj_succ, Z.pow_succ_r by lia.
    rewrite Z.div_div by lia. f_equal; lia.
Qed.

(** ** Rounding an integer quotient to nearest, ties to even *)

Lemma rne_bounds M n : 0 <= n -> M / 2 ^ n <= rne M n <= M / 2 ^ n + 1.
Proof. intros. unfold rne. destruct (_ ?= _); [destruct (Z.even _)| |]; lia. Qed.

Lemma rne_le M n K : 0 <= n -> M <= K * 2 ^ n -> rne M n <= K.
Proof.
  intros Hn H. assert (Hp : 0 < 2 ^ n) by (apply Z.pow_pos_nonneg; lia).
  pose proof (Z.div_mod M (2 ^ n) ltac:(lia)) as E.
  pose proof (Z.mod_pos_bound M (2 ^ n) Hp) as B.
  unfold rne. destruct (Z.compare_spec (2 * (M mod 2 ^ n)) (2 ^ n));
    [destruct (Z.even _)| |]; nia.
Qed.

Lemma rne_ge M n K : 0 <= n -> K * 2 ^ n <= M -> K <= rne M n.
Proof.
  intros Hn H. assert (Hp : 0 < 2 ^ n) by (apply Z.pow_pos_nonneg; lia).
  pose proof (rne_bounds M n Hn).
  assert (K <= M / 2 ^ n) by (apply Z.div_le_lower_bound; lia). lia.
Qed.

(** Strictly below the middle of [K] and [K + 1]: not above [K]. *)
Lemma rne_below_middle M n K :
  0 <= n -> 2 * M < (2 * K + 1) * 2 ^ n -> rne M n <= K.
Proof.
  intros Hn H. assert (Hp : 0 < 2 ^ n) by (apply Z.pow_pos_nonneg; lia).
  pose proof (Z.div_mod M (2 ^ n) ltac:(lia)) as E.
  pose proof (Z.mod_pos_bound M (2 ^ n) Hp) as B.
  unfold rne. destruct (Z.compare_spec (2 * (M mod 2 ^ n)) (2 ^ n));
    [destruct (Z.even _)| |]; nia.
Qed.

(** The library's rounding of the record that [n > 0] shifts of an exact
    record leave is [rne]. *)
Lemma round_shr M n :
  0 <= M ->
  let mrs := SpecFloat.iter_pos shr_1 n (Build_shr_record M false false) in
  round_nearest_even (shr_m mrs) (loc_of_shr_record mrs) = rne M (Zpos n).
Proof.
  intros HM. cbv zeta. rewrite iter_pos_nat.
  destruct (Pos2Nat.is_succ n) as [k Hk]. rewrite Hk, shr_iter_spec by done.
  assert (En : Zpos n = Z.of_nat (S k)) by lia. rewrite En.
  cbn [shr_m loc_of_shr_record]. rewrite Nat2Z.inj_succ.
  assert (Hp : 0 < 2 ^ Z.of_nat k) by (apply Z.pow_pos_nonneg; lia).
  unfold rne. rewrite Z.pow_succ_r by lia.
  rewrite (Z.mul_comm 2 (2 ^ _)), Z.rem_mul_r by lia.
  pose proof (Z.mod_pos_bound M (2 ^ Z.of_nat k) Hp) as B.
  pose proof (Z.mod_pos_bound (M / 2 ^ Z.of_nat k) 2 ltac:(lia)) as B2.
  rewrite Zodd_mod.
  destruct (Z.eqb_spec ((M / 2 ^ Z.of_nat k) mod 2) 1) as [E1|E1];
    destruct (Z.eqb_spec (M mod 2 ^ Z.of_nat k) 0) as [E0|E0]; cbn [negb round_nearest_even].
  - rewrite E1, E0. replace (2 * (0 + 2 ^ Z.of_nat k * 1)) with (2 ^ Z.of_nat k * 2) by lia.
    by rewrite Z.compare_refl.
  - assert (C : (2 * (M mod 2 ^ Z.of_nat k + 2 ^ Z.of_nat k * ((M / 2 ^ Z.of_nat k) mod 2))
               ?= 2 ^ Z.of_nat k * 2) = Gt) by (apply Z.compare_gt_iff; lia).
    by rewrite C.
  - assert (C : (2 * (M mod 2 ^ Z.of_nat k + 2 ^ Z.of_nat k * ((M / 2 ^ Z.of_nat k) mod 2))
               ?= 2 ^ Z.of_nat k * 2) = Lt) by (apply Z.compare_lt_iff; nia).
    by rewrite C.
  - assert (C : (2 * (M mod 2 ^ Z.of_nat k + 2 ^ Z.of_nat k * ((M / 2 ^ Z.of_nat k) mod 2))
               ?= 2 ^ Z.of_nat k * 2) = Lt) by (apply Z.compare_lt_iff; nia).
    by rewrite C.
Qed.

Lemma pow2_pos n : 0 <= n -> 0 < 2 ^ n.
Proof. intros. apply Z.pow_pos_nonneg; lia. Qed.

Lemma pow2_split a b : 0 <= a -> 0 <= b -> 2 ^ (a + b) = 2 ^ a * 2 ^ b.
Proof. intros. apply Z.pow_add_r; lia. Qed.

Lemma pow2_le a b : a <= b -> 2 ^ a <= 2 ^ b.
Proof.
  intros. destruct (Z.le_gt_cases 0 a).
  - apply Z.pow_le_mono_r; lia.
  - rewrite (Z.pow_neg_r 2 a) by lia. apply Z.pow_nonneg. lia.
Qed.

Lemma Zdigits2_div M n :
  0 < M -> 0 <= n < Zdigits2 M -> Zdigits2 (M / 2 ^ n) = Zdigits2 M - n.
Proof.
  intros HM Hn. pose proof (Zdigits2_bounds M HM) as [B1 B2].
  pose proof (pow2_pos n ltac:(lia)) as Hp.
  assert (E1 : 2 ^ (Zdigits2 M - 1) = 2 ^ n * 2 ^ (Zdigits2 M - n - 1))
    by (rewrite <- pow2_split by lia; f_equal; lia).
  assert (E2 : 2 ^ Zdigits2 M = 2 ^ n * 2 ^ (Zdigits2 M - n))
    by (rewrite <- pow2_split by lia; f_equal; lia).
  assert (L : 2 ^ (Zdigits2 M - n - 1) <= M / 2 ^ n)
    by (apply Z.div_le_lower_bound; lia).
  assert (U : M / 2 ^ n < 2 ^ (Zdigits2 M - n))
    by (apply Z.div_lt_upper_bound; lia).
  pose proof (pow2_pos (Zdigits2 M - n - 1) ltac:(lia)).
  apply Zdigits2_unique; [lia|]. by split.
Qed.

Lemma Zdigits2_div_small M n : 0 <= M -> Zdigits2 M <= n -> M / 2 ^ n = 0.
Proof.
  intros HM Hn. destruct (Z.eq_dec M 0) as [->|]; [apply Z.div_0_l; pose proof (pow2_pos n); pose proof (Zdigits2_nonneg 0); lia|].
  pose proof (Zdigits2_bounds M ltac:(lia)) as [B1 B2].
  pose proof (pow2_le _ _ Hn). apply Z.div_small. lia.
Qed.

Lemma Zdigits2_ge M k : 0 < M -> 2 ^ (k - 1) <= M -> k <= Zdigits2 M.
Proof.
  intros HM H. pose proof (Zdigits2_bounds M HM) as [B1 B2].
  pose proof (Zdigits2_nonneg M).
  assert (k - 1 < Zdigits2 M) by (apply pow2_lt_inv; lia). lia.
Qed.

Lemma Zdigits2_le M k : 0 <= M -> 0 <= k -> M < 2 ^ k -> Zdigits2 M <= k.
Proof.
  intros HM Hk H. destruct (Z.eq_dec M 0) as [->|]; [done|].
  pose proof (Zdigits2_bounds M ltac:(lia)) as [B1 B2].
  assert (Zdigits2 M - 1 < k) by (apply pow2_lt_inv; lia). lia.
Qed.

Lemma Zdigits2_mono a b : 0 <= a <= b -> Zdigits2 a <= Zdigits2 b.
Proof.
  intros H. destruct (Z.eq_dec b 0) as [->|]; [by replace a with 0 by lia|].
  pose proof (Zdigits2_bounds b ltac:(lia)) as [B1 B2].
  apply Zdigits2_le; [lia|apply Zdigits2_nonneg|lia].
Qed.

Lemma Zdigits2_pow2 k : 0 <= k -> Zdigits2 (2 ^ k) = k + 1.
Proof.
  intros. pose proof (pow2_pos k ltac:(lia)).
  apply Zdigits2_unique; [done|]. replace (k + 1 - 1) with k by lia.
  rewrite Z.pow_add_r by lia. lia.
Qed.

Lemma Zdigits2_mul_pow2 M k : 0 < M -> 0 <= k -> Zdigits2 (M * 2 ^ k) = Zdigits2 M + k.
Proof.
  intros HM Hk. pose proof (Zdigits2_bounds M HM) as [B1 B2].
  pose proof (pow2_pos k Hk). pose proof (Zdigits2_nonneg M).
  assert (0 < Zdigits2 M).
  { destruct (Z.eq_dec (Zdigits2 M) 0) as [E|]; [|lia]. rewrite E in B2. simpl in B2. lia. }
  apply Zdigits2_unique; [nia|].
  replace (Zdigits2 M + k - 1) with (Zdigits2 M - 1 + k) by lia.
  rewrite !Z.pow_add_r by lia. nia.
Qed.

Lemma pow2_half d : 0 < d -> 2 ^ d / 2 ^ 1 * 2 ^ 1 = 2 ^ d.
Proof.
  intros. rewrite (pow2_succ d) by done. change (2 ^ 1) with 2.
  rewrite (Z.mul_comm 2), Z.div_mul by lia. done.
Qed.

(** The successor has as many digits, or is the next power of two. *)
Lemma Zdigits2_succ m :
  0 <= m ->
  Zdigits2 (m + 1) = Zdigits2 m
  \/ (m + 1 = 2 ^ Zdigits2 m /\ Zdigits2 (m + 1) = Zdigits2 m + 1).
Proof.
  intros Hm. pose proof (Zdigits2_nonneg m) as Hd.
  destruct (Z.eq_dec m 0) as [->|Hne].
  - right. done.
  - pose proof (Zdigits2_bounds m ltac:(lia)) as [B1 B2].
    destruct (Z.eq_dec (m + 1) (2 ^ Zdigits2 m)) as [E|NE].
    + right. split; [done|]. rewrite E. by apply Zdigits2_pow2.
    + left. apply Zdigits2_unique; lia.
Qed.

(** ** Rounding to the format *)

Section format.
Variables prec emax : Z.
Hypothesis Hprec : 0 < prec.
Hypothesis Hemax : prec < emax.

Abbreviation emin := (SpecFloat.emin prec emax).
Abbreviation fexp := (SpecFloat.fexp prec emax).

Abbreviation can := (Binary.can prec emax).
Abbreviation pack := (Binary.pack prec emax).

Lemma fexp_mono a b : a <= b -> fexp a <= fexp b.
Proof. unfold SpecFloat.fexp. lia. Qed.

Lemma fexp_ge_emin a : emin <= fexp a.
Proof. unfold SpecFloat.fexp. lia. Qed.

Lemma emin_le_0 : emin <= 0.
Proof. unfold SpecFloat.emin. lia. Qed.

Lemma can_0 e : can 0 e <-> e = emin.
Proof. unfold can, SpecFloat.fexp. cbn [Zdigits2]. lia. Qed.

Lemma can_ge_emin m e : can m e -> emin <= e.
Proof. unfold can. intros <-. apply fexp_ge_emin. Qed.

Lemma can_digits m e : can m e -> Zdigits2 m <= prec.
Proof. unfold can, SpecFloat.fexp. lia. Qed.

Lemma can_cases m e :
  can m e <-> (Zdigits2 m = prec /\ emin <= e) \/ (Zdigits2 m <= prec /\ e = emin).
Proof. unfold can, SpecFloat.fexp. lia. Qed.

Lemma shr_m_of_loc m l : shr_m (shr_record_of_loc m l) = m.
Proof. by destruct l as [|[]]. Qed.

Lemma loc_of_shr_of_loc m l : loc_of_shr_record (shr_record_of_loc m l) = l.
Proof. by destruct l as [|[]]. Qed.

(** [shr_fexp] on a mantissa with digits to spare. *)
Lemma shr_fexp_spec M E l :
  0 <= M -> E <= fexp (Zdigits2 M + E) ->
  exists mrs,
    shr_fexp prec emax M E l = (mrs, fexp (Zdigits2 M + E))
    /\ shr_m mrs = M / 2 ^ (fexp (Zdigits2 M + E) - E)
    /\ (l = loc_Exact ->
        round_nearest_even (shr_m mrs) (loc_of_shr_record mrs)
        = rne M (fexp (Zdigits2 M + E) - E)).
Proof.
  intros HM Hc. unfold shr_fexp, shr.
  destruct (fexp (Zdigits2 M + E) - E) as [|n|n] eqn:En; [| |lia].
  - exists (shr_record_of_loc M l). replace (fexp (Zdigits2 M + E)) with E by lia.
    rewrite shr_m_of_loc, loc_of_shr_of_loc, Z.div_1_r. split_and!; [done..|].
    intros ->. unfold rne. by rewrite Z.div_1_r, Z.mod_1_r.
  - exists (SpecFloat.iter_pos shr_1 n (shr_record_of_loc M l)).
    split_and!.
    + f_equal. lia.
    + rewrite iter_pos_nat, shr_iter_m; rewrite shr_m_of_loc; [|done].
      by rewrite positive_nat_Z.
    + intros ->. by apply round_shr.
Qed.

(** What is left after the shift is in canonical position. *)
Lemma can_shr M E :
  0 <= M -> E <= fexp (Zdigits2 M + E) ->
  can (M / 2 ^ (fexp (Zdigits2 M + E) - E)) (fexp (Zdigits2 M + E)).
Proof.
  intros HM Hc. set (e1 := fexp (Zdigits2 M + E)) in *.
  pose proof (Zdigits2_nonneg M) as Hd.
  destruct (Z.lt_ge_cases (e1 - E) (Zdigits2 M)) as [Hlt|Hge].
  - assert (0 < M) by (destruct (Z.eq_dec M 0) as [->|]; [cbn in Hlt; lia|lia]).
    unfold can. rewrite Zdigits2_div by lia.
    replace (Zdigits2 M - (e1 - E) + e1) with (Zdigits2 M + E) by lia. done.
  - rewrite Zdigits2_div_small by lia. apply can_0.
    subst e1. unfold SpecFloat.fexp in *. lia.
Qed.

(** Rounding a canonical mantissa up by one and normalising again loses
    nothing. *)
Lemma shr_exact m m1 e :
  0 <= m -> can m e -> m1 = m \/ m1 = m + 1 ->
  e <= fexp (Zdigits2 m1 + e)
  /\ m1 / 2 ^ (fexp (Zdigits2 m1 + e) - e) * 2 ^ (fexp (Zdigits2 m1 + e) - e) = m1.
Proof.
  intros Hm Hc [->| ->].
  - rewrite Hc, Z.sub_diag, Z.div_1_r. lia.
  - destruct (Zdigits2_succ m Hm) as [->|[E ->]].
    + rewrite Hc, Z.sub_diag, Z.div_1_r. lia.
    + apply can_cases in Hc as [[Hd He]|[Hd He]].
      * assert (F : fexp (Zdigits2 m + 1 + e) - e = 1)
          by (unfold SpecFloat.fexp; lia).
        rewrite F. split; [lia|]. rewrite E. apply pow2_half. lia.
      * assert (F : fexp (Zdigits2 m + 1 + e) - e = 0 \/
                    (Zdigits2 m = prec /\ fexp (Zdigits2 m + 1 + e) - e = 1))
          by (unfold SpecFloat.fexp; lia).
        destruct F as [F|[Hp F]]; rewrite F.
        -- rewrite Z.div_1_r. lia.
        -- split; [lia|]. rewrite E. apply pow2_half. lia.
Qed.

(** [binary_round_aux]: the mantissa is shifted to the exponent of the
    format, rounded there, and shifted once more if the rounding carried. *)
Lemma binary_round_aux_spec s M E l :
  0 <= M -> E <= fexp (Zdigits2 M + E) ->
  exists m1 m2 e2,
    (m1 = M / 2 ^ (fexp (Zdigits2 M + E) - E)
     \/ m1 = M / 2 ^ (fexp (Zdigits2 M + E) - E) + 1)
    /\ (l = loc_Exact -> m1 = rne M (fexp (Zdigits2 M + E) - E))
    /\ 0 <= m2 /\ can m2 e2 /\ fexp (Zdigits2 M + E) <= e2
    /\ m2 * 2 ^ (e2 - fexp (Zdigits2 M + E)) = m1
    /\ binary_round_aux prec emax s M E l = pack s m2 e2.
Proof.
  intros HM Hc. set (e1 := fexp (Zdigits2 M + E)) in *.
  destruct (shr_fexp_spec M E l HM Hc) as (mrs & E1 & Hm & Hr). fold e1 in E1, Hm, Hr.
  set (q := M / 2 ^ (e1 - E)) in *.
  assert (Hq : 0 <= q) by (apply Z.div_pos; [done|apply pow2_pos; lia]).
  pose proof (can_shr M E HM Hc) as Hcq. fold e1 q in Hcq.
  set (m1 := round_nearest_even (shr_m mrs) (loc_of_shr_record mrs)).
  assert (H1 : m1 = q \/ m1 = q + 1).
  { subst m1. rewrite Hm. unfold round_nearest_even.
    destruct (loc_of_shr_record mrs) as [|[]]; try destruct (IntDef.Z.even q); auto. }
  destruct (shr_exact q m1 e1 Hq Hcq H1) as [Hc1 Hx].
  assert (Hm1 : 0 <= m1) by lia.
  destruct (shr_fexp_spec m1 e1 loc_Exact Hm1 Hc1) as (mrs2 & E2 & Hm2 & _).
  exists m1, (shr_m mrs2), (fexp (Zdigits2 m1 + e1)). split_and!.
  - done.
  - intros ->. subst m1. by apply Hr.
  - rewrite Hm2. apply Z.div_pos; [done|apply pow2_pos; lia].
  - rewrite Hm2. by apply can_shr.
  - done.
  - by rewrite Hm2.
  - unfold binary_round_aux. rewrite E1. fold m1. rewrite E2. done.
Qed.

End format.

(** * The real value of a binary float *)

Lemma bpow_pos e : (0 < bpow e)%R.
Proof. unfold bpow. apply powerRZ_lt. lra. Qed.

Lemma bpow_add a b : bpow (a + b) = (bpow a * bpow b)%R.
Proof. unfold bpow. apply powerRZ_add. lra. Qed.

Lemma bpow_IZR n : 0 <= n -> bpow n = IZR (2 ^ n).
Proof.
  intros Hn. unfold bpow. rewrite <- (Z2Nat.id n) by done.
  rewrite <- pow_powerRZ. rewrite <- pow_IZR. done.
Qed.

Lemma bpow_le a b : a <= b -> (bpow a <= bpow b)%R.
Proof.
  intros H. replace b with (a + (b - a)) by lia. rewrite bpow_add, (bpow_IZR (b - a)) by lia.
  pose proof (bpow_pos a). pose proof (pow2_pos (b - a) ltac:(lia)).
  assert (1 <= IZR (2 ^ (b - a)))%R by (apply IZR_le; lia). nra.
Qed.

Lemma bpow_lt a b : a < b -> (bpow a < bpow b)%R.
Proof.
  intros H. replace b with (a + (b - a)) by lia. rewrite bpow_add, (bpow_IZR (b - a)) by lia.
  pose proof (bpow_pos a).
  assert (2 ^ 1 <= 2 ^ (b - a)) by (apply pow2_le; lia).
  assert (2 <= IZR (2 ^ (b - a)))%R by (apply IZR_le; lia). nra.
Qed.

Lemma bpow_lt_inv a b : (bpow a < bpow b)%R -> a < b.
Proof.
  intros H. destruct (Z.lt_ge_cases a b) as [|G]; [done|].
  apply bpow_le in G. lra.
Qed.

Lemma bpow_le_inv a b : (bpow a <= bpow b)%R -> a <= b.
Proof.
  intros H. destruct (Z.le_gt_cases a b) as [|G]; [done|].
  apply bpow_lt in G. lra.
Qed.

(** The same value at a lower exponent. *)
Lemma scale m a b : b <= a -> (IZR m * bpow a = IZR (m * 2 ^ (a - b)) * bpow b)%R.
Proof.
  intros H. rewrite mult_IZR, <- bpow_IZR by lia.
  rewrite Rmult_assoc, <- bpow_add. do 2 f_equal. lia.
Qed.

Lemma scaled_le A B e : (IZR A * bpow e <= IZR B * bpow e)%R <-> A <= B.
Proof.
  pose proof (bpow_pos e). split.
  - intros H1. apply le_IZR. nra.
  - intros H1%IZR_le. nra.
Qed.

Lemma scaled_lt A B e : (IZR A * bpow e < IZR B * bpow e)%R <-> A < B.
Proof.
  pose proof (bpow_pos e). split.
  - intros H1. apply lt_IZR. nra.
  - intros H1%IZR_lt. nra.
Qed.

(** The value lies between the powers of two its digits give. *)
Lemma mag M E :
  0 < M ->
  (bpow (Zdigits2 M + E - 1) <= IZR M * bpow E < bpow (Zdigits2 M + E))%R.
Proof.
  intros HM. pose proof (Zdigits2_bounds M HM) as [B1 B2].
  pose proof (Zdigits2_nonneg M).
  assert (0 < Zdigits2 M).
  { destruct (Z.eq_dec (Zdigits2 M) 0) as [E0|]; [|lia]. rewrite E0 in B2. simpl in B2. lia. }
  replace (Zdigits2 M + E - 1) with (Zdigits2 M - 1 + E) by lia.
  rewrite !bpow_add, !bpow_IZR by lia. pose proof (bpow_pos E).
  rewrite (bpow_IZR (Zdigits2 M)) by lia. apply IZR_le in B1. apply IZR_lt in B2. split; nra.
Qed.

Lemma mag_le M1 E1 M2 E2 :
  0 < M1 -> 0 < M2 -> (IZR M1 * bpow E1 <= IZR M2 * bpow E2)%R ->
  Zdigits2 M1 + E1 <= Zdigits2 M2 + E2.
Proof.
  intros H1 H2 H. pose proof (mag M1 E1 H1). pose proof (mag M2 E2 H2).
  assert (Zdigits2 M1 + E1 - 1 < Zdigits2 M2 + E2) by (apply bpow_lt_inv; lra). lia.
Qed.

Lemma mag_lt M1 E1 M2 E2 :
  0 < M1 -> 0 < M2 -> Zdigits2 M1 + E1 < Zdigits2 M2 + E2 ->
  (IZR M1 * bpow E1 < IZR M2 * bpow E2)%R.
Proof.
  intros H1 H2 H. pose proof (mag M1 E1 H1). pose proof (mag M2 E2 H2).
  assert (bpow (Zdigits2 M1 + E1) <= bpow (Zdigits2 M2 + E2 - 1))%R by (apply bpow_le; lia).
  lra.
Qed.

Lemma pos_value M E : (0 < IZR M * bpow E)%R <-> 0 < M.
Proof.
  pose proof (bpow_pos E). split.
  - intros H1. apply lt_IZR. nra.
  - intros H1%IZR_lt. nra.
Qed.

Section rounding.
Variables prec emax : Z.
Hypothesis Hprec : 0 < prec.
Hypothesis Hemax : prec < emax.

Abbreviation emin := (SpecFloat.emin prec emax).
Abbreviation fexp := (SpecFloat.fexp prec emax).
Abbreviation can := (Binary.can prec emax).

Abbreviation rnd := (Binary.rnd prec emax).

Lemma rnd_nonneg M E : 0 <= M -> E <= fexp (Zdigits2 M + E) -> (0 <= rnd M E)%R.
Proof.
  intros HM Hc. unfold rnd. set (e1 := fexp _) in *.
  pose proof (rne_bounds M (e1 - E) ltac:(lia)).
  assert (0 <= M / 2 ^ (e1 - E)) by (apply Z.div_pos; [done|apply pow2_pos; lia]).
  pose proof (bpow_pos e1). assert (0 <= IZR (rne M (e1 - E)))%R by (apply IZR_le; lia).
  nra.
Qed.

(** Rounding does not cross a number of the format above. *)
Lemma rnd_upper M E mf ef :
  0 <= M -> E <= fexp (Zdigits2 M + E) -> 0 <= mf -> can mf ef ->
  (IZR M * bpow E <= IZR mf * bpow ef)%R ->
  (rnd M E <= IZR mf * bpow ef)%R.
Proof.
  intros HM Hc Hmf Hcf H. unfold rnd. set (e1 := fexp _) in *.
  destruct (Z.eq_dec M 0) as [->|HM0].
  - assert (R0 : rne 0 (e1 - E) = 0).
    { apply Z.le_antisymm; [apply (rne_le 0 (e1 - E) 0); lia|].
      pose proof (rne_bounds 0 (e1 - E) ltac:(lia)) as B.
      rewrite Z.div_0_l in B by (pose proof (pow2_pos (e1 - E)); lia). lia. }
    rewrite R0. pose proof (bpow_pos ef). apply IZR_le in Hmf. nra.
  - assert (0 < mf).
    { apply (pos_value mf ef). assert (0 < IZR M * bpow E)%R by (apply pos_value; lia). lra. }
    assert (Hle : e1 <= ef).
    { rewrite <- Hcf. apply fexp_mono. apply mag_le; [lia|done|done]. }
    rewrite (scale mf ef e1 Hle). apply scaled_le. apply rne_le; [lia|].
    apply (scaled_le _ _ E). rewrite <- Z.mul_assoc, (scale M E E), Z.sub_diag, Z.mul_1_r in * by lia.
    rewrite (scale mf ef e1 Hle) in H.
    rewrite (scale (mf * 2 ^ (ef - e1)) e1 E Hc) in H. by rewrite Z.mul_assoc.
Qed.

(** Nor a number of the format below. *)
Lemma rnd_lower M E mf ef :
  0 <= M -> E <= fexp (Zdigits2 M + E) -> 0 <= mf -> can mf ef ->
  (IZR mf * bpow ef <= IZR M * bpow E)%R ->
  (IZR mf * bpow ef <= rnd M E)%R.
Proof.
  intros HM Hc Hmf Hcf H.
  destruct (Z.eq_dec mf 0) as [->|Hmf0].
  { rewrite Rmult_0_l. by apply rnd_nonneg. }
  unfold rnd. set (e1 := fexp _) in *.
  assert (0 < M).
  { apply (pos_value M E). assert (0 < IZR mf * bpow ef)%R by (apply pos_value; lia). lra. }
  assert (Hmag : Zdigits2 mf + ef <= Zdigits2 M + E) by (apply mag_le; [lia|done|done]).
  destruct (Z.le_gt_cases e1 ef) as [Hle|Hgt].
  - assert (e1 = ef) as <-.
    { apply Z.le_antisymm; [done|]. rewrite <- Hcf. by apply fexp_mono. }
    apply scaled_le. apply rne_ge; [lia|].
    apply (scaled_le _ _ E). rewrite <- (scale mf e1 E Hc). done.
  - pose proof (can_ge_emin prec emax mf ef Hcf) as Hge.
    assert (He1 : e1 = Zdigits2 M + E - prec) by (subst e1; unfold SpecFloat.fexp in *; lia).
    assert (Hlt : Zdigits2 mf + ef < Zdigits2 M + E).
    { destruct (Z.eq_dec (Zdigits2 mf + ef) (Zdigits2 M + E)) as [Eq|]; [|lia].
      unfold Binary.can in Hcf. rewrite Eq in Hcf. lia. }
    pose proof (mag mf ef ltac:(lia)) as [_ U].
    assert (bpow (Zdigits2 mf + ef) <= bpow (Zdigits2 M + E - 1))%R by (apply bpow_le; lia).
    assert (L : (IZR (2 ^ (prec - 1)) * bpow e1 <= IZR (rne M (e1 - E)) * bpow e1)%R).
    { apply scaled_le. apply rne_ge; [lia|]. rewrite <- pow2_split by lia.
      replace (prec - 1 + (e1 - E)) with (Zdigits2 M - 1) by lia.
      by apply Zdigits2_bounds. }
    rewrite <- bpow_IZR, <- bpow_add in L by lia.
    replace (prec - 1 + e1) with (Zdigits2 M + E - 1) in L by lia. lra.
Qed.

(** Strictly below the middle of a number of the format and the next
    multiple of its unit: not above that number. *)
Lemma rnd_below_middle M E mf ef :
  0 <= M -> E <= fexp (Zdigits2 M + E) -> 0 < mf -> can mf ef ->
  (2 * (IZR M * bpow E) < IZR (2 * mf + 1) * bpow ef)%R ->
  (rnd M E <= IZR mf * bpow ef)%R.
Proof.
  intros HM Hc Hmf Hcf H.
  destruct (Rle_lt_dec (IZR M * bpow E) (IZR mf * bpow ef)) as [Hle|Hlt].
  { apply rnd_upper; [done|done|lia|done|done]. }
  assert (0 < M).
  { apply (pos_value M E). assert (0 < IZR mf * bpow ef)%R by (apply pos_value; lia). lra. }
  assert (Hmag1 : Zdigits2 mf + ef <= Zdigits2 M + E) by (apply mag_le; [lia|done|lra]).
  assert (Hmag2 : Zdigits2 M + E <= Zdigits2 mf + ef).
  { pose proof (mag M E ltac:(lia)) as [L _].
    pose proof (Zdigits2_bounds mf Hmf) as [_ U]. pose proof (Zdigits2_nonneg mf).
    assert (U' : (IZR (mf + 1) * bpow ef <= bpow (Zdigits2 mf + ef))%R).
    { rewrite bpow_add, (bpow_IZR (Zdigits2 mf)) by lia. apply scaled_le. lia. }
    rewrite plus_IZR, mult_IZR in H. rewrite plus_IZR in U'. pose proof (bpow_pos ef).
    assert (Zdigits2 M + E - 1 < Zdigits2 mf + ef) by (apply bpow_lt_inv; nra). lia. }
  unfold rnd. assert (Ee : fexp (Zdigits2 M + E) = ef).
  { rewrite <- Hcf. f_equal. lia. }
  rewrite Ee in *. apply scaled_le. apply rne_below_middle; [lia|].
  apply (scaled_lt _ _ E). rewrite <- (scale (2 * mf + 1) ef E Hc).
  rewrite mult_IZR. lra.
Qed.

(** Rounding either does not go up, or goes up from a number of the format
    with a full mantissa to the next multiple of its unit. *)
Lemma rnd_cases M E :
  0 <= M -> E <= fexp (Zdigits2 M + E) -> emin <= E ->
  (rnd M E <= IZR M * bpow E)%R
  \/ exists q, can q (fexp (Zdigits2 M + E)) /\ 2 ^ (prec - 1) <= q
       /\ (IZR q * bpow (fexp (Zdigits2 M + E)) <= IZR M * bpow E)%R
       /\ rnd M E = (IZR (q + 1) * bpow (fexp (Zdigits2 M + E)))%R.
Proof.
  intros HM Hc HE. unfold rnd. set (e1 := fexp _) in *.
  pose proof (rne_bounds M (e1 - E) ltac:(lia)) as B.
  pose proof (pow2_pos (e1 - E) ltac:(lia)) as Hp.
  assert (Hq : (IZR (M / 2 ^ (e1 - E)) * bpow e1 <= IZR M * bpow E)%R).
  { rewrite (scale _ e1 E Hc). apply scaled_le.
    pose proof (Z.mul_div_le M (2 ^ (e1 - E)) Hp). lia. }
  destruct (Z.eq_dec (rne M (e1 - E)) (M / 2 ^ (e1 - E))) as [Eq|Ne].
  { left. by rewrite Eq. }
  right. exists (M / 2 ^ (e1 - E)).
  assert (Hn : E < e1).
  { destruct (Z.eq_dec E e1) as [E0|]; [|lia]. exfalso. apply Ne.
    rewrite <- E0, Z.sub_diag. unfold rne. by rewrite Z.div_1_r, Z.mod_1_r. }
  assert (He1 : e1 = Zdigits2 M + E - prec) by (subst e1; unfold SpecFloat.fexp in *; lia).
  assert (0 < M).
  { destruct (Z.eq_dec M 0) as [->|]; [|lia]. cbn [Zdigits2] in He1. lia. }
  assert (Hd : Zdigits2 (M / 2 ^ (e1 - E)) = prec) by (rewrite Zdigits2_div; lia).
  split_and!.
  - by apply can_shr.
  - assert (0 <= M / 2 ^ (e1 - E)) by (apply Z.div_pos; lia).
    destruct (Z.eq_dec (M / 2 ^ (e1 - E)) 0) as [E0|].
    { rewrite E0 in Hd. cbn [Zdigits2] in Hd. lia. }
    pose proof (Zdigits2_bounds (M / 2 ^ (e1 - E)) ltac:(lia)) as [L _].
    by rewrite Hd in L.
  - done.
  - do 2 f_equal. lia.
Qed.

End rounding.

Lemma val_finite s m e : val (S754_finite s m e) = signed s (IZR (Zpos m) * bpow e).
Proof. destruct s; cbn [val cond_Zopp signed]; [|done]. rewrite opp_IZR. ring. Qed.

Lemma iter_xO m d : Zpos (Pos.iter xO m d) = Zpos m * 2 ^ Zpos d.
Proof.
  induction d as [|d IH] using Pos.peano_ind.
  - cbn [Pos.iter]. lia.
  - rewrite Pos.iter_succ, Pos2Z.inj_xO, IH, Pos2Z.inj_succ, Z.pow_succ_r by lia. lia.
Qed.

Lemma shl_align_spec m E e' :
  (shl_align m E e').2 = Z.min E e'
  /\ Zpos (shl_align m E e').1 = Zpos m * 2 ^ (E - Z.min E e').
Proof.
  unfold shl_align. destruct (e' - E) as [|d|d] eqn:Ed; cbn [fst snd].
  - replace (Z.min E e') with E by lia. rewrite Z.sub_diag. lia.
  - replace (Z.min E e') with E by lia. rewrite Z.sub_diag. lia.
  - replace (Z.min E e') with e' by lia. split; [done|].
    rewrite iter_xO. do 2 f_equal. lia.
Qed.

Section floats.
Variables prec emax : Z.
Hypothesis Hprec : 0 < prec.
Hypothesis Hemax : prec < emax.

Abbreviation emin := (SpecFloat.emin prec emax).
Abbreviation fexp := (SpecFloat.fexp prec emax).
Abbreviation can := (Binary.can prec emax).
Abbreviation rnd := (Binary.rnd prec emax).
Abbreviation pack := (Binary.pack prec emax).

Abbreviation finite_ok := (Binary.finite_ok prec emax).
Abbreviation repr := (Binary.repr prec emax).
Abbreviation shaped := (Binary.shaped prec emax).

Lemma bounded_can m e :
  SpecFloat.bounded prec emax m e = true <-> can (Zpos m) e /\ e <= emax - prec.
Proof.
  unfold SpecFloat.bounded, canonical_mantissa, Binary.can. cbn [Zdigits2].
  rewrite andb_true_iff, Z.eqb_eq, Z.leb_le. done.
Qed.

Lemma repr_0 : repr 0.
Proof.
  exists 0, emin. split_and!; [done|by apply can_0| |by rewrite Rmult_0_l].
  unfold SpecFloat.emin. lia.
Qed.

Lemma repr_nonneg x : repr x -> (0 <= x)%R.
Proof.
  intros (m & e & Hm & _ & _ & ->). pose proof (bpow_pos e). apply IZR_le in Hm. nra.
Qed.

Lemma repr_val f : finite_ok f -> (0 <= val f)%R -> repr (val f).
Proof.
  destruct f as [s| | |s m e]; cbn [finite_ok]; intros H Hv; try done.
  - apply repr_0.
  - apply bounded_can in H as [Hc He]. rewrite val_finite in *.
    pose proof (bpow_pos e). assert (0 < IZR (Zpos m))%R by (apply IZR_lt; lia).
    destruct s; cbn [signed] in *; [nra|].
    exists (Zpos m), e. split_and!; done || lia.
Qed.

Lemma repr_val_opp f : finite_ok f -> (val f <= 0)%R -> repr (- val f).
Proof.
  destruct f as [s| | |s m e]; cbn [finite_ok]; intros H Hv; try done.
  - cbn [val]. rewrite Ropp_0. apply repr_0.
  - apply bounded_can in H as [Hc He]. rewrite val_finite in *.
    pose proof (bpow_pos e). assert (0 < IZR (Zpos m))%R by (apply IZR_lt; lia).
    destruct s; cbn [signed] in *; [|nra].
    exists (Zpos m), e. split_and!; try (done || lia). lra.
Qed.

Lemma pack_shaped s m e : 0 <= m -> can m e -> shaped s (pack s m e).
Proof.
  intros Hm Hc. unfold Binary.pack. destruct m as [|p|p]; [done| |lia].
  destruct (Z.leb_spec e (emax - prec)); cbn [shaped]; [|done].
  split; [done|]. by apply bounded_can.
Qed.

Lemma pack_spec s m e :
  0 <= m -> can m e ->
  (pack s m e = S754_infinity s /\ emax - prec < e /\ 0 < m)
  \/ (finite_ok (pack s m e) /\ val (pack s m e) = signed s (IZR m * bpow e)
      /\ (0 < m -> e <= emax - prec)).
Proof.
  intros Hm Hc. unfold Binary.pack. destruct m as [|p|p]; [| |lia].
  - right. split_and!; [done| |lia]. cbn [val]. rewrite Rmult_0_l. destruct s; cbn; lra.
  - destruct (Z.leb_spec e (emax - prec)).
    + right. split_and!; [by apply bounded_can|apply val_finite|done].
    + left. split_and!; [done|lia|lia].
Qed.

(** [binary_round_aux] on any location. *)
Lemma binary_round_aux_shaped s M E l :
  0 <= M -> E <= fexp (Zdigits2 M + E) ->
  shaped s (binary_round_aux prec emax s M E l).
Proof.
  intros HM Hc.
  destruct (binary_round_aux_spec prec emax Hprec s M E l HM Hc)
    as (m1 & m2 & e2 & _ & _ & Hm2 & Hc2 & _ & _ & ->).
  by apply pack_shaped.
Qed.

(** [binary_round_aux] on an exact mantissa: the rounded value, or an
    infinity when that exceeds every number of the format. *)
Lemma binary_round_aux_exact s M E :
  0 <= M -> E <= fexp (Zdigits2 M + E) ->
  (binary_round_aux prec emax s M E loc_Exact = S754_infinity s
   /\ forall x, repr x -> (x < rnd M E)%R)
  \/ (finite_ok (binary_round_aux prec emax s M E loc_Exact)
      /\ val (binary_round_aux prec emax s M E loc_Exact) = signed s (rnd M E)
      /\ ((0 < rnd M E)%R -> fexp (Zdigits2 M + E) <= emax - prec)).
Proof.
  intros HM Hc.
  destruct (binary_round_aux_spec prec emax Hprec s M E loc_Exact HM Hc)
    as (m1 & m2 & e2 & _ & Hm1 & Hm2 & Hc2 & He & Hv & ->).
  specialize (Hm1 eq_refl).
  assert (Hr : rnd M E = (IZR m2 * bpow e2)%R).
  { unfold Binary.rnd. rewrite <- Hm1, <- Hv. symmetry. by apply scale. }
  destruct (pack_spec s m2 e2 Hm2 Hc2) as [(Hp & Hov & Hpos)|(Hf & Hval & Hex)].
  - left. split; [done|]. intros x (mf & ef & Hmf & Hcf & Hef & ->).
    apply Rnot_le_lt. intros Hle. rewrite Hr in Hle.
    assert (0 < mf).
    { apply (pos_value mf ef). assert (0 < IZR m2 * bpow e2)%R by (apply pos_value; lia). lra. }
    assert (e2 <= ef); [|lia].
    rewrite <- Hc2, <- Hcf. apply fexp_mono. by apply mag_le.
  - right. split_and!; [done|by rewrite Hr|].
    rewrite Hr. intros Hpos%pos_value. specialize (Hex Hpos). lia.
Qed.

End floats.

Section operations.
Variables prec emax : Z.
Hypothesis Hprec : 0 < prec.
Hypothesis Hemax : prec < emax.

Abbreviation emin := (SpecFloat.emin prec emax).
Abbreviation fexp := (SpecFloat.fexp prec emax).
Abbreviation can := (Binary.can prec emax).
Abbreviation rnd := (Binary.rnd prec emax).
Abbreviation finite_ok := (Binary.finite_ok prec emax).
Abbreviation repr := (Binary.repr prec emax).
Abbreviation shaped := (Binary.shaped prec emax).

(** [binary_round] first gives the mantissa the digits that
    [binary_round_aux] wants. *)
Lemma binary_round_spec s m E :
  exists M' E',
    0 < M' /\ E' <= fexp (Zdigits2 M' + E') /\ (emin <= E -> emin <= E')
    /\ (IZR M' * bpow E' = IZR (Zpos m) * bpow E)%R
    /\ binary_round prec emax s m E = binary_round_aux prec emax s M' E' loc_Exact.
Proof.
  unfold binary_round.
  pose proof (shl_align_spec m E (fexp (Zpos (digits2_pos m) + E))) as [H2 H1].
  destruct (shl_align m E _) as [mz ez]. cbn [fst snd] in *.
  exists (Zpos mz), ez. split_and!; [lia| | | |done].
  - rewrite H1, Zdigits2_mul_pow2 by lia. cbn [Zdigits2].
    replace (Zpos (digits2_pos m) + (E - Z.min E (fexp (Zpos (digits2_pos m) + E))) + ez)
      with (Zpos (digits2_pos m) + E) by lia. lia.
  - pose proof (fexp_ge_emin prec emax (Zpos (digits2_pos m) + E)). lia.
  - rewrite H1. symmetry. rewrite <- H2. rewrite <- H2 in H1. apply scale. lia.
Qed.

(** A number of the format bounds the rounded value. *)
Lemma round_upper s M E x :
  0 <= M -> E <= fexp (Zdigits2 M + E) -> repr x -> (rnd M E <= x)%R ->
  finite_ok (binary_round_aux prec emax s M E loc_Exact)
  /\ val (binary_round_aux prec emax s M E loc_Exact) = signed s (rnd M E).
Proof.
  intros HM Hc Hx Hle.
  destruct (binary_round_aux_exact prec emax Hprec s M E HM Hc) as [[_ Hinf]|(Hf & Hv & _)].
  - specialize (Hinf x Hx). lra.
  - done.
Qed.

Lemma rnd_upper_repr M E x :
  0 <= M -> E <= fexp (Zdigits2 M + E) -> repr x ->
  (IZR M * bpow E <= x)%R -> (rnd M E <= x)%R.
Proof. intros HM Hc (m & e & Hm & Hcm & _ & ->) H. by apply rnd_upper. Qed.

Lemma rnd_lower_repr M E x :
  0 <= M -> E <= fexp (Zdigits2 M + E) -> repr x ->
  (x <= IZR M * bpow E)%R -> (x <= rnd M E)%R.
Proof. intros HM Hc (m & e & Hm & Hcm & _ & ->) H. by apply rnd_lower. Qed.

(** [binary_round] between two numbers of the type. *)
Lemma binary_round_between s m E lo hi :
  finite_ok lo -> finite_ok hi ->
  (val lo <= signed s (IZR (Zpos m) * bpow E) <= val hi)%R ->
  finite_ok (binary_round prec emax s m E)
  /\ (val lo <= val (binary_round prec emax s m E) <= val hi)%R.
Proof.
  intros Hlo Hhi [H1 H2].
  destruct (binary_round_spec s m E) as (M' & E' & HM & Hc & _ & Hv & ->).
  rewrite <- Hv in *. clear Hv.
  assert (Hpos : (0 < IZR M' * bpow E')%R) by (apply pos_value; lia).
  pose proof (rnd_nonneg prec emax M' E' ltac:(lia) Hc) as Hr0.
  destruct s; cbn [signed] in *.
  - assert (Hx : repr (- val lo)) by (apply repr_val_opp; try done; lra).
    assert (Hu : (rnd M' E' <= - val lo)%R) by (apply rnd_upper_repr; [lia|done|done|lra]).
    destruct (round_upper true M' E' _ ltac:(lia) Hc Hx Hu) as [Hf ->].
    split; [done|]. cbn [signed]. split; [lra|].
    destruct (Rle_lt_dec 0 (val hi)) as [|Hneg]; [lra|].
    assert (Hy : repr (- val hi)) by (apply repr_val_opp; try done; lra).
    assert ((- val hi <= rnd M' E')%R) by (apply rnd_lower_repr; [lia|done|done|lra]). lra.
  - assert (Hx : repr (val hi)) by (apply repr_val; try done; lra).
    assert (Hu : (rnd M' E' <= val hi)%R) by (apply rnd_upper_repr; [lia|done|done|lra]).
    destruct (round_upper false M' E' _ ltac:(lia) Hc Hx Hu) as [Hf ->].
    split; [done|]. cbn [signed]. split; [|lra].
    destruct (Rle_lt_dec (val lo) 0) as [|Hp]; [lra|].
    assert (Hy : repr (val lo)) by (apply repr_val; try done; lra).
    assert ((val lo <= rnd M' E')%R) by (apply rnd_lower_repr; [lia|done|done|lra]). lra.
Qed.

(** [binary_normalize] between two numbers of the type. *)
Lemma binary_normalize_between z E lo hi :
  finite_ok lo -> finite_ok hi ->
  (val lo <= IZR z * bpow E <= val hi)%R ->
  finite_ok (binary_normalize prec emax z E false)
  /\ (val lo <= val (binary_normalize prec emax z E false) <= val hi)%R.
Proof.
  intros Hlo Hhi H. destruct z as [|p|p]; cbn [binary_normalize].
  - rewrite Rmult_0_l in H. done.
  - by apply binary_round_between.
  - apply binary_round_between; [done..|]. cbn [signed].
    change (Zneg p) with (- Zpos p) in H. rewrite opp_IZR in H. lra.
Qed.

(** The aligned mantissas of an addition or subtraction. *)
Lemma aligned_val s m e e' :
  (IZR (cond_Zopp s (Zpos (shl_align m e (Z.min e e')).1)) * bpow (Z.min e e')
   = val (S754_finite s m e))%R.
Proof.
  pose proof (shl_align_spec m e (Z.min e e')) as [_ H1].
  replace (Z.min e (Z.min e e')) with (Z.min e e') in H1 by lia.
  rewrite val_finite. destruct s; cbn [cond_Zopp signed].
  - rewrite opp_IZR, H1, (scale (Zpos m) e (Z.min e e')) by lia. ring.
  - rewrite H1, (scale (Zpos m) e (Z.min e e')) by lia. ring.
Qed.

Lemma aligned_val_r s m e e' :
  (IZR (cond_Zopp s (Zpos (shl_align m e (Z.min e' e)).1)) * bpow (Z.min e' e)
   = val (S754_finite s m e))%R.
Proof. rewrite (Z.min_comm e' e). apply aligned_val. Qed.

(** Addition between two numbers of the type. *)
Lemma SFadd_between x y lo hi :
  finite_ok x -> finite_ok y -> finite_ok lo -> finite_ok hi ->
  (val lo <= val x + val y <= val hi)%R ->
  finite_ok (SFadd prec emax x y)
  /\ (val lo <= val (SFadd prec emax x y) <= val hi)%R.
Proof.
  intros Hx Hy Hlo Hhi H.
  destruct x as [sx| | |sx mx ex], y as [sy| | |sy my ey]; try done.
  - cbn [val] in H. destruct sx, sy; cbn [SFadd val]; split; done || lra.
  - cbn [SFadd]. change (val (S754_zero sx)) with 0%R in H. split; [done|lra].
  - cbn [SFadd]. change (val (S754_zero sy)) with 0%R in H. split; [done|lra].
  - cbn [SFadd]. apply binary_normalize_between; [done..|].
    rewrite plus_IZR, Rmult_plus_distr_r, aligned_val, aligned_val_r. done.
Qed.

End operations.

Section more_operations.
Variables prec emax : Z.
Hypothesis Hprec : 0 < prec.
Hypothesis Hemax : prec < emax.

Abbreviation emin := (SpecFloat.emin prec emax).
Abbreviation fexp := (SpecFloat.fexp prec emax).
Abbreviation can := (Binary.can prec emax).
Abbreviation rnd := (Binary.rnd prec emax).
Abbreviation finite_ok := (Binary.finite_ok prec emax).
Abbreviation repr := (Binary.repr prec emax).
Abbreviation shaped := (Binary.shaped prec emax).

Lemma finite_ok_ge_emin s m e : finite_ok (S754_finite s m e) -> emin <= e.
Proof. intros [Hc _]%bounded_can. by eapply can_ge_emin. Qed.

(** Subtraction of a smaller number from a larger one: the difference
    rounded, which either does not exceed the exact difference or is the
    successor of a number with a full mantissa that does not. *)
Lemma SFsub_spec b a :
  finite_ok a -> finite_ok b -> (val a <= val b)%R ->
  SFsub prec emax b a = S754_infinity false
  \/ (finite_ok (SFsub prec emax b a) /\ (0 <= val (SFsub prec emax b a))%R
      /\ ((val (SFsub prec emax b a) <= val b - val a)%R
          \/ exists q e, can q e /\ e <= emax - prec /\ 2 ^ (prec - 1) <= q
               /\ (IZR q * bpow e <= val b - val a)%R
               /\ val (SFsub prec emax b a) = (IZR (q + 1) * bpow e)%R)).
Proof.
  intros Ha Hb H.
  destruct b as [sb| | |sb mb eb], a as [sa| | |sa ma ea]; try done.
  - right. cbn [val] in *. destruct sb, sa; cbn [SFsub val]; split_and!; try done; try lra; left; lra.
  - right. cbn [SFsub]. change (val (S754_zero sb)) with 0%R in *.
    rewrite !val_finite in *. destruct sa; cbn [negb signed] in *;
      (split_and!; [done|lra|left; lra]).
  - right. cbn [SFsub]. change (val (S754_zero sa)) with 0%R in *.
    split_and!; [done|lra|left; lra].
  - cbn [SFsub]. set (ez := Z.min eb ea).
    set (z := _ - _).
    assert (Hz : (IZR z * bpow ez = val (S754_finite sb mb eb) - val (S754_finite sa ma ea))%R).
    { subst z ez. rewrite minus_IZR, Rmult_minus_distr_r, aligned_val, aligned_val_r. done. }
    assert (Hz0 : 0 <= z).
    { apply le_IZR. pose proof (bpow_pos ez). nra. }
    rewrite <- Hz. clear Hz. destruct z as [|p|p]; [| |lia]; cbn [binary_normalize].
    { right. cbn [val]. rewrite Rmult_0_l. split_and!; [done|lra|left; lra]. }
    assert (Hez : emin <= ez).
    { pose proof (finite_ok_ge_emin _ _ _ Ha). pose proof (finite_ok_ge_emin _ _ _ Hb). lia. }
    destruct (binary_round_spec prec emax false p ez) as (M' & E' & HM & Hc & HE & Hv & ->).
    rewrite <- Hv. specialize (HE Hez).
    destruct (binary_round_aux_exact prec emax Hprec false M' E' ltac:(lia) Hc)
      as [[-> _]|(Hf & Hval & He)]; [by left|right].
    rewrite Hval. cbn [signed].
    pose proof (rnd_nonneg prec emax M' E' ltac:(lia) Hc).
    split_and!; [done|done|].
    destruct (rnd_cases prec emax Hprec M' E' ltac:(lia) Hc HE) as [Hle|(q & Hcq & Hq & Hle & Hr)].
    + by left.
    + right. exists q, (fexp (Zdigits2 M' + E')). split_and!; try done.
      apply He. rewrite Hr. apply pos_value. pose proof (pow2_pos (prec - 1)). lia.
Qed.

(** The product of two canonical mantissas has the digits that
    [binary_round_aux] wants. *)
Lemma mul_can mx ex my ey :
  can (Zpos mx) ex -> can (Zpos my) ey ->
  ex + ey <= fexp (Zdigits2 (Zpos mx * Zpos my) + (ex + ey)).
Proof.
  intros Hx Hy.
  pose proof (Zdigits2_bounds (Zpos mx) ltac:(lia)) as [Lx Ux].
  pose proof (Zdigits2_bounds (Zpos my) ltac:(lia)) as [Ly Uy].
  assert (Dx : 0 < Zdigits2 (Zpos mx)) by (cbn; lia).
  assert (Dy : 0 < Zdigits2 (Zpos my)) by (cbn; lia).
  assert (D : Zdigits2 (Zpos mx) + Zdigits2 (Zpos my) - 1 <= Zdigits2 (Zpos mx * Zpos my)).
  { apply Zdigits2_ge; [lia|].
    replace (Zdigits2 (Zpos mx) + Zdigits2 (Zpos my) - 1 - 1)
      with ((Zdigits2 (Zpos mx) - 1) + (Zdigits2 (Zpos my) - 1)) by lia.
    rewrite pow2_split by lia.
    pose proof (pow2_pos (Zdigits2 (Zpos mx) - 1)). pose proof (pow2_pos (Zdigits2 (Zpos my) - 1)).
    nia. }
  apply can_cases in Hx, Hy. unfold SpecFloat.fexp, SpecFloat.emin in *. lia.
Qed.

(** The product of two non-negative numbers, below a number of the format
    or below the middle of it and the next. *)
Lemma SFmul_le x y q e :
  finite_ok x -> finite_ok y -> (0 <= val x)%R -> (0 <= val y)%R ->
  0 <= q -> can q e -> e <= emax - prec ->
  (val x * val y <= IZR q * bpow e)%R
  \/ (0 < q /\ (2 * (val x * val y) < IZR (2 * q + 1) * bpow e)%R) ->
  finite_ok (SFmul prec emax x y)
  /\ (0 <= val (SFmul prec emax x y) <= IZR q * bpow e)%R.
Proof.
  intros Hx Hy Hx0 Hy0 Hq Hc He H.
  assert (Hq0 : (0 <= IZR q * bpow e)%R).
  { pose proof (bpow_pos e). apply IZR_le in Hq. nra. }
  destruct x as [sx| | |sx mx ex], y as [sy| | |sy my ey]; try done;
    try (cbn [SFmul val]; split; [done|lra]).
  assert (sx = false) as ->.
  { rewrite val_finite in Hx0. destruct sx; [|done]. cbn [signed] in Hx0.
    assert (0 < IZR (Zpos mx) * bpow ex)%R by (apply pos_value; lia). lra. }
  assert (sy = false) as ->.
  { rewrite val_finite in Hy0. destruct sy; [|done]. cbn [signed] in Hy0.
    assert (0 < IZR (Zpos my) * bpow ey)%R by (apply pos_value; lia). lra. }
  cbn [SFmul xorb]. rewrite !val_finite in H. cbn [signed] in H.
  apply bounded_can in Hx as [Hcx _], Hy as [Hcy _].
  pose proof (mul_can mx ex my ey Hcx Hcy) as Hcan.
  rewrite Pos2Z.inj_mul.
  assert (Hv : (IZR (Zpos mx * Zpos my) * bpow (ex + ey)
                = IZR (Zpos mx) * bpow ex * (IZR (Zpos my) * bpow ey))%R).
  { rewrite mult_IZR, bpow_add. ring. }
  rewrite <- Hv in H.
  assert (Hr : (rnd (Zpos mx * Zpos my) (ex + ey) <= IZR q * bpow e)%R).
  { destruct H as [H|[Hq1 H]].
    - apply rnd_upper; try done; lia.
    - apply rnd_below_middle; try done; lia. }
  assert (Hrep : repr (IZR q * bpow e)) by (exists q, e; done).
  destruct (round_upper prec emax Hprec false (Zpos mx * Zpos my) (ex + ey) (IZR q * bpow e)%R ltac:(lia) Hcan Hrep Hr) as [Hf ->].
  split; [done|]. cbn [signed]. split; [|done].
  apply rnd_nonneg; [lia|done].
Qed.

End more_operations.

Lemma bpow_0 : bpow 0 = 1%R.
Proof. done. Qed.

Lemma bpow_half : (bpow (-1) + bpow (-1) = 1)%R.
Proof.
  assert (H : (bpow (-1) * bpow 1 = 1)%R) by (rewrite <- bpow_add; done).
  rewrite (bpow_IZR 1) in H by lia. change (2 ^ 1) with 2 in H. lra.
Qed.

Section comparison.
Variables prec emax : Z.
Hypothesis Hprec : 0 < prec.
Hypothesis Hemax : prec < emax.

Abbreviation emin := (SpecFloat.emin prec emax).
Abbreviation fexp := (SpecFloat.fexp prec emax).
Abbreviation can := (Binary.can prec emax).
Abbreviation finite_ok := (Binary.finite_ok prec emax).

(** Canonical floats are ordered by exponent, then by mantissa. *)
Lemma can_exp_lt m1 e1 m2 e2 :
  can (Zpos m1) e1 -> can (Zpos m2) e2 -> e1 < e2 ->
  (IZR (Zpos m1) * bpow e1 < IZR (Zpos m2) * bpow e2)%R.
Proof.
  intros H1 H2 Hlt. apply mag_lt; [lia|lia|].
  destruct (Z.lt_ge_cases (Zdigits2 (Zpos m1) + e1) (Zdigits2 (Zpos m2) + e2)) as [|Hge]; [done|].
  apply (fexp_mono prec emax) in Hge. unfold Binary.can in *. lia.
Qed.

Lemma compare_pos_spec m1 e1 m2 e2 :
  can (Zpos m1) e1 -> can (Zpos m2) e2 ->
  match compare_pos m1 e1 m2 e2 with
  | Lt => (IZR (Zpos m1) * bpow e1 < IZR (Zpos m2) * bpow e2)%R
  | Eq => (IZR (Zpos m1) * bpow e1 = IZR (Zpos m2) * bpow e2)%R
  | Gt => (IZR (Zpos m2) * bpow e2 < IZR (Zpos m1) * bpow e1)%R
  end.
Proof.
  intros H1 H2. unfold compare_pos. destruct (Z.compare_spec e1 e2) as [->|Hlt|Hgt].
  - change (Pos.compare_cont Eq m1 m2) with (Pos.compare m1 m2).
    destruct (Pos.compare_spec m1 m2) as [->|Hlt|Hgt].
    + done.
    + apply scaled_lt. lia.
    + apply scaled_lt. lia.
  - by apply can_exp_lt.
  - by apply can_exp_lt.
Qed.

(** [SFcompare] on numbers is the order of their values. *)
Lemma SFcompare_val f1 f2 :
  finite_ok f1 -> finite_ok f2 ->
  match SFcompare f1 f2 with
  | Some Lt => (val f1 < val f2)%R
  | Some Eq => val f1 = val f2
  | Some Gt => (val f2 < val f1)%R
  | None => False
  end.
Proof.
  intros H1 H2.
  destruct f1 as [s1| | |s1 m1 e1], f2 as [s2| | |s2 m2 e2]; try done.
  - cbn [SFcompare]. rewrite val_finite. cbn [val].
    assert (0 < IZR (Zpos m2) * bpow e2)%R by (apply pos_value; lia).
    destruct s2; cbn [signed]; lra.
  - cbn [SFcompare]. rewrite val_finite. cbn [val].
    assert (0 < IZR (Zpos m1) * bpow e1)%R by (apply pos_value; lia).
    destruct s1; cbn [signed]; lra.
  - apply bounded_can in H1 as [C1 _], H2 as [C2 _].
    pose proof (compare_pos_spec m1 e1 m2 e2 C1 C2) as Hc. unfold compare_pos in Hc.
    assert (0 < IZR (Zpos m1) * bpow e1)%R by (apply pos_value; lia).
    assert (0 < IZR (Zpos m2) * bpow e2)%R by (apply pos_value; lia).
    cbn [SFcompare]. rewrite !val_finite.
    destruct s1, s2; cbn [signed]; try lra.
    + destruct (e1 ?= e2); [destruct (Pos.compare_cont Eq m1 m2)| |]; cbn [CompOpp]; lra.
    + destruct (e1 ?= e2); [destruct (Pos.compare_cont Eq m1 m2)| |]; lra.
Qed.

Lemma SFleb_val f1 f2 :
  finite_ok f1 -> finite_ok f2 -> (SFleb f1 f2 = true <-> (val f1 <= val f2)%R).
Proof.
  intros H1 H2. pose proof (SFcompare_val f1 f2 H1 H2) as H. unfold SFleb.
  destruct (SFcompare f1 f2) as [[]|]; [| | |done]; split; (done || lra).
Qed.

(** A number of the format below one is at most one minus [2^(-prec)]. *)
Lemma below_one f :
  finite_ok f -> (0 <= val f < 1)%R -> (val f <= 1 - bpow (- prec))%R.
Proof.
  intros Hf [H0 H1].
  assert (Hh : (bpow (- prec) <= bpow (-1))%R) by (apply bpow_le; lia).
  pose proof bpow_half as Hhalf. pose proof (bpow_pos (-1)).
  destruct f as [s| | |s m e]; try done.
  { cbn [val]. lra. }
  apply bounded_can in Hf as [Hc He]. rewrite val_finite in *.
  assert (0 < IZR (Zpos m) * bpow e)%R by (apply pos_value; lia).
  destruct s; cbn [signed] in *; [lra|].
  assert (One : (1 = IZR (2 ^ prec) * bpow (- prec))%R).
  { rewrite <- bpow_IZR, <- bpow_add by lia. by replace (prec + - prec) with 0 by lia. }
  destruct (Z.le_gt_cases (- prec) e) as [Hge|Hlt].
  - rewrite (scale (Zpos m) e (- prec) Hge) in *.
    rewrite One in H1 at 1. apply scaled_lt in H1.
    assert (L : (IZR (Zpos m * 2 ^ (e - - prec)) * bpow (- prec)
                 <= IZR (2 ^ prec - 1) * bpow (- prec))%R) by (apply scaled_le; lia).
    rewrite minus_IZR in L. lra.
  - pose proof (can_digits prec emax _ _ Hc) as Hd.
    pose proof (Zdigits2_bounds (Zpos m) ltac:(lia)) as [_ U].
    assert (Zpos m < 2 ^ prec).
    { pose proof (pow2_le _ _ Hd). lia. }
    assert (L1 : (IZR (Zpos m) * bpow e < IZR (2 ^ prec) * bpow e)%R) by (apply scaled_lt; lia).
    assert (L2 : (bpow e <= bpow (- prec - 1))%R) by (apply bpow_le; lia).
    rewrite <- bpow_IZR in L1 by lia.
    assert (L3 : (bpow prec * bpow (- prec - 1) = bpow (-1))%R).
    { rewrite <- bpow_add. f_equal. lia. }
    pose proof (bpow_pos prec). pose proof (bpow_pos e). nra.
Qed.

End comparison.

Section nonnegative.
Variables prec emax : Z.
Hypothesis Hprec : 0 < prec.
Hypothesis Hemax : prec < emax.

Abbreviation emin := (SpecFloat.emin prec emax).
Abbreviation fexp := (SpecFloat.fexp prec emax).
Abbreviation can := (Binary.can prec emax).
Abbreviation finite_ok := (Binary.finite_ok prec emax).
Abbreviation shaped := (Binary.shaped prec emax).

Abbreviation nonneg := (Binary.nonneg prec emax).
Abbreviation positive_finite := (Binary.positive_finite prec emax).

Lemma shaped_nonneg r : shaped false r -> nonneg r.
Proof. by destruct r. Qed.

Lemma binary_round_nonneg m E : nonneg (binary_round prec emax false m E).
Proof.
  destruct (binary_round_spec prec emax false m E) as (M' & E' & HM & Hc & _ & _ & ->).
  apply shaped_nonneg, binary_round_aux_shaped; [done|lia|done].
Qed.

Lemma binary_normalize_nonneg z E :
  0 <= z -> nonneg (binary_normalize prec emax z E false).
Proof.
  intros Hz. destruct z as [|p|p]; [done| |lia]. apply binary_round_nonneg.
Qed.

Lemma SFadd_nonneg x y : nonneg x -> nonneg y -> nonneg (SFadd prec emax x y).
Proof.
  intros Hx Hy.
  destruct x as [[]|[]| |[] mx ex], y as [[]|[]| |[] my ey];
    cbn [nonneg SFadd] in *; try done; try (by destruct Hx); try (by destruct Hy).
  cbn [cond_Zopp]. by apply binary_normalize_nonneg.
Qed.

Lemma SFmul_nonneg x y :
  nonneg x -> positive_finite y = true -> nonneg (SFmul prec emax x y).
Proof.
  intros Hx Hy. destruct y as [| | |[] my ey]; try done. cbn [positive_finite] in Hy.
  destruct x as [sx|[]| |[] mx ex]; cbn [nonneg] in *; try done; try (by destruct Hx).
  destruct Hx as [_ Hx]. cbn [SFmul xorb].
  apply bounded_can in Hx as [Hcx _], Hy as [Hcy _].
  apply shaped_nonneg, binary_round_aux_shaped; [done|lia|].
  rewrite Pos2Z.inj_mul. by apply mul_can.
Qed.

(** The quotient and exponent of [SFdiv_core_binary] are what
    [binary_round_aux] wants. *)
Lemma SFdiv_core_binary_can m1 e1 m2 e2 :
  0 < m1 -> 0 < m2 ->
  0 <= (SFdiv_core_binary prec emax m1 e1 m2 e2).1.1
  /\ (SFdiv_core_binary prec emax m1 e1 m2 e2).1.2
     <= fexp (Zdigits2 (SFdiv_core_binary prec emax m1 e1 m2 e2).1.1
              + (SFdiv_core_binary prec emax m1 e1 m2 e2).1.2).
Proof.
  intros H1 H2. unfold SFdiv_core_binary.
  set (d1 := Zdigits2 m1). set (d2 := Zdigits2 m2).
  set (e' := Z.min (fexp (d1 + e1 - (d2 + e2))) (e1 - e2)).
  set (s := e1 - e2 - e'). cbv zeta.
  assert (Hs : 0 <= s) by lia.
  set (m' := match s with 0 => m1 | Zpos _ => Z.shiftl m1 s | Zneg _ => 0 end).
  assert (Hm' : m' = m1 * 2 ^ s).
  { subst m'. destruct s as [|p|p]; [lia| |lia]. by rewrite Z.shiftl_mul_pow2. }
  assert (Hq : (Z.div_eucl m' m2).1 = m' / m2) by done.
  destruct (Z.div_eucl m' m2) as [q r]. cbn [fst snd] in *. subst q.
  pose proof (pow2_pos s Hs) as Hp.
  assert (Hq0 : 0 <= m' / m2) by (apply Z.div_pos; nia).
  split; [done|].
  assert (Hd : d1 + s - d2 <= Zdigits2 (m' / m2)).
  { pose proof (Zdigits2_nonneg (m' / m2)).
    destruct (Z.le_gt_cases (d1 + s - d2) 0) as [|Hpos]; [lia|].
    pose proof (Zdigits2_bounds m1 H1) as [L1 _]. pose proof (Zdigits2_bounds m2 H2) as [_ U2].
    fold d1 in L1. fold d2 in U2.
    assert (0 < d1).
    { subst d1. destruct m1; try lia. cbn. lia. }
    assert (0 <= d2) by apply Zdigits2_nonneg.
    assert (Hlow : 2 ^ (d1 + s - d2 - 1) <= m' / m2).
    { apply Z.div_le_lower_bound; [done|].
      assert (E : 2 ^ (d1 - 1 + s) = 2 ^ d2 * 2 ^ (d1 + s - d2 - 1)).
      { rewrite <- pow2_split by lia. f_equal. lia. }
      rewrite pow2_split in E by lia.
      pose proof (pow2_pos (d1 + s - d2 - 1) ltac:(lia)). nia. }
    apply Zdigits2_ge; [|done].
    pose proof (pow2_pos (d1 + s - d2 - 1) ltac:(lia)). lia. }
  assert (F : fexp (d1 + e1 - (d2 + e2)) <= fexp (Zdigits2 (m' / m2) + e'))
    by (apply fexp_mono; lia).
  lia.
Qed.

Lemma SFdiv_nonneg x y :
  nonneg x -> positive_finite y = true -> nonneg (SFdiv prec emax x y).
Proof.
  intros Hx Hy. destruct y as [| | |[] my ey]; try done. cbn [positive_finite] in Hy.
  destruct x as [sx|[]| |[] mx ex]; cbn [nonneg] in *; try done; try (by destruct Hx).
  destruct Hx as [_ Hx]. cbn [SFdiv xorb].
  pose proof (SFdiv_core_binary_can (Zpos mx) ex (Zpos my) ey ltac:(lia) ltac:(lia)) as [Hq Hc].
  destruct (SFdiv_core_binary prec emax (Zpos mx) ex (Zpos my) ey) as [[mz ez] lz].
  cbn [fst snd] in *. by apply shaped_nonneg, binary_round_aux_shaped.
Qed.

(** Below one, a non-negative value is a number at most [1 - 2^(-prec)]. *)
Lemma nonneg_below_one one r :
  finite_ok one -> val one = 1%R -> nonneg r -> SFleb one r = false ->
  finite_ok r /\ (0 <= val r <= 1 - bpow (- prec))%R.
Proof.
  intros Hone H1 Hr Hle.
  assert (Hf : finite_ok r).
  { destruct r as [s|s| |s m e]; try done.
    - cbn [nonneg] in Hr. subst. destruct one as [|[]| |[]]; done.
    - by destruct Hr. }
  assert (H0 : (0 <= val r)%R).
  { destruct r as [s|s| |s m e]; try done; cbn [val]; try lra.
    destruct Hr as [-> _]. cbn [cond_Zopp]. pose proof (bpow_pos e).
    assert (0 < IZR (Zpos m))%R by (apply IZR_lt; lia). nra. }
  split; [done|]. split; [done|]. apply (below_one prec emax); try done.
  split; [done|]. apply Rnot_le_lt. intros Hge. rewrite <- H1 in Hge.
  apply (SFleb_val prec emax) in Hge; try done. congruence.
Qed.

End nonnegative.

Module IEEE_facts.
Import IEEE.

Lemma prec_pos T : 0 < prec T.
Proof. by destruct T. Qed.

Lemma prec_lt_emax T : prec T < emax T.
Proof. by destruct T. Qed.

Lemma finite_spec T f : finite T f = true <-> finite_ok (prec T) (emax T) f.
Proof. destruct f; cbn [finite finite_ok]; split; done. Qed.

Lemma one_val T :
  finite_ok (prec T) (emax T) (of_Z T 1) /\ val (of_Z T 1) = 1%R.
Proof.
  assert (G : forall p, 0 < p -> (IZR (2 ^ (p - 1)) * bpow (1 - p) = 1)%R).
  { intros p Hp. rewrite <- bpow_IZR, <- bpow_add by lia.
    by replace (p - 1 + (1 - p)) with 0 by lia. }
  destruct T; (split; [by vm_compute|]).
  - apply (G 24). lia.
  - apply (G 53). lia.
  - apply (G 64). lia.
Qed.

Lemma zero_val T : of_Z T 0 = S754_zero false.
Proof. done. Qed.

(** [nextafter(1, 0)] is [1 - 2^(-prec)]. *)
Lemma nextafter_one T :
  finite_ok (prec T) (emax T) (nextafter T (of_Z T 1) (of_Z T 0))
  /\ val (nextafter T (of_Z T 1) (of_Z T 0)) = (1 - bpow (- prec T))%R.
Proof.
  assert (G : forall p, 0 < p -> (IZR (2 ^ p - 1) * bpow (- p) = 1 - bpow (- p))%R).
  { intros p Hp. rewrite minus_IZR, Rmult_minus_distr_r, <- bpow_IZR, <- bpow_add by lia.
    replace (p + - p) with 0 by lia. rewrite bpow_0. lra. }
  destruct T; (split; [by vm_compute|]).
  - apply (G 24). lia.
  - apply (G 53). lia.
  - apply (G 64). lia.
Qed.

Lemma factors_ok_canonical T :
  factors_ok T (canonical_m T (real_digits T)) (of_Z T 1) = true.
Proof. destruct T; by vm_compute. Qed.

Lemma wrap_nonneg x : 0 <= mt19937.wrap x.
Proof. unfold mt19937.wrap. apply Z.mod_pos_bound. done. Qed.

Lemma of_Z_nonneg T z : 0 <= z -> nonneg (prec T) (emax T) (of_Z T z).
Proof. intros. by apply binary_normalize_nonneg; [apply prec_pos|]. Qed.

(** The sum of [generate_canonical] is never negative and never a NaN. *)
Lemma canonical_loop_nonneg T k : forall sum tmp g,
  nonneg (prec T) (emax T) sum -> factors_ok T k tmp = true ->
  nonneg (prec T) (emax T) (canonical_loop T k sum tmp g).1.1
  /\ positive_finite (prec T) (emax T) (canonical_loop T k sum tmp g).1.2 = true.
Proof.
  induction k as [|k IH]; intros sum tmp g Hs Hf; cbn [canonical_loop factors_ok] in *;
    apply andb_true_iff in Hf as [Ht Hf].
  - done.
  - destruct (mt19937.operator_call g) as [v g']. apply IH; [|done].
    cbn [real_add real_mul real_of_Z floating].
    apply SFadd_nonneg; [apply prec_pos|done|].
    apply SFmul_nonneg; [apply prec_pos|apply prec_lt_emax|apply of_Z_nonneg, wrap_nonneg|done].
Qed.

(** [generate_canonical] gives a number in [0, 1 - 2^(-prec)]. *)
Lemma _Adaptor_range T g :
  finite_ok (prec T) (emax T) (_Adaptor T g).1
  /\ (0 <= val (_Adaptor T g).1 <= 1 - bpow (- prec T))%R.
Proof.
  unfold _Adaptor, generate_canonical.
  pose proof (canonical_loop_nonneg T (canonical_m T (real_digits T))
                (real_of_Z T 0) (real_of_Z T 1) g) as H.
  destruct (canonical_loop T _ _ _ g) as [[sum tmp] g']. cbn [fst snd] in H.
  destruct H as [Hs Ht]; [done|apply factors_ok_canonical|].
  cbn [real_div real_leb real_nextafter real_of_Z floating].
  pose proof (SFdiv_nonneg (prec T) (emax T) (prec_pos T) sum tmp Hs Ht) as Hr.
  destruct (SFleb (of_Z T 1) (SFdiv (prec T) (emax T) sum tmp)) eqn:Hle; cbn [fst].
  - destruct (nextafter_one T) as [Hf ->]. split; [done|].
    pose proof (bpow_le (- prec T) 0 ltac:(pose proof (prec_pos T); lia)) as B.
    rewrite bpow_0 in B. lra.
  - destruct (one_val T) as [H1 H2].
    by apply (nonneg_below_one (prec T) (emax T) (prec_pos T) (of_Z T 1)).
Qed.

End IEEE_facts.

Module uniform_real_distribution_facts.
Import IEEE IEEE_facts.

(** The product [u * d] of a canonical value and a rounded difference does
    not exceed the exact difference. *)
Lemma scaled_difference T u a b :
  finite_ok (prec T) (emax T) u -> (0 <= val u <= 1 - bpow (- prec T))%R ->
  finite_ok (prec T) (emax T) a -> finite_ok (prec T) (emax T) b ->
  (val a <= val b)%R ->
  finite T (SFsub (prec T) (emax T) b a) = true ->
  finite_ok (prec T) (emax T) (SFmul (prec T) (emax T) u (SFsub (prec T) (emax T) b a))
  /\ (0 <= val (SFmul (prec T) (emax T) u (SFsub (prec T) (emax T) b a))
      <= val b - val a)%R.
Proof.
  intros Hu [Hu0 Hu1] Ha Hb Hab Hfin.
  pose proof (prec_pos T) as Hp. pose proof (prec_lt_emax T) as He.
  pose proof (bpow_pos (- prec T)) as Ht.
  destruct (SFsub_spec (prec T) (emax T) Hp b a Ha Hb Hab)
    as [Hinf|(Hd & Hd0 & [Hle|(q & e & Hcq & Heq & Hq & Hle & Hv)])].
  - by rewrite Hinf in Hfin.
  - destruct (repr_val (prec T) (emax T) Hp He _ Hd Hd0) as (q & e & Hq & Hcq & Heq & Hv).
    destruct (SFmul_le (prec T) (emax T) Hp He u (SFsub (prec T) (emax T) b a) q e)
      as [Hf Hr]; try done.
    { left. rewrite <- Hv. nra. }
    split; [done|]. lra.
  - pose proof (pow2_pos (prec T - 1) ltac:(lia)).
    destruct (SFmul_le (prec T) (emax T) Hp He u (SFsub (prec T) (emax T) b a) q e)
      as [Hf Hr]; try done; [lia| |split; [done|lra]].
    right. split; [lia|]. rewrite Hv, !plus_IZR, mult_IZR.
    pose proof (bpow_pos e) as HB.
    assert (HQ : (bpow (-1) <= IZR q * bpow (- prec T))%R).
    { apply IZR_le in Hq. rewrite <- bpow_IZR in Hq by lia.
      replace (-1) with (prec T - 1 + - prec T) by lia. rewrite bpow_add. nra. }
    pose proof bpow_half as Hh.
    assert (Hq0 : (0 < IZR q)%R) by (apply IZR_lt; lia).
    assert (K : (2 * ((1 - bpow (- prec T)) * (IZR q + 1)) < 2 * IZR q + 1)%R) by nra.
    assert (K2 : (val u * (IZR q + 1) <= (1 - bpow (- prec T)) * (IZR q + 1))%R) by nra.
    nra.
Qed.

(** [uniform_real_distribution] on numbers whose difference is a number. *)
Lemma operator_call_range T a b g :
  finite T a = true -> finite T b = true -> SFleb a b = true ->
  finite T (SFsub (prec T) (emax T) b a) = true ->
  finite T (uniform_real_distribution T a b g).1 = true
  /\ SFleb a (uniform_real_distribution T a b g).1 = true
  /\ SFleb (uniform_real_distribution T a b g).1 b = true.
Proof.
  intros Ha%finite_spec Hb%finite_spec Hab Hfin.
  pose proof (prec_pos T) as Hp. pose proof (prec_lt_emax T) as He.
  apply (SFleb_val (prec T) (emax T)) in Hab; [|done..].
  unfold uniform_real_distribution.
  pose proof (_Adaptor_range T g) as [Hu Hur].
  destruct (_Adaptor T g) as [u g']. cbn [fst snd] in *.
  cbn [real_add real_mul real_sub floating].
  destruct (scaled_difference T u a b Hu Hur Ha Hb Hab Hfin) as [Hf Hr].
  destruct (SFadd_between (prec T) (emax T) Hp He
              (SFmul (prec T) (emax T) u (SFsub (prec T) (emax T) b a)) a a b)
    as [Hv Hvr]; try done; [lra|].
  split_and!.
  - by apply finite_spec.
  - apply (SFleb_val (prec T) (emax T)); [done..|lra].
  - apply (SFleb_val (prec T) (emax T)); [done..|lra].
Qed.

End uniform_real_distribution_facts.

(** * The real distributions on the IEEE formats *)

Module uniform_real_facts.
Import IEEE IEEE_facts.

Lemma finite_false_cases T f :
  finite T f = false ->
  f = S754_nan \/ (exists s, f = S754_infinity s)
  \/ exists s m e, f = S754_finite s m e /\ SpecFloat.bounded (prec T) (emax T) m e = false.
Proof. destruct f as [s|s| |s m e]; cbn [finite]; intros H; try done; eauto 8. Qed.

Lemma SFltb_val p e f1 f2 :
  finite_ok p e f1 -> finite_ok p e f2 -> (SFltb f1 f2 = true <-> (val f1 < val f2)%R).
Proof.
  intros H1 H2. pose proof (SFcompare_val p e f1 f2 H1 H2) as H. unfold SFltb.
  destruct (SFcompare f1 f2) as [[]|]; [| | |done]; split; (done || lra).
Qed.

(** The difference of two numbers of the type is a number or an infinity. *)
Lemma SFsub_overflow T a b :
  finite T a = true -> finite T b = true ->
  finite T (SFsub (prec T) (emax T) b a) = false ->
  exists s, SFsub (prec T) (emax T) b a = S754_infinity s.
Proof.
  intros Ha Hb. pose proof (prec_pos T) as Hp.
  destruct b as [sb| | |sb mb eb], a as [sa| | |sa ma ea]; try done.
  - by destruct sb, sa.
  - cbn [SFsub finite] in *. congruence.
  - cbn [SFsub finite] in *. congruence.
  - cbn [SFsub]. set (z := _ - _). set (ez := Z.min eb ea). clearbody z.
    assert (Hs : forall s m, shaped (prec T) (emax T) s (binary_round (prec T) (emax T) s m ez)).
    { intros s m.
      destruct (binary_round_spec (prec T) (emax T) s m ez) as (M' & E' & HM & Hc & _ & _ & ->).
      apply binary_round_aux_shaped; [done|lia|done]. }
    destruct z as [|p|p]; cbn [binary_normalize]; [done| |].
    + specialize (Hs false p). destruct (binary_round _ _ false p ez) as [s|s| |s m e];
        cbn [shaped finite] in *; try done; [eauto|]. destruct Hs. congruence.
    + specialize (Hs true p). destruct (binary_round _ _ true p ez) as [s|s| |s m e];
        cbn [shaped finite] in *; try done; [eauto|]. destruct Hs. congruence.
Qed.

(** When the difference of the bounds is an infinity, the distribution
    returns an infinity or a NaN, which is not between the bounds. *)
Lemma operator_call_overflow T a b g :
  finite T a = true -> finite T b = true ->
  finite T (SFsub (prec T) (emax T) b a) = false ->
  finite T (uniform_real_distribution T a b g).1 = false
  /\ SFleb a (uniform_real_distribution T a b g).1
     && SFleb (uniform_real_distribution T a b g).1 b = false.
Proof.
  intros Ha Hb Hd. destruct (SFsub_overflow T a b Ha Hb Hd) as [s Hs].
  unfold uniform_real_distribution. destruct (_Adaptor T g) as [u g']. cbn [fst].
  cbn [real_add real_mul real_sub floating]. rewrite Hs.
  destruct u as [su|su| |su mu eu], a as [sa| | |sa ma ea], b as [sb| | |sb mb eb];
    try done; cbn [SFmul SFadd]; split; try done;
    destruct su, s; try done; cbn [xorb SFleb SFcompare andb];
    try destruct sa; try destruct sb; done.
Qed.

End uniform_real_facts.

Module unit_interval.
Import IEEE IEEE_facts uniform_real_facts.

(** Between 0 and 1 the distribution returns the canonical value itself,
    which is below 1. *)
Lemma operator_call_unit T g :
  finite T (uniform_real_distribution T (real_of_Z T 0) (real_of_Z T 1) g).1 = true
  /\ real_leb (real_of_Z T 0)
       (uniform_real_distribution T (real_of_Z T 0) (real_of_Z T 1) g).1 = true
  /\ real_ltb (uniform_real_distribution T (real_of_Z T 0) (real_of_Z T 1) g).1
       (real_of_Z T 1) = true.
Proof.
  cbn [real_of_Z real_leb real_ltb floating].
  pose proof (prec_pos T) as Hp. pose proof (prec_lt_emax T) as He.
  destruct (one_val T) as [H1 V1].
  unfold uniform_real_distribution.
  pose proof (_Adaptor_range T g) as [Hu [Hu0 Hu1]].
  destruct (_Adaptor T g) as [u g']. cbn [fst snd] in *.
  cbn [real_add real_mul real_sub real_of_Z floating].
  assert (Hd : SFsub (prec T) (emax T) (of_Z T 1) (of_Z T 0) = of_Z T 1).
  { rewrite zero_val. destruct (of_Z T 1) as [[]|[]| |]; done. }
  rewrite Hd.
  destruct (repr_val (prec T) (emax T) Hp He u Hu Hu0) as (q & e & Hq & Hcq & Heq & Hv).
  destruct (SFmul_le (prec T) (emax T) Hp He u (of_Z T 1) q e) as [Hf Hr]; try done.
  { rewrite V1. lra. }
  { left. rewrite V1, <- Hv. lra. }
  rewrite <- Hv in Hr.
  assert (H0 : finite_ok (prec T) (emax T) (of_Z T 0)) by (by rewrite zero_val).
  destruct (SFadd_between (prec T) (emax T) Hp He
              (SFmul (prec T) (emax T) u (of_Z T 1)) (of_Z T 0)
              (of_Z T 0) (SFmul (prec T) (emax T) u (of_Z T 1)))
    as [Hv' Hvr]; try done.
  { rewrite zero_val. cbn [val]. lra. }
  pose proof (bpow_pos (- prec T)).
  split_and!.
  - by apply finite_spec.
  - apply (SFleb_val (prec T) (emax T)); [done..|lra].
  - apply (SFltb_val (prec T) (emax T)); [done..|]. rewrite V1. lra.
Qed.

End unit_interval.

Lemma with_engine_Returns {A} this (f : mt19937.state -> option (A * mt19937.state)) w x w' :
  with_engine this f w = Returns x w' ->
  exists l e e', owns w this l e /\ f e = Some (x, e')
    /\ w' = set_heap (<[l := e']> (heap w)) w.
Proof.
  unfold with_engine. destruct (objects w !! this) as [[[l|]]|] eqn:Ho; [|done..].
  destruct (heap w !! l) as [e|] eqn:Hh; [|done].
  destruct (f e) as [[x' e']|] eqn:E; [|done].
  intros H. injection H as -> <-. by exists l, e, e'.
Qed.

(** The same for a call that cannot run out of fuel. *)
Lemma with_engine_total {A} this (f : mt19937.state -> A * mt19937.state) w x w' :
  with_engine this (fun e => Some (f e)) w = Returns x w' ->
  exists l e, owns w this l e /\ x = (f e).1
    /\ w' = set_heap (<[l := (f e).2]> (heap w)) w.
Proof.
  intros (l & e & e' & Ho & Hf & ->)%with_engine_Returns.
  exists l, e. split; [done|]. revert Hf. generalize (f e). intros [y e2] [= -> ->]. done.
Qed.

Import IEEE.

(** X1. [uniform_real] on numbers [low <= high] of the type whose difference
    [high - low] is again a number of the type (it does not overflow): what
    is returned is a number of the type in the closed interval from [low] to
    [high]. *)
Theorem uniform_real_stays_within (T : RealT) (this : name)
    (low high v : spec_float) (w w1 : World) :
  finite T low = true -> finite T high = true -> real_leb low high = true ->
  finite T (real_sub T high low) = true ->
  uniform_real T this low high w = Returns v w1 ->
  finite T v = true /\ real_leb low v = true /\ real_leb v high = true.
Proof.
  intros Hl Hh Hle Hd Hr. unfold uniform_real in Hr.
  apply with_engine_total in Hr as (l & e & _ & -> & _).
  exact (uniform_real_distribution_facts.operator_call_range T low high e Hl Hh Hle Hd).
Qed.

(** X2. [uniform_real] on numbers of the type whose difference overflows: what
    is returned is an infinity or a NaN, and is not in the interval. *)
Theorem uniform_real_overflows (T : RealT) (this : name)
    (low high v : spec_float) (w w1 : World) :
  finite T low = true -> finite T high = true ->
  finite T (real_sub T high low) = false ->
  uniform_real T this low high w = Returns v w1 ->
  finite T v = false /\ real_leb low v && real_leb v high = false.
Proof.
  intros Hl Hh Hd Hr. unfold uniform_real in Hr.
  apply with_engine_total in Hr as (l & e & _ & -> & _).
  exact (uniform_real_facts.operator_call_overflow T low high e Hl Hh Hd).
Qed.

(** X3. [uniform_probability] returns a number that is at least 0 and less
    than 1: it never returns 1. *)
Theorem uniform_probability_below_one (this : name) (p : spec_float) (w w1 : World) :
  uniform_probability this w = Returns p w1 ->
  finite Double p = true
  /\ real_leb (real_of_Z Double 0) p = true
  /\ real_ltb p (real_of_Z Double 1) = true.
Proof.
  intros Hr. unfold uniform_probability in Hr.
  apply with_engine_total in Hr as (l & e & _ & -> & _).
  exact (unit_interval.operator_call_unit Double e).
Qed.

(** * What sampling does to the engine *)

Section real_distributions.
Context {real : Type} {FP : Floating real}.

(** [generate_canonical] draws [k] words, whatever it computes from them. *)
Lemma canonical_loop_discard T k : forall (sum tmp : real) g,
  (canonical_loop T k sum tmp g).2 = mt19937.discard k g.
Proof.
  induction k as [|k IH]; intros sum tmp g; cbn [canonical_loop mt19937.discard]; [done|].
  destruct (mt19937.operator_call g) as [v g']. cbn [snd]. apply IH.
Qed.

Lemma _Adaptor_discard T g :
  (_Adaptor (real := real) T g).2 = mt19937.discard (canonical_m T (real_digits T)) g.
Proof.
  unfold _Adaptor, generate_canonical.
  pose proof (canonical_loop_discard T (canonical_m T (real_digits T))
                (real_of_Z T 0) (real_of_Z T 1) g) as H.
  destruct (canonical_loop T _ _ _ g) as [[sum tmp] g']. done.
Qed.

Lemma uniform_real_distribution_discard T (a b : real) g :
  (uniform_real_distribution T a b g).2 = mt19937.discard (canonical_m T (real_digits T)) g.
Proof.
  unfold uniform_real_distribution. pose proof (_Adaptor_discard T g) as H.
  destruct (_Adaptor T g) as [u g']. done.
Qed.

Lemma _Adaptor_wf T g :
  mt19937.wf g = true -> mt19937.wf (_Adaptor (real := real) T g).2 = true.
Proof. intros H. rewrite _Adaptor_discard. by apply discard_wf. Qed.

Lemma polar_loop_wf fuel T : forall g (x y r2 : real) g',
  mt19937.wf g = true -> polar_loop fuel T g = Some (x, y, r2, g') ->
  mt19937.wf g' = true.
Proof.
  induction fuel as [|fuel IH]; intros g x y r2 g' Hg; cbn [polar_loop]; [done|].
  pose proof (_Adaptor_wf T g Hg) as H1.
  destruct (_Adaptor T g) as [u1 g1]. cbn [snd] in H1.
  pose proof (_Adaptor_wf T g1 H1) as H2.
  destruct (_Adaptor T g1) as [u2 g2]. cbn [snd] in H2.
  destruct (_ || _).
  - by apply IH.
  - intros [= _ _ _ <-]. done.
Qed.

(** Each kind of sampling call leaves the engine within its invariant. *)
Lemma engine_call_wf fuel (c : call real) e v e' :
  mt19937.wf e = true -> engine_call fuel c e = Some (v, e') -> mt19937.wf e' = true.
Proof.
  intros He. destruct c as [T lo hi|T lo hi| |mean sigma]; cbn [engine_call].
  - destruct (uniform_int_distribution.operator_call fuel T lo hi e) as [[x e1]|] eqn:E; [|done].
    cbn [mbind option_bind]. intros [= _ <-]. revert E.
    (* the bounds do not matter for the engine: follow the code *)
    clear v. revert T lo hi e x e1 He.
    induction fuel as [|fuel IH]; intros T lo hi e x e1 He;
      cbn [uniform_int_distribution.operator_call].
    + destruct (_ >? _).
      { unfold uniform_int_distribution._S_nd.
        destruct (mt19937.operator_call e) as [d g1] eqn:Ed.
        pose proof (operator_call_wf e He) as [_ Hg1]. rewrite Ed in Hg1. cbn [snd] in Hg1.
        destruct (_ <? _).
        - cbn [uniform_int_distribution._S_nd_loop].
          destruct (_ <? _); [done|]. cbn. intros [= _ <-]. done.
        - cbn. intros [= _ <-]. done. }
      destruct (_ <? _); [done|].
      destruct (mt19937.operator_call e) as [d g1] eqn:Ed.
      pose proof (operator_call_wf e He) as [_ Hg1]. rewrite Ed in Hg1. cbn [snd] in Hg1.
      cbn. intros [= _ <-]. done.
    + destruct (_ >? _).
      { unfold uniform_int_distribution._S_nd.
        destruct (mt19937.operator_call e) as [d g1] eqn:Ed.
        pose proof (operator_call_wf e He) as [Hd Hg1]. rewrite Ed in Hd, Hg1.
        cbn [fst snd] in Hd, Hg1.
        destruct (_ <? _).
        - destruct (uniform_int_distribution._S_nd_loop _ _ _ _ _) as [[p' g2]|] eqn:EL; [|done].
          apply uniform_int_distribution_facts._S_nd_loop_spec in EL as [_ Hg2];
            [|done|by exists d].
          cbn. intros [= _ <-]. done.
        - cbn. intros [= _ <-]. done. }
      destruct (_ <? _).
      * destruct (uniform_int_distribution.upscale_loop _ _ _ _) as [[r g1]|] eqn:EU; [|done].
        cbn. intros [= _ <-].
        clear -EU IH He. revert e He EU.
        generalize (uniform_int_distribution.uctype
                      (uniform_int_distribution.uctype hi - uniform_int_distribution.uctype lo)).
        intros urange.
        generalize (int_cast T 0), (int_cast T (urange / uniform_int_distribution.uctype
                      (uniform_int_distribution.urngrange + 1))). intros lo' hi'.
        assert (Hinner : forall g1 h g2, mt19937.wf g1 = true ->
                  uniform_int_distribution.operator_call fuel T lo' hi' g1 = Some (h, g2) ->
                  mt19937.wf g2 = true) by (intros; eapply IH; eauto).
        revert Hinner.
        generalize (uniform_int_distribution.operator_call fuel T lo' hi'). intros inner Hinner.
        generalize fuel at 1. intros n. revert r.
        induction n as [|n IHn]; intros r e He; cbn [uniform_int_distribution.upscale_loop]; [done|].
        destruct (inner e) as [[h g2]|] eqn:EI; [|done]. cbn [mbind option_bind].
        pose proof (Hinner _ _ _ He EI) as Hg2.
        destruct (mt19937.operator_call g2) as [d g3] eqn:Ed.
        pose proof (operator_call_wf g2 Hg2) as [_ Hg3]. rewrite Ed in Hg3. cbn [snd] in Hg3.
        destruct (_ || _); [by apply IHn|]. intros [= _ <-]. done.
      * destruct (mt19937.operator_call e) as [d g1] eqn:Ed.
        pose proof (operator_call_wf e He) as [_ Hg1]. rewrite Ed in Hg1. cbn [snd] in Hg1.
        cbn. intros [= _ <-]. done.
  - pose proof (uniform_real_distribution_discard T lo hi e) as H.
    destruct (uniform_real_distribution T lo hi e) as [x e1]. cbn [snd] in H.
    intros [= _ <-]. rewrite H. by apply discard_wf.
  - pose proof (uniform_real_distribution_discard Double (real_of_Z Double 0)
                  (real_of_Z Double 1) e) as H.
    destruct (uniform_real_distribution Double _ _ e) as [x e1]. cbn [snd] in H.
    intros [= _ <-]. rewrite H. by apply discard_wf.
  - unfold normal_distribution_call, normal_distribution_construct.
    cbn [_M_saved_available].
    destruct (polar_loop fuel Double e) as [[[[x y] r2] g1]|] eqn:EP; [|done].
    apply polar_loop_wf in EP; [|done]. cbn. intros [= _ <-]. done.
Qed.

End real_distributions.

Lemma valid_set_heap w l e' other :
  mt19937.wf e' = true -> valid w other = true ->
  valid (set_heap (<[l := e']> (heap w)) w) other = true.
Proof.
  intros He (l2 & e2 & [Ho Hh] & Hwf)%valid_owns. apply valid_owns.
  destruct (decide (l2 = l)) as [->|Hne].
  - exists l, e'. split; [|done]. split; [done|]. cbn [set_heap heap]. apply lookup_insert_eq.
  - exists l2, e2. split; [|done]. split; [done|]. cbn [set_heap heap].
    by rewrite lookup_insert_ne.
Qed.

Section sampling_invariants.
Context {real : Type} {FP : Floating real}.

(** X6. A sampling call that returns, and [seed], leave every valid generator
    valid: the one they are called on and all the others. *)
Theorem sampling_keeps_generators_valid (fuel : nat) (this other : name)
    (c : call real) (sd : Z) (w : World) :
  valid w this = true -> valid w other = true ->
  (forall v w', do_call fuel this c w = Returns v w' -> valid w' other = true)
  /\ (forall w', seed this sd w = Returns tt w' -> valid w' other = true).
Proof.
  intros (l & e & Ho & Hwf)%valid_owns Hother. split.
  - intros v w'. rewrite (do_call_owns fuel w this l e c Ho).
    destruct (engine_call fuel c e) as [[v' e']|] eqn:E; [|done]. intros [= _ <-].
    apply valid_set_heap; [|done]. by eapply engine_call_wf.
  - intros w'. rewrite (seed_spec this sd w l e Ho Hwf). intros [= <-].
    apply valid_set_heap; [|done]. apply construct_wf.
Qed.

(** X4. [uniform_real] and [uniform_probability] take a fixed number of words
    from the engine, whatever the bounds: one for [float], two for [double]
    and [long double].  Nothing else in the world changes. *)
Theorem uniform_real_draws (T : RealT) (this : name) (low high : real)
    (w : World) (l : loc) (e : mt19937.state) :
  owns w this l e ->
  (exists x, uniform_real T this low high w
     = Returns x (set_heap (<[l := mt19937.discard (match T with Float => 1 | _ => 2 end) e]>
                              (heap w)) w))
  /\ (exists p, uniform_probability this w
        = Returns p (set_heap (<[l := mt19937.discard 2 e]> (heap w)) w)).
Proof.
  intros Ho. split.
  - unfold uniform_real. rewrite (with_engine_owns w this l e) by done.
    pose proof (uniform_real_distribution_discard T low high e) as H.
    destruct (uniform_real_distribution T low high e) as [y e']. cbn [snd] in H.
    exists y. rewrite H. by destruct T.
  - unfold uniform_probability. rewrite (with_engine_owns w this l e) by done.
    pose proof (uniform_real_distribution_discard Double (real_of_Z Double 0)
                  (real_of_Z Double 1) e) as H.
    destruct (uniform_real_distribution Double _ _ e) as [y e']. cbn [snd] in H.
    exists y. by rewrite H.
Qed.

(** X5. [normal_real] scales a draw that does not depend on its arguments: with
    other arguments the same call returns the same standard value, scaled
    and shifted, and leaves the same world. *)
Theorem normal_real_scales (fuel : nat) (this : name) (mean sigma x : real)
    (w w' : World) :
  normal_real fuel this mean sigma w = Returns x w' ->
  exists z,
    x = real_add Double (real_mul Double z sigma) mean
    /\ forall mean' sigma',
         normal_real fuel this mean' sigma' w
         = Returns (real_add Double (real_mul Double z sigma') mean') w'.
Proof.
  unfold normal_real, with_engine.
  destruct (objects w !! this) as [[[l|]]|]; [|done..].
  destruct (heap w !! l) as [e|]; [|done].
  unfold normal_distribution_call, normal_distribution_construct.
  cbn [_M_saved_available _M_stddev _M_mean].
  destruct (polar_loop fuel Double e) as [[[[px py] r2] g1]|]; [|done].
  cbn [mbind option_bind]. intros [= <- <-].
  eexists. split; [reflexivity|]. intros mean' sigma'. reflexivity.
Qed.

End sampling_invariants.

(** * Ranges of a power of two *)

Module power_of_two.
Import uniform_int_distribution uniform_int_distribution_facts.

(** With a threshold of 0 the rejection loop of [_S_nd] does not draw. *)
Lemma _S_nd_loop_0 fuel g range product :
  _S_nd_loop fuel g range 0 product = Some (product, g).
Proof.
  assert (H : (product mod 2 ^ 32 <? 0) = false).
  { apply Z.ltb_ge. apply Z.mod_pos_bound. lia. }
  destruct fuel; cbn [_S_nd_loop]; by rewrite H.
Qed.

Lemma top_bits v k :
  0 <= v < 2 ^ 32 -> 0 <= k <= 32 ->
  Z.shiftr ((v * 2 ^ k) mod 2 ^ 64) 32 mod 2 ^ 32 = Z.shiftr v (32 - k)
  /\ 0 <= Z.shiftr v (32 - k) < 2 ^ k.
Proof.
  intros Hv Hk. rewrite !Z.shiftr_div_pow2 by lia.
  assert (Hp : 0 < 2 ^ k) by (apply Z.pow_pos_nonneg; lia).
  assert (Hq : 0 < 2 ^ (32 - k)) by (apply Z.pow_pos_nonneg; lia).
  assert (E : 2 ^ 32 = 2 ^ (32 - k) * 2 ^ k).
  { rewrite <- Z.pow_add_r by lia. f_equal. lia. }
  assert (Hle : 2 ^ k <= 2 ^ 32) by (apply Z.pow_le_mono_r; lia).
  assert (Hprod : 0 <= v * 2 ^ k < 2 ^ 64).
  { change (2 ^ 64) with (2 ^ 32 * 2 ^ 32). nia. }
  rewrite (Z.mod_small (v * 2 ^ k)) by done.
  assert (D : v * 2 ^ k / 2 ^ 32 = v / 2 ^ (32 - k)).
  { rewrite E. apply Z.div_mul_cancel_r; lia. }
  rewrite D.
  assert (B : 0 <= v / 2 ^ (32 - k) < 2 ^ k).
  { split; [apply Z.div_pos; lia|]. apply Z.div_lt_upper_bound; lia. }
  split; [|done]. apply Z.mod_small. lia.
Qed.

(** A range of [2^k] values, [k] from 0 to 32: one draw, no rejection, the
    [k] high bits of the word. *)
Lemma operator_call_power_of_two fuel T k a g :
  mt19937.wf g = true -> 0 <= k <= 32 ->
  int_min T <= a -> a + 2 ^ k - 1 <= int_max T ->
  operator_call fuel T a (a + 2 ^ k - 1) g
  = Some (a + Z.shiftr (mt19937.operator_call g).1 (32 - k), (mt19937.operator_call g).2).
Proof.
  intros Hg Hk Ha Hb.
  assert (Hp : 0 < 2 ^ k) by (apply Z.pow_pos_nonneg; lia).
  pose proof (operator_call_wf g Hg) as [[Hv0 Hv1] _].
  change (2 ^ mt19937.word_size) with (2 ^ 32) in Hv1.
  destruct (top_bits (mt19937.operator_call g).1 k ltac:(done) Hk) as [Htop Hr].
  assert (Hres : int_cast T (uctype (Z.shiftr (mt19937.operator_call g).1 (32 - k) + uctype a))
                 = a + Z.shiftr (mt19937.operator_call g).1 (32 - k))
    by (apply result_eq; lia).
  assert (Hu : uctype (uctype (a + 2 ^ k - 1) - uctype a) = 2 ^ k - 1).
  { rewrite (urange_eq T) by lia. lia. }
  assert (Hle : 2 ^ k <= 2 ^ 32) by (apply Z.pow_le_mono_r; lia).
  destruct (Z.eq_dec k 32) as [->|Hne].
  - assert (E1 : (urngrange >? 2 ^ 32 - 1) = false) by done.
    assert (E2 : (urngrange <? 2 ^ 32 - 1) = false) by done.
    destruct fuel; cbn [operator_call]; rewrite Hu, E1, E2;
      destruct (mt19937.operator_call g) as [v g1]; cbn [fst snd] in *;
      change (32 - 32) with 0 in *; rewrite Z.shiftr_0_r in *;
      (assert (Ev : uctype (uctype v - urngmin) = v)
         by (unfold uctype, urngmin, mt19937.min; rewrite Z.sub_0_r, Z.mod_mod by lia;
             apply Z.mod_small; lia));
      rewrite Ev, Hres; done.
  - assert (Hlt : 2 ^ k <= 2 ^ 31) by (apply Z.pow_le_mono_r; lia).
    assert (E1 : (urngrange >? 2 ^ k - 1) = true).
    { rewrite Z.gtb_ltb. apply Z.ltb_lt. rewrite urngrange_eq. lia. }
    assert (E3 : uctype (2 ^ k - 1 + 1) mod 2 ^ 32 = 2 ^ k).
    { replace (2 ^ k - 1 + 1) with (2 ^ k) by lia. unfold uctype.
      rewrite (Z.mod_small (2 ^ k) (2 ^ 64)) by lia. apply Z.mod_small. lia. }
    assert (E4 : ((- 2 ^ k) mod 2 ^ 32) mod 2 ^ k = 0).
    { assert (E : 2 ^ 32 = 2 ^ (32 - k) * 2 ^ k).
      { rewrite <- Z.pow_add_r by lia. f_equal. lia. }
      rewrite E. rewrite Z.mul_comm, Z.mod_mod_divide by (by exists (2 ^ (32 - k)); lia).
      apply Z.mod_divide; [lia|]. exists (-1). lia. }
    assert (HS : forall fl, _S_nd fl g (2 ^ k)
                 = Some (Z.shiftr (mt19937.operator_call g).1 (32 - k),
                         (mt19937.operator_call g).2)).
    { intros fl. unfold _S_nd. rewrite E4.
      destruct (mt19937.operator_call g) as [v g1]. cbn [fst snd] in *.
      destruct (_ <? _).
      - rewrite _S_nd_loop_0. cbn [mbind option_bind]. by rewrite Htop.
      - by rewrite Htop. }
    destruct fuel; cbn [operator_call]; rewrite Hu, E1, E3, HS;
      cbn [fmap option_fmap option_map fst snd]; by rewrite Hres.
Qed.

End power_of_two.

(** X7. [uniform_int] over [2^k] values, [k] from 0 to 32 (one value, a coin,
    a byte, ..., all of a 32-bit type): it returns for every fuel, after
    one draw from the engine, [low] plus the [k] high bits of the word
    drawn. *)
Theorem uniform_int_power_of_two (T : IntegerT) (k low : Z) (this : name)
    (w : World) (fuel : nat) (l : loc) (e : mt19937.state) :
  owns w this l e -> mt19937.wf e = true ->
  0 <= k <= 32 -> int_min T <= low -> low + 2 ^ k - 1 <= int_max T ->
  uniform_int fuel T this low (low + 2 ^ k - 1) w
  = Returns (low + Z.shiftr (mt19937.operator_call e).1 (32 - k))
      (set_heap (<[l := (mt19937.operator_call e).2]> (heap w)) w).
Proof.
  intros Ho Hwf Hk Hlo Hhi. unfold uniform_int.
  rewrite (with_engine_owns w this l e) by done.
  by rewrite (power_of_two.operator_call_power_of_two fuel T k low e).
Qed.

(** * Moved-from objects, assignment, swap, destruction *)

(** Dereferencing a null [engine]. *)
Lemma with_engine_null {A} this (f : mt19937.state -> option (A * mt19937.state)) w :
  objects w !! this = Some {| engine := None |} -> with_engine this f w = Undefined.
Proof. intros H. unfold with_engine. by rewrite H. Qed.

Lemma RandomTwister_move_returns this other w w' :
  RandomTwister_move this other w = Returns tt w' ->
  this ≠ other /\ objects w !! this = None
  /\ exists r, objects w !! other = Some r
       /\ w' = set_objects (<[this := r]> (<[other := {| engine := None |}]> (objects w))) w.
Proof.
  unfold RandomTwister_move.
  destruct (objects w !! this) as [rt|] eqn:Ht; [done|].
  destruct (objects w !! other) as [ro|] eqn:Ho; [|done].
  intros [= <-]. split_and!; [congruence|done|].
  exists ro. by rewrite RandomTwister_eta.
Qed.

Section ownership.
Context {real : Type} {FP : Floating real}.

Lemma do_call_null fuel this (c : call real) w :
  objects w !! this = Some {| engine := None |} -> do_call fuel this c w = Undefined.
Proof.
  intros H. destruct c; cbn [do_call];
    unfold uniform_int, uniform_real, uniform_probability, normal_real;
    by rewrite with_engine_null.
Qed.

(** X8. After [RandomTwister fresh(std::move(src))] the source holds the null
    pointer: every sampling call on it and [seed] dereference it, which is
    undefined behaviour; destroying it is fine and deletes nothing. *)
Theorem moved_from_cannot_sample (this other : name) (w w' : World) :
  RandomTwister_move this other w = Returns tt w' ->
  (forall fuel (c : call real), do_call fuel other c w' = Undefined)
  /\ (forall sd, seed other sd w' = Undefined)
  /\ RandomTwister_destroy other w'
     = Returns tt (set_objects (delete other (objects w')) w').
Proof.
  intros (Hne & Ht & r & Ho & ->)%RandomTwister_move_returns.
  assert (Hnull : objects (set_objects (<[this := r]> (<[other := {| engine := None |}]>
                    (objects w))) w) !! other = Some {| engine := None |}).
  { cbn [set_objects objects]. rewrite lookup_insert_ne by done. apply lookup_insert_eq. }
  split_and!.
  - intros fuel c. by apply do_call_null.
  - intros sd. unfold seed. by apply with_engine_null.
  - unfold RandomTwister_destroy. rewrite Hnull. done.
Qed.

(** X9. Constructing a generator, sampling from it and destroying it leaves the
    world as it was before the construction: the engine's storage is
    returned, nothing else has changed. *)
Theorem destruction_returns_the_storage (this : name) (sd : Z) (fuel : nat)
    (cs : list (call real)) (vs : list (sample real)) (w w1 w2 : World) :
  RandomTwister_seed this sd w = Returns tt w1 ->
  run fuel this cs w1 = Returns vs w2 ->
  RandomTwister_destroy this w2 = Returns tt w.
Proof.
  intros H1 H2.
  assert (Hnone : objects w !! this = None).
  { unfold RandomTwister_seed in H1. by destruct (objects w !! this). }
  pose proof (RandomTwister_seed_spec this sd w Hnone) as Hs.
  destruct (free_store w) as [|n] eqn:Hn; rewrite Hs in H1; [done|].
  injection H1 as <-.
  rewrite (run_owns fuel this _ cs _ _ (constructed_owns this sd n w)) in H2.
  destruct (engine_run fuel cs _) as [[vs' e']|]; [|done]. injection H2 as _ <-.
  assert (Hfresh : heap w !! fresh (dom (heap w)) = None)
    by (apply not_elem_of_dom, is_fresh).
  unfold RandomTwister_destroy, constructed.
  cbn [set_heap heap objects free_store entropy].
  rewrite lookup_insert_eq. cbn [engine operator_delete set_heap heap objects free_store entropy].
  cbn [set_heap heap objects free_store entropy]. rewrite lookup_insert_eq. cbn [and_then set_objects heap objects free_store entropy].
  unfold set_objects. cbn [heap objects free_store entropy]. rewrite !delete_insert_eq, !delete_id by done.
  rewrite <- Hn. f_equal. apply World_eta.
Qed.

End ownership.

(** X10. [dst = std::move(src)] between two objects: the target takes what the
    source held, the source is left with the null pointer, and the engine
    the target had is deleted, its storage returned to the free store. *)
Theorem move_assignment_releases (dst src : name) (w : World) (ld : loc)
    (ed : mt19937.state) (rs : RandomTwister) :
  dst ≠ src -> owns w dst ld ed -> objects w !! src = Some rs ->
  operator_assign dst src w
  = Returns tt {| heap := delete ld (heap w);
                  objects := <[dst := rs]> (<[src := {| engine := None |}]> (objects w));
                  free_store := S (free_store w); entropy := entropy w |}.
Proof.
  intros Hne [Hd Hh] Hs. unfold operator_assign.
  set (temp := fresh (dom (objects w))).
  assert (Hnt : dst ≠ temp) by (by eapply fresh_name_ne).
  assert (Hno : src ≠ temp) by (by eapply fresh_name_ne).
  rewrite (RandomTwister_move_spec temp src w rs) by (done || apply fresh_name_None).
  cbn [and_then].
  erewrite swap_spec; cycle 1.
  { cbn [set_objects objects]. apply lookup_insert_eq. }
  { cbn [set_objects objects]. rewrite !lookup_insert_ne by done. exact Hd. }
  cbn [and_then]. unfold RandomTwister_destroy. cbn [set_objects objects heap free_store entropy].
  rewrite lookup_insert_ne by done. rewrite lookup_insert_eq.
  cbn [engine operator_delete set_objects heap objects free_store entropy]. rewrite Hh.
  cbn [and_then]. unfold set_objects. cbn [heap objects free_store entropy].
  f_equal. f_equal.
  apply map_eq. intros i. destruct (decide (i = temp)) as [->|Hi].
  - rewrite lookup_delete_eq, !lookup_insert_ne by done. symmetry. apply fresh_name_None.
  - rewrite lookup_delete_ne by done.
    destruct (decide (i = dst)) as [->|Hi'].
    + by rewrite !lookup_insert_eq.
    + rewrite (lookup_insert_ne _ dst) by done. rewrite (lookup_insert_ne _ temp) by done.
      rewrite (lookup_insert_ne _ temp) by done. by rewrite (lookup_insert_ne _ dst).
Qed.

(** X11. [swap]: the two objects exchange what they hold and nothing else
    changes, neither another object nor an engine, the free store or the
    random device; the member and the non-member function do the same, in
    either order of the arguments, and swapping twice restores the world. *)
Theorem swap_exchanges_engines (a b : name) (w : World) (ra rb : RandomTwister) :
  objects w !! a = Some ra -> objects w !! b = Some rb ->
  exists w',
    swap a b w = Returns tt w' /\ ntl_swap b a w = Returns tt w'
    /\ engine_of w' a = engine_of w b /\ engine_of w' b = engine_of w a
    /\ heap w' = heap w
    /\ swap a b w' = Returns tt w
    /\ objects w' !! a = Some rb /\ objects w' !! b = Some ra
    /\ (forall c, c <> a -> c <> b -> objects w' !! c = objects w !! c)
    /\ free_store w' = free_store w /\ entropy w' = entropy w.
Proof.
  intros Ha Hb.
  assert (Hsame : a = b -> ra = rb) by (intros ->; congruence).
  assert (Hla : (<[b := ra]> (<[a := rb]> (objects w))) !! a = Some rb).
  { destruct (decide (a = b)) as [->|Hab].
    - rewrite lookup_insert_eq. f_equal. by apply Hsame.
    - rewrite lookup_insert_ne by done. apply lookup_insert_eq. }
  eexists. split; [by apply swap_spec|]. split_and!.
  - unfold ntl_swap. rewrite (swap_spec b a w rb ra) by done. f_equal.
    unfold set_objects. f_equal. apply map_eq. intros i.
    destruct (decide (i = a)) as [Eia|Hia]; destruct (decide (i = b)) as [Eib|Hib]; subst;
      repeat (rewrite lookup_insert_eq || rewrite lookup_insert_ne by done); try done.
    by rewrite Hsame.
  - unfold engine_of. cbn [set_objects objects heap]. rewrite Hb.
    destruct (decide (a = b)) as [->|Hab].
    + rewrite lookup_insert_eq. assert (ra = rb) as -> by congruence. done.
    + rewrite lookup_insert_ne by done. by rewrite lookup_insert_eq.
  - unfold engine_of. cbn [set_objects objects heap]. by rewrite lookup_insert_eq, Ha.
  - done.
  - rewrite (swap_spec a b _ rb ra); [|exact Hla|apply lookup_insert_eq].
    f_equal. destruct w as [h o s d]. unfold set_objects. cbn [heap objects free_store entropy] in *.
    f_equal. apply map_eq. intros i.
    destruct (decide (i = a)) as [Eia|Hia]; destruct (decide (i = b)) as [Eib|Hib]; subst;
      repeat (rewrite lookup_insert_eq || rewrite lookup_insert_ne by done); try done.
  - exact Hla.
  - cbn [set_objects objects]. apply lookup_insert_eq.
  - intros c Hca Hcb. cbn [set_objects objects]. by rewrite !lookup_insert_ne.
  - done.
  - done.
Qed.

(** ** Unique ownership *)

Lemma unique_owner_alt w :
  unique_owner w <->
  forall a l, owner w a = Some l ->
    is_Some (heap w !! l) /\ forall b, owner w b = Some l -> a = b.
Proof.
  unfold unique_owner, owner. rewrite map_Forall_lookup. split.
  - intros H a l Ha. destruct (objects w !! a) as [ra|] eqn:Hra; [|done].
    cbn [mbind option_bind] in Ha. specialize (H a ra Hra). rewrite Ha in H.
    destruct H as [Hs Hu]. split; [done|]. intros b Hb.
    destruct (objects w !! b) as [rb|] eqn:Hrb; [|done]. cbn [mbind option_bind] in Hb.
    rewrite map_Forall_lookup in Hu. by apply (Hu b rb).
  - intros H a ra Hra. destruct (engine ra) as [l|] eqn:El; [|done].
    destruct (H a l) as [Hs Hu]; [by rewrite Hra|]. split; [done|].
    apply map_Forall_lookup. intros b rb Hrb Eb. apply Hu. by rewrite Hrb.
Qed.

(** Renaming the owners by an injective map keeps ownership unique. *)
Lemma unique_owner_renamed (pi : name -> name) w w' :
  (forall x y, pi x = pi y -> x = y) ->
  (forall x, owner w' x = owner w (pi x)) ->
  heap w' = heap w ->
  unique_owner w -> unique_owner w'.
Proof.
  intros Hinj Hown Hheap H. apply unique_owner_alt. intros a l Ha.
  rewrite Hown in Ha. destruct (proj1 (unique_owner_alt w) H _ _ Ha) as [Hs Hu].
  split; [by rewrite Hheap|]. intros b Hb. rewrite Hown in Hb. apply Hinj. by apply Hu.
Qed.

Lemma transpose_inj a b x y : transpose a b x = transpose a b y -> x = y.
Proof. unfold transpose. repeat case_decide; congruence. Qed.

Lemma owner_insert w o this r x :
  objects w = <[this := r]> o ->
  owner w x = if decide (x = this) then engine r else o !! x ≫= engine.
Proof.
  intros H. unfold owner. rewrite H. case_decide as E.
  - subst. by rewrite lookup_insert_eq.
  - by rewrite lookup_insert_ne.
Qed.

Lemma move_keeps_unique this other w w' :
  RandomTwister_move this other w = Returns tt w' -> unique_owner w -> unique_owner w'.
Proof.
  intros (Hne & Ht & r & Ho & ->)%RandomTwister_move_returns.
  apply (unique_owner_renamed (transpose this other)); [apply transpose_inj| |done].
  intros x. unfold owner, transpose. cbn [set_objects objects].
  repeat case_decide; subst.
  - rewrite lookup_insert_eq, Ho. done.
  - rewrite lookup_insert_ne by done. rewrite lookup_insert_eq, Ht. done.
  - by rewrite !lookup_insert_ne.
Qed.

Lemma swap_returns a b w w' :
  swap a b w = Returns tt w' ->
  exists ra rb, objects w !! a = Some ra /\ objects w !! b = Some rb
    /\ w' = set_objects (<[b := ra]> (<[a := rb]> (objects w))) w.
Proof.
  unfold swap. destruct (objects w !! a) as [ra|] eqn:Ha; [|done].
  destruct (objects w !! b) as [rb|] eqn:Hb; [|done].
  intros [= <-]. exists ra, rb. by rewrite !RandomTwister_eta.
Qed.

Lemma swap_keeps_unique a b w w' :
  swap a b w = Returns tt w' -> unique_owner w -> unique_owner w'.
Proof.
  intros (ra & rb & Ha & Hb & ->)%swap_returns.
  apply (unique_owner_renamed (transpose a b)); [apply transpose_inj| |done].
  intros x. unfold owner, transpose. cbn [set_objects objects].
  repeat case_decide; subst.
  - destruct (decide (a = b)) as [->|Hab].
    + rewrite lookup_insert_eq, Hb. congruence.
    + rewrite lookup_insert_ne by done. rewrite lookup_insert_eq, Hb. done.
  - by rewrite lookup_insert_eq, Ha.
  - by rewrite !lookup_insert_ne.
Qed.

Lemma destroy_keeps_unique this w w' :
  RandomTwister_destroy this w = Returns tt w' -> unique_owner w -> unique_owner w'.
Proof.
  unfold RandomTwister_destroy. destruct (objects w !! this) as [[p]|] eqn:Ht; [|done].
  cbn [engine]. intros Hr H. apply unique_owner_alt. intros a l Ha.
  pose proof (proj1 (unique_owner_alt w) H) as HP.
  assert (Hown : forall x w1, objects w1 = delete this (objects w) ->
            owner w1 x = if decide (x = this) then None else owner w x).
  { intros x w1 E. unfold owner. rewrite E. case_decide; subst.
    - by rewrite lookup_delete_eq.
    - by rewrite lookup_delete_ne. }
  destruct p as [lp|]; cbn [operator_delete] in Hr.
  - destruct (heap w !! lp) as [ep|] eqn:Hp; [|done]. cbn [and_then] in Hr.
    injection Hr as <-. rewrite Hown in Ha by done. case_decide as Eat; [done|].
    destruct (HP a l Ha) as [Hs Hu]. cbn [set_objects heap].
    assert (l ≠ lp).
    { intros ->. apply Eat. apply Hu. unfold owner. by rewrite Ht. }
    split; [by rewrite lookup_delete_ne|].
    intros b Hb. rewrite Hown in Hb by done. case_decide; [done|]. by apply Hu.
  - cbn [and_then] in Hr. injection Hr as <-. rewrite Hown in Ha by done.
    case_decide as Eat; [done|]. destruct (HP a l Ha) as [Hs Hu]. split; [done|].
    intros b Hb. rewrite Hown in Hb by done. case_decide; [done|]. by apply Hu.
Qed.

(** A new object that owns a new engine. *)
Lemma new_keeps_unique this l w w' :
  objects w !! this = None -> heap w !! l = None ->
  objects w' = <[this := {| engine := Some l |}]> (objects w) ->
  is_Some (heap w' !! l) ->
  (forall l', l' ≠ l -> heap w' !! l' = heap w !! l') ->
  unique_owner w -> unique_owner w'.
Proof.
  intros Ht Hl Ho Hs Hh H. apply unique_owner_alt. intros a l' Ha.
  pose proof (proj1 (unique_owner_alt w) H) as HP.
  assert (Hown : forall x, owner w' x = if decide (x = this) then Some l else owner w x).
  { intros x. by rewrite (owner_insert w' (objects w) this _ x Ho). }
  assert (Hfree : forall x, owner w x ≠ Some l).
  { intros x Hx. destruct (HP x l Hx) as [[e He] _]. congruence. }
  rewrite Hown in Ha. case_decide as Eat.
  - injection Ha as <-. split; [done|]. intros b Hb. rewrite Hown in Hb.
    case_decide; [congruence|]. by apply Hfree in Hb.
  - destruct (HP a l' Ha) as [Hs' Hu].
    assert (l' ≠ l) by (intros ->; by apply Hfree in Ha).
    split; [by rewrite Hh|]. intros b Hb. rewrite Hown in Hb.
    case_decide; [congruence|]. by apply Hu.
Qed.

Lemma set_heap_keeps_unique w l e e' :
  heap w !! l = Some e -> unique_owner w ->
  unique_owner (set_heap (<[l := e']> (heap w)) w).
Proof.
  intros Hl H. apply unique_owner_alt. intros a l' Ha.
  destruct (proj1 (unique_owner_alt w) H a l' Ha) as [Hs Hu]. split; [|done].
  cbn [set_heap heap]. destruct (decide (l' = l)) as [->|Hne].
  - by rewrite lookup_insert_eq.
  - by rewrite lookup_insert_ne.
Qed.

(** What the default constructor leaves when it returns. *)
Lemma RandomTwister_default_returns this w w' :
  RandomTwister_default this w = Returns tt w' ->
  objects w !! this = None
  /\ exists n v rest, free_store w = S n /\ entropy w = v :: rest
       /\ w' = {| heap := <[fresh (dom (heap w)) := mt19937.construct (result_type v)]> (heap w);
                  objects := <[this := {| engine := Some (fresh (dom (heap w))) |}]> (objects w);
                  free_store := n; entropy := rest |}.
Proof.
  unfold RandomTwister_default. destruct (objects w !! this) eqn:Ht; [done|].
  destruct (free_store w) as [|n] eqn:Hs.
  { unfold operator_new. by rewrite Hs. }
  destruct (operator_new_spec w n Hs) as [Hl ->]. cbn [and_then].
  unfold random_device. cbn [entropy heap objects free_store].
  destruct (entropy w) as [|v rest] eqn:He.
  { cbn [operator_delete and_then heap objects free_store entropy].
    by rewrite lookup_insert_eq. }
  cbn [heap objects free_store entropy]. rewrite lookup_insert_eq.
  assert (Es : mt19937.seed (result_type (v mod 2 ^ 32))
                 (mt19937.State (replicate mt19937.state_size 0) 0)
               = mt19937.construct (result_type v)).
  { unfold mt19937.construct. apply seed_result_type. apply Z.mod_mod. lia. }
  rewrite Es. unfold set_objects, set_heap. cbn [heap objects free_store entropy].
  rewrite insert_insert_eq. intros H. injection H as <-.
  split; [reflexivity|]. exists n, v, rest. split_and!; reflexivity.
Qed.

Section construction.
Context {real : Type} {FP : Floating real}.

(** X12. The default constructor takes one value from the random device and
    leaves a generator that answers every sequence of sampling calls as
    one constructed with that value as its seed. *)
Theorem default_construction_seeds_from_the_device (this : name) (w w' : World) :
  RandomTwister_default this w = Returns tt w' ->
  exists v rest,
    entropy w = v :: rest /\ entropy w' = rest /\ free_store w = S (free_store w')
    /\ forall b wb wb' fuel (cs : list (call real)),
         RandomTwister_seed b v wb = Returns tt wb' ->
         result_of (run fuel this cs w') = result_of (run fuel b cs wb').
Proof.
  intros (Ht & n & v & rest & Hs & He & ->)%RandomTwister_default_returns.
  exists v, rest. cbn [entropy free_store]. split_and!; [done..|].
  intros b wb wb' fuel cs [lb Hb]%RandomTwister_seed_returns.
  rewrite (run_engine_of fuel this cs _ (mt19937.construct (result_type v))).
  - rewrite (run_engine_of fuel b cs wb' (mt19937.construct (result_type v)))
      by (apply engine_of_owns; eauto).
    done.
  - apply engine_of_owns. eexists. split; cbn [objects heap]; apply lookup_insert_eq.
Qed.

(** X13. Every operation of the class that returns keeps ownership unique: no
    two objects hold the same engine, and an engine that is held is
    allocated. *)
Theorem ownership_stays_unique (w : World) :
  unique_owner w ->
  (forall this sd w', RandomTwister_seed this sd w = Returns tt w' -> unique_owner w')
  /\ (forall this w', RandomTwister_default this w = Returns tt w' -> unique_owner w')
  /\ (forall this other w',
        RandomTwister_move this other w = Returns tt w' -> unique_owner w')
  /\ (forall this other w',
        operator_assign this other w = Returns tt w' -> unique_owner w')
  /\ (forall a b w', swap a b w = Returns tt w' -> unique_owner w')
  /\ (forall this w', RandomTwister_destroy this w = Returns tt w' -> unique_owner w')
  /\ (forall fuel this (c : call real) v w',
        do_call fuel this c w = Returns v w' -> unique_owner w')
  /\ (forall this sd w', seed this sd w = Returns tt w' -> unique_owner w').
Proof.
  intros H.
  assert (Hfresh : heap w !! fresh (dom (heap w)) = None)
    by (apply not_elem_of_dom, is_fresh).
  split_and!.
  - intros this sd w' Hr.
    assert (Hnone : objects w !! this = None).
    { unfold RandomTwister_seed in Hr. by destruct (objects w !! this). }
    pose proof (RandomTwister_seed_spec this sd w Hnone) as Hs.
    destruct (free_store w) as [|n]; rewrite Hs in Hr; [done|]. injection Hr as <-.
    apply (new_keeps_unique this (fresh (dom (heap w))) w); try done.
    + cbn [constructed heap]. rewrite lookup_insert_eq. by eexists.
    + intros l' Hl'. cbn [constructed heap]. by rewrite lookup_insert_ne.
  - intros this w' (Ht & n & v & rest & Hs & He & ->)%RandomTwister_default_returns.
    apply (new_keeps_unique this (fresh (dom (heap w))) w); try done.
    + cbn [heap]. rewrite lookup_insert_eq. by eexists.
    + intros l' Hl'. cbn [heap]. by rewrite lookup_insert_ne.
  - intros this other w' Hr. by eapply move_keeps_unique.
  - intros this other w'. unfold operator_assign.
    destruct (RandomTwister_move _ other w) as [[] w1| | |] eqn:E1; [|done..].
    cbn [and_then].
    destruct (swap _ this w1) as [[] w2| | |] eqn:E2; [|done..].
    cbn [and_then]. intros E3.
    eapply destroy_keeps_unique; [exact E3|].
    eapply swap_keeps_unique; [exact E2|].
    by eapply move_keeps_unique.
  - intros a b w' Hr. by eapply swap_keeps_unique.
  - intros this w' Hr. by eapply destroy_keeps_unique.
  - intros fuel this c v w' Hr.
    assert (Hw : exists l e e', heap w !! l = Some e
              /\ w' = set_heap (<[l := e']> (heap w)) w).
    { destruct c; cbn [do_call] in Hr;
        unfold uniform_int, uniform_real, uniform_probability, normal_real in Hr;
        match type of Hr with
        | and_then ?o _ = _ => destruct o as [x wx| | |] eqn:E; [|done..]
        end;
        cbn [and_then] in Hr; injection Hr as _ <-;
        apply with_engine_Returns in E as (l & e & e' & [_ Hh] & _ & ->); eauto. }
    destruct Hw as (l & e & e' & Hh & ->). by eapply set_heap_keeps_unique.
  - intros this sd w' Hr. unfold seed in Hr.
    apply with_engine_Returns in Hr as (l & e & e' & [_ Hh] & _ & ->).
    by eapply set_heap_keeps_unique.
Qed.

End construction.

(** * The properties above on the example program *)

(** * Rejection loops

    When the loops of [std::uniform_int_distribution] and
    [std::normal_distribution] end, in terms of the words the engine
    delivers. *)

Module rejection.
Import uniform_int_distribution uniform_int_distribution_facts.

Lemma discard_snoc k : forall e,
  mt19937.discard (S k) e = (mt19937.operator_call (mt19937.discard k e)).2.
Proof.
  induction k as [|k IH]; intros e; [reflexivity|].
  change (mt19937.discard (S (S k)) e) with (mt19937.discard (S k) (mt19937.operator_call e).2).
  rewrite IH. reflexivity.
Qed.


Lemma operator_call_discard k e :
  mt19937.operator_call (mt19937.discard k e) = (output e k, mt19937.discard (S k) e).
Proof. rewrite discard_snoc. unfold output. by destruct (mt19937.operator_call _). Qed.

Lemma operator_call_output e :
  mt19937.operator_call e = (output e 0, mt19937.discard 1 e).
Proof. exact (operator_call_discard 0 e). Qed.

Lemma output_below k e : mt19937.wf e = true -> 0 <= output e k < 2 ^ 32.
Proof.
  intros He. unfold output.
  by destruct (operator_call_wf (mt19937.discard k e) (discard_wf k e He)) as [H _].
Qed.

Lemma forallb_seq (P : nat -> bool) n :
  forallb P (seq 0 n) = true <-> forall k, (k < n)%nat -> P k = true.
Proof.
  rewrite forallb_forall. split.
  - intros H k Hk. apply H. apply in_seq. lia.
  - intros H k Hk%in_seq. apply H. lia.
Qed.

Lemma low_half x : (x mod 2 ^ 64) mod 2 ^ 32 = x mod 2 ^ 32.
Proof.
  change (2 ^ 64) with (2 ^ 32 * 2 ^ 32).
  rewrite Z.mod_mod_divide; [done|]. by exists (2 ^ 32).
Qed.

Lemma rejected_eq range v :
  rejected range v
  = ((v * range) mod 2 ^ 64 mod 2 ^ 32 <? ((- range) mod 2 ^ 32) mod range).
Proof. unfold rejected. by rewrite low_half. Qed.

Lemma rejected_below range v :
  0 < range -> rejected range v = true -> (v * range) mod 2 ^ 64 mod 2 ^ 32 < range.
Proof.
  intros Hr. rewrite rejected_eq. intros H%Z.ltb_lt.
  pose proof (Z.mod_pos_bound ((- range) mod 2 ^ 32) range Hr). lia.
Qed.

Lemma rejected_whole v : rejected (2 ^ 32) v = false.
Proof.
  unfold rejected. change ((- 2 ^ 32) mod 2 ^ 32 mod 2 ^ 32) with 0.
  apply Z.ltb_ge. apply Z.mod_pos_bound. lia.
Qed.

Lemma _S_nd_loop_step fuel g range threshold product :
  _S_nd_loop (S fuel) g range threshold product
  = if product mod 2 ^ 32 <? threshold
    then _S_nd_loop fuel (mt19937.operator_call g).2 range threshold
           (((mt19937.operator_call g).1 * range) mod 2 ^ 64)
    else Some (product, g).
Proof. cbn [_S_nd_loop]. by destruct (mt19937.operator_call g). Qed.

Lemma _S_nd_loop_done fuel g range threshold product :
  (product mod 2 ^ 32 <? threshold) = false ->
  _S_nd_loop fuel g range threshold product = Some (product, g).
Proof. intros H. destruct fuel; cbn [_S_nd_loop]; by rewrite H. Qed.

(** The loop of [_S_nd] draws until a word is not rejected. *)
Lemma _S_nd_loop_accepts range g0 j : forall k fuel,
  (forall i, (k <= i < k + j)%nat -> rejected range (output g0 i) = true) ->
  rejected range (output g0 (k + j)) = false ->
  (j <= fuel)%nat ->
  _S_nd_loop fuel (mt19937.discard (S k) g0) range (((- range) mod 2 ^ 32) mod range)
    ((output g0 k * range) mod 2 ^ 64)
  = Some ((output g0 (k + j) * range) mod 2 ^ 64, mt19937.discard (S (k + j)) g0).
Proof.
  induction j as [|j IH]; intros k fuel Hrej Hacc Hfuel.
  - rewrite Nat.add_0_r in Hacc |- *. rewrite rejected_eq in Hacc.
    by apply _S_nd_loop_done.
  - destruct fuel as [|fuel]; [lia|]. rewrite _S_nd_loop_step.
    assert (Hk : rejected range (output g0 k) = true) by (apply Hrej; lia).
    rewrite rejected_eq in Hk. rewrite Hk.
    rewrite (operator_call_discard (S k) g0). cbn [fst snd].
    replace (k + S j)%nat with (S k + j)%nat in Hacc |- * by lia.
    apply (IH (S k) fuel); [|exact Hacc|lia]. intros i Hi. apply Hrej. lia.
Qed.

Lemma shift_product v range :
  0 <= v < 2 ^ 32 -> 0 < range <= 2 ^ 32 ->
  Z.shiftr ((v * range) mod 2 ^ 64) 32 mod 2 ^ 32 = Z.shiftr (v * range) 32
  /\ 0 <= Z.shiftr (v * range) 32 < range.
Proof.
  intros Hv Hr. rewrite !Z.shiftr_div_pow2 by lia.
  assert (0 <= v * range < 2 ^ 64) by (change (2 ^ 64) with (2 ^ 32 * 2 ^ 32); nia).
  rewrite (Z.mod_small (v * range)) by done.
  assert (0 <= v * range / 2 ^ 32 < range).
  { split; [apply Z.div_pos; lia|]. apply Z.div_lt_upper_bound; nia. }
  split; [|done]. apply Z.mod_small. lia.
Qed.

Lemma _S_nd_eq fuel g range :
  _S_nd fuel g range
  = let product := ((mt19937.operator_call g).1 * range) mod 2 ^ 64 in
    if product mod 2 ^ 32 <? range
    then '(product', g2) ← _S_nd_loop fuel (mt19937.operator_call g).2 range
                             (((- range) mod 2 ^ 32) mod range) product;
         Some (Z.shiftr product' 32 mod 2 ^ 32, g2)
    else Some (Z.shiftr product 32 mod 2 ^ 32, (mt19937.operator_call g).2).
Proof. unfold _S_nd. by destruct (mt19937.operator_call g). Qed.

(** [_S_nd] returns the high half of the product of the first word that is
    not rejected. *)
Lemma _S_nd_accepts fuel g range n :
  mt19937.wf g = true -> 0 < range < 2 ^ 32 ->
  forallb (fun k => rejected range (output g k)) (seq 0 n) = true ->
  rejected range (output g n) = false ->
  (n <= fuel)%nat ->
  _S_nd fuel g range
  = Some (Z.shiftr (output g n * range) 32, mt19937.discard (S n) g).
Proof.
  intros Hg Hr Hrej Hacc Hfuel. rewrite _S_nd_eq.
  pose proof (proj1 (forallb_seq _ _) Hrej) as Hall. cbv beta in Hall.
  clear Hrej. rename Hall into Hrej.
  rewrite (operator_call_output g). cbn [fst snd]. cbv zeta.
  destruct (shift_product (output g n) range (output_below n g Hg) ltac:(lia)) as [Hs _].
  destruct (_ <? _) eqn:Hlow.
  - rewrite (_S_nd_loop_accepts range g n 0 fuel); [|intros; apply Hrej; lia|done|done].
    cbn [mbind option_bind Nat.add]. by rewrite Hs.
  - assert (n = 0%nat) as ->.
    { destruct n as [|n]; [done|]. exfalso.
      pose proof (rejected_below range _ ltac:(lia) (Hrej 0%nat ltac:(lia))) as H0.
      apply Z.ltb_ge in Hlow. lia. }
    by rewrite Hs.
Qed.

Lemma _S_nd_loop_mono fuel : forall fuel' g range threshold product r,
  (fuel <= fuel')%nat ->
  _S_nd_loop fuel g range threshold product = Some r ->
  _S_nd_loop fuel' g range threshold product = Some r.
Proof.
  induction fuel as [|fuel IH]; intros fuel' g range threshold product r Hle.
  - cbn [_S_nd_loop]. destruct (_ <? _) eqn:E; [done|].
    intros <-. by apply _S_nd_loop_done.
  - destruct fuel' as [|fuel']; [lia|]. rewrite !_S_nd_loop_step.
    destruct (_ <? _); [|done]. apply IH. lia.
Qed.

Lemma _S_nd_mono fuel fuel' g range r :
  (fuel <= fuel')%nat ->
  _S_nd fuel g range = Some r -> _S_nd fuel' g range = Some r.
Proof.
  intros Hle. rewrite !_S_nd_eq. cbv zeta. destruct (_ <? _); [|done].
  destruct (_S_nd_loop fuel _ _ _ _) as [p|] eqn:E; [|done].
  by rewrite (_S_nd_loop_mono fuel fuel' _ _ _ _ p Hle E).
Qed.

Lemma upscale_loop_mono inner inner' fuel : forall fuel' urange g r,
  (forall g1 r1, inner g1 = Some r1 -> inner' g1 = Some r1) ->
  (fuel <= fuel')%nat ->
  upscale_loop inner fuel urange g = Some r ->
  upscale_loop inner' fuel' urange g = Some r.
Proof.
  induction fuel as [|fuel IH]; intros fuel' urange g r Hin Hle; [done|].
  destruct fuel' as [|fuel']; [lia|]. cbn [upscale_loop].
  destruct (inner g) as [[h g1]|] eqn:E; [|done]. rewrite (Hin _ _ E).
  cbn [mbind option_bind]. destruct (mt19937.operator_call g1) as [v g2].
  destruct (_ || _); [|done]. apply IH; [done|lia].
Qed.

(** More fuel does not change what a call returns. *)
Lemma operator_call_mono fuel : forall fuel' T a b g r,
  (fuel <= fuel')%nat ->
  operator_call fuel T a b g = Some r -> operator_call fuel' T a b g = Some r.
Proof.
  induction fuel as [|fuel IH]; intros fuel' T a b g r Hle.
  - destruct fuel' as [|fuel']; [done|]. cbn [operator_call].
    destruct (_ >? _).
    + destruct (_S_nd 0 _ _) as [p|] eqn:E; [|done].
      by rewrite (_S_nd_mono 0 (S fuel') _ _ p Hle E).
    + destruct (_ <? _); done.
  - destruct fuel' as [|fuel']; [lia|]. cbn [operator_call].
    destruct (_ >? _).
    + destruct (_S_nd (S fuel) _ _) as [p|] eqn:E; [|done].
      by rewrite (_S_nd_mono (S fuel) (S fuel') _ _ p Hle E).
    + destruct (_ <? _); [|done].
      destruct (upscale_loop _ fuel _ _) as [p|] eqn:E; [|done].
      erewrite (upscale_loop_mono _ _ fuel fuel'); [done| |lia|exact E].
      intros g1 r1. apply IH. lia.
Qed.

(** Ranges of at most 2^32 values: the first word that is not rejected
    decides, and its high product is added to the lower bound. *)
Lemma operator_call_accepts fuel T a b g n :
  mt19937.wf g = true ->
  int_min T <= a -> a <= b -> b <= int_max T -> b - a < 2 ^ 32 ->
  forallb (fun k => rejected (b - a + 1) (output g k)) (seq 0 n) = true ->
  rejected (b - a + 1) (output g n) = false ->
  (n <= fuel)%nat ->
  operator_call fuel T a b g
  = Some (a + Z.shiftr (output g n * (b - a + 1)) 32, mt19937.discard (S n) g)
  /\ a <= a + Z.shiftr (output g n * (b - a + 1)) 32 <= b.
Proof.
  intros Hg Ha Hab Hb Hw Hrej Hacc Hfuel.
  destruct (shift_product (output g n) (b - a + 1) (output_below n g Hg) ltac:(lia))
    as [_ Hs].
  split; [|lia].
  assert (Hres : int_cast T (uctype (Z.shiftr (output g n * (b - a + 1)) 32 + uctype a))
                 = a + Z.shiftr (output g n * (b - a + 1)) 32) by (apply result_eq; lia).
  assert (Hu : uctype (uctype b - uctype a) = b - a) by (by apply (urange_eq T)).
  destruct (Z.eq_dec (b - a) (2 ^ 32 - 1)) as [E|NE].
  - assert (n = 0%nat) as ->.
    { destruct n as [|n]; [done|]. exfalso.
      pose proof (proj1 (forallb_seq _ _) Hrej 0%nat ltac:(lia)) as H0. cbv beta in H0.
      replace (b - a + 1) with (2 ^ 32) in H0 by lia.
      rewrite rejected_whole in H0. done. }
    assert (E1 : (urngrange >? b - a) = false) by (rewrite E; done).
    assert (E2 : (urngrange <? b - a) = false) by (rewrite E; done).
    pose proof (output_below 0 g Hg) as Hv.
    assert (Ev : uctype (uctype (output g 0) - urngmin) = Z.shiftr (output g 0 * (b - a + 1)) 32).
    { replace (b - a + 1) with (2 ^ 32) by lia.
      rewrite Z.shiftr_div_pow2, Z.div_mul by lia.
      unfold uctype, urngmin, mt19937.min. rewrite Z.sub_0_r, Z.mod_mod by lia.
      apply Z.mod_small. lia. }
    destruct fuel; cbn [operator_call]; rewrite Hu, E1, E2;
      rewrite (operator_call_output g); cbn [fst snd]; by rewrite Ev, Hres.
  - assert (E1 : (urngrange >? b - a) = true).
    { rewrite Z.gtb_ltb. apply Z.ltb_lt. rewrite urngrange_eq. lia. }
    assert (E3 : uctype (b - a + 1) mod 2 ^ 32 = b - a + 1).
    { unfold uctype. rewrite (Z.mod_small (b - a + 1) (2 ^ 64)) by lia.
      apply Z.mod_small. lia. }
    destruct fuel; cbn [operator_call]; rewrite Hu, E1, E3;
      (rewrite (_S_nd_accepts _ g (b - a + 1) n); [|done|lia|done|done|done]);
      cbn [fmap option_fmap option_map fst snd]; by rewrite Hres.
Qed.

(** The loop runs out of fuel when every word it has seen is rejected, and
    only then. *)
Lemma _S_nd_loop_None range g0 fuel : forall k,
  _S_nd_loop fuel (mt19937.discard (S k) g0) range (((- range) mod 2 ^ 32) mod range)
    ((output g0 k * range) mod 2 ^ 64) = None
  <-> forall i, (k <= i <= k + fuel)%nat -> rejected range (output g0 i) = true.
Proof.
  induction fuel as [|fuel IH]; intros k.
  - cbn [_S_nd_loop]. rewrite <- rejected_eq. split.
    + intros H i Hi. assert (i = k) as -> by lia.
      by destruct (rejected range (output g0 k)).
    + intros H. by rewrite (H k ltac:(lia)).
  - rewrite _S_nd_loop_step, <- rejected_eq.
    rewrite (operator_call_discard (S k) g0). cbn [fst snd]. split.
    + intros H i Hi. destruct (rejected range (output g0 k)) eqn:Ek; [|done].
      destruct (decide (i = k)) as [->|Hne]; [done|].
      apply (proj1 (IH (S k)) H). lia.
    + intros H. rewrite (H k ltac:(lia)). apply (IH (S k)). intros i Hi. apply H. lia.
Qed.

Lemma _S_nd_None fuel g range :
  0 < range ->
  _S_nd fuel g range = None
  <-> forallb (fun k => rejected range (output g k)) (seq 0 (S fuel)) = true.
Proof.
  intros Hr. rewrite forallb_seq, _S_nd_eq.
  rewrite (operator_call_output g). cbn [fst snd]. cbv zeta.
  pose proof (_S_nd_loop_None range g fuel 0) as HL. split.
  - destruct (_ <? _); [|done].
    destruct (_S_nd_loop _ _ _ _ _) as [[p g2]|]; [done|]. intros _ k Hk.
    apply (proj1 HL eq_refl). lia.
  - intros H.
    pose proof (rejected_below range _ Hr (H 0%nat ltac:(lia))) as H0.
    rewrite (proj2 (Z.ltb_lt _ _) H0).
    rewrite (proj2 HL); [done|]. intros i Hi. apply H. lia.
Qed.

(** Ranges of at most 2^32 values: the call is cut short when the fuel is
    spent on rejected words, and only then. *)
Lemma operator_call_None fuel T a b g :
  int_min T <= a -> a <= b -> b <= int_max T -> b - a < 2 ^ 32 ->
  operator_call fuel T a b g = None
  <-> forallb (fun k => rejected (b - a + 1) (output g k)) (seq 0 (S fuel)) = true.
Proof.
  intros Ha Hab Hb Hw.
  assert (Hu : uctype (uctype b - uctype a) = b - a) by (by apply (urange_eq T)).
  destruct (Z.eq_dec (b - a) (2 ^ 32 - 1)) as [E|NE].
  - assert (E1 : (urngrange >? b - a) = false) by (rewrite E; done).
    assert (E2 : (urngrange <? b - a) = false) by (rewrite E; done).
    replace (b - a + 1) with (2 ^ 32) by lia. split.
    + destruct fuel; cbn [operator_call]; rewrite Hu, E1, E2;
        by destruct (mt19937.operator_call g).
    + intros H. pose proof (proj1 (forallb_seq _ _) H 0%nat ltac:(lia)) as H0.
      cbv beta in H0. by rewrite rejected_whole in H0.
  - assert (E1 : (urngrange >? b - a) = true).
    { rewrite Z.gtb_ltb. apply Z.ltb_lt. rewrite urngrange_eq. lia. }
    assert (E3 : uctype (b - a + 1) mod 2 ^ 32 = b - a + 1).
    { unfold uctype. rewrite (Z.mod_small (b - a + 1) (2 ^ 64)) by lia.
      apply Z.mod_small. lia. }
    rewrite <- (_S_nd_None fuel g (b - a + 1)) by lia.
    destruct fuel; cbn [operator_call]; rewrite Hu, E1, E3;
      by destruct (_S_nd _ g (b - a + 1)).
Qed.

End rejection.

Module upscaling.
Import uniform_int_distribution uniform_int_distribution_facts rejection.

Lemma operator_call_wide fuel T a b g :
  int_min T <= a -> a <= b -> b <= int_max T -> 2 ^ 32 <= b - a ->
  operator_call (S fuel) T a b g
  = (fun r : Z * mt19937.state => (int_cast T (uctype (r.1 + uctype a)), r.2))
    <$> upscale_loop (operator_call fuel T 0 ((b - a) / 2 ^ 32)) fuel (b - a) g.
Proof.
  intros Ha Hab Hb Hw. cbn [operator_call].
  rewrite (urange_eq T a b Ha Hab Hb).
  assert (E1 : (urngrange >? b - a) = false).
  { rewrite Z.gtb_ltb. apply Z.ltb_ge. rewrite urngrange_eq. lia. }
  assert (E2 : (urngrange <? b - a) = true).
  { apply Z.ltb_lt. rewrite urngrange_eq. lia. }
  rewrite E1, E2.
  destruct (inner_bounds T a b Ha Hab Hb ltac:(lia)) as (-> & -> & _). reflexivity.
Qed.

Lemma upscale_loop_step inner fuel urange g h g1 :
  inner g = Some (h, g1) -> 0 <= h < 2 ^ 32 -> mt19937.wf g1 = true ->
  upscale_loop inner (S fuel) urange g
  = if urange <? h * 2 ^ 32 + output g1 0
    then upscale_loop inner fuel urange (mt19937.discard 1 g1)
    else Some (h * 2 ^ 32 + output g1 0, mt19937.discard 1 g1).
Proof.
  intros E Hh Hg1. cbn [upscale_loop]. rewrite E. cbn [mbind option_bind].
  rewrite (operator_call_output g1).
  pose proof (output_below 0 g1 Hg1) as Hv. revert Hv.
  generalize (output g1 0). generalize (mt19937.discard 1 g1). intros g2 v Hv.
  change (uctype (urngrange + 1)) with (2 ^ 32).
  assert (Et : uctype (2 ^ 32 * uctype h) = h * 2 ^ 32).
  { unfold uctype. rewrite (Z.mod_small h) by lia. rewrite Z.mod_small; [lia|].
    change (2 ^ 64) with (2 ^ 32 * 2 ^ 32). nia. }
  assert (Ev : uctype (uctype v - urngmin) = v).
  { unfold uctype, urngmin, mt19937.min. rewrite Z.sub_0_r, Z.mod_mod by lia.
    apply Z.mod_small. lia. }
  rewrite Et, Ev.
  assert (Er : uctype (h * 2 ^ 32 + v) = h * 2 ^ 32 + v).
  { unfold uctype. apply Z.mod_small. change (2 ^ 64) with (2 ^ 32 * 2 ^ 32). nia. }
  rewrite Er.
  assert (E2 : (h * 2 ^ 32 + v <? h * 2 ^ 32) = false) by (apply Z.ltb_ge; lia).
  rewrite E2, orb_false_r, Z.gtb_ltb. reflexivity.
Qed.

(** One round of the upscaling branch: a draw [h] for the high part from
    the range (0, (b - a) / 2^32), then one word for the low part; the sum
    is returned when it lies in the range, else the loop goes on. *)
Lemma operator_call_round fuel T a b g h g1 :
  mt19937.wf g = true ->
  int_min T <= a -> a <= b -> b <= int_max T -> 2 ^ 32 <= b - a ->
  operator_call (S fuel) T 0 ((b - a) / 2 ^ 32) g = Some (h, g1) ->
  (h * 2 ^ 32 + output g1 0 <= b - a ->
     operator_call (S (S fuel)) T a b g
     = Some (a + (h * 2 ^ 32 + output g1 0), mt19937.discard 1 g1))
  /\ (b - a < h * 2 ^ 32 + output g1 0 ->
      forall r, operator_call (S fuel) T a b (mt19937.discard 1 g1) = Some r ->
        operator_call (S (S fuel)) T a b g = Some r).
Proof.
  intros Hg Ha Hab Hb Hw Hin.
  destruct (inner_bounds T a b Ha Hab Hb ltac:(lia)) as (_ & _ & H0 & Hq).
  assert (Hq2 : (b - a) / 2 ^ 32 < 2 ^ 32).
  { pose proof (int_range_width T). pose proof (int_digits_le T).
    apply Z.div_lt_upper_bound; [lia|].
    change (2 ^ 64) with (2 ^ 32 * 2 ^ 32) in *. lia. }
  destruct (operator_call_spec (S fuel) T 0 ((b - a) / 2 ^ 32) g h g1 H0
              (proj1 Hq) (proj2 Hq) Hg Hin) as [Hh Hg1].
  rewrite (operator_call_wide (S fuel) T a b g Ha Hab Hb Hw).
  rewrite (upscale_loop_step _ fuel (b - a) g h g1 Hin ltac:(lia) Hg1).
  split.
  - intros Hle. rewrite (proj2 (Z.ltb_ge _ _) Hle).
    pose proof (output_below 0 g1 Hg1) as Hv.
    cbn [fmap option_fmap option_map fst snd]. rewrite result_eq by lia. reflexivity.
  - intros Hlt r. apply Z.ltb_lt in Hlt. rewrite Hlt.
    rewrite (operator_call_wide fuel T a b _ Ha Hab Hb Hw).
    generalize (mt19937.discard 1 g1). intros g2.
    destruct (upscale_loop _ fuel (b - a) g2) as [p|] eqn:E; [|done].
    rewrite (upscale_loop_mono (operator_call fuel T 0 ((b - a) / 2 ^ 32))
               (operator_call (S fuel) T 0 ((b - a) / 2 ^ 32))
               fuel fuel (b - a) g2 p); [done| |lia|exact E].
    intros g3 r3. apply operator_call_mono. lia.
Qed.

End upscaling.

Lemma owns_functional w this l e l' e' :
  owns w this l e -> owns w this l' e' -> l' = l /\ e' = e.
Proof.
  intros [Ho Hh] [Ho' Hh']. rewrite Ho in Ho'. injection Ho' as <-.
  rewrite Hh in Hh'. by injection Hh' as <-.
Qed.

Lemma set_heap_twice w l e e' :
  set_heap (<[l := e']> (heap (set_heap (<[l := e]> (heap w)) w)))
    (set_heap (<[l := e]> (heap w)) w)
  = set_heap (<[l := e']> (heap w)) w.
Proof. unfold set_heap. cbn [heap objects free_store entropy]. by rewrite insert_insert_eq. Qed.

(** What [uniform_int] does on a generator that owns the engine [e]. *)
Lemma uniform_int_owns fuel T this a b w l e :
  owns w this l e ->
  uniform_int fuel T this a b w
  = match uniform_int_distribution.operator_call fuel T a b e with
    | Some (v, e') => Returns v (set_heap (<[l := e']> (heap w)) w)
    | None => Unfinished
    end.
Proof. intros Ho. unfold uniform_int. by apply with_engine_owns. Qed.

Lemma uniform_int_returns fuel T this a b w l e v w' :
  owns w this l e ->
  uniform_int fuel T this a b w = Returns v w' ->
  exists e', uniform_int_distribution.operator_call fuel T a b e = Some (v, e')
    /\ w' = set_heap (<[l := e']> (heap w)) w.
Proof.
  intros Ho. rewrite (uniform_int_owns fuel T this a b w l e Ho).
  destruct (uniform_int_distribution.operator_call fuel T a b e) as [[v0 e0]|]; [|done].
  intros H. injection H as -> <-. by exists e0.
Qed.

(** C2. [uniform_int<IntegerT>(low, high)] on a valid generator, with
    [low <= high] values of the type.  Whatever the call returns lies
    between the bounds, both included; the call never throws and its
    behaviour is defined; the fuel only cuts the library's rejection loop
    short, so that more fuel returns the same.  And the call does return:
    for a range of at most 2^32 values, as soon as the engine delivers a
    word that is not rejected, with the high half of that word's product
    added to [low], and it is still running only when every word the fuel
    has paid for was rejected; for a wider range, each round draws the high part with
    the distribution on (0, (high - low) / 2^32) and one more word for the
    low part, and returns their sum when it is in range, else goes on from
    the engine it has reached. *)
Theorem uniform_int_within_bounds (T : IntegerT) (low high : Z) (this : name)
    (w : World) (l : loc) (e : mt19937.state) :
  valid w this = true -> owns w this l e ->
  int_min T <= low -> low <= high -> high <= int_max T ->
  (forall fuel v w',
      uniform_int fuel T this low high w = Returns v w' -> low <= v <= high)
  /\ (forall fuel,
        uniform_int fuel T this low high w = Unfinished
        \/ exists v e',
             uniform_int fuel T this low high w
             = Returns v (set_heap (<[l := e']> (heap w)) w))
  /\ (forall fuel fuel' v w', (fuel <= fuel')%nat ->
        uniform_int fuel T this low high w = Returns v w' ->
        uniform_int fuel' T this low high w = Returns v w')
  /\ (high - low < 2 ^ 32 ->
      forall n fuel,
        forallb (fun k => rejected (high - low + 1) (output e k)) (seq 0 n) = true ->
        rejected (high - low + 1) (output e n) = false ->
        (n <= fuel)%nat ->
        uniform_int fuel T this low high w
        = Returns (low + Z.shiftr (output e n * (high - low + 1)) 32)
            (set_heap (<[l := mt19937.discard (S n) e]> (heap w)) w))
  /\ (high - low < 2 ^ 32 ->
      forall fuel,
        uniform_int fuel T this low high w = Unfinished
        <-> forallb (fun k => rejected (high - low + 1) (output e k)) (seq 0 (S fuel))
            = true)
  /\ (2 ^ 32 <= high - low ->
      forall fuel h w1 e1,
        uniform_int (S fuel) T this 0 ((high - low) / 2 ^ 32) w = Returns h w1 ->
        owns w1 this l e1 ->
        (h * 2 ^ 32 + output e1 0 <= high - low ->
           uniform_int (S (S fuel)) T this low high w
           = Returns (low + (h * 2 ^ 32 + output e1 0))
               (set_heap (<[l := mt19937.discard 1 e1]> (heap w)) w))
        /\ (high - low < h * 2 ^ 32 + output e1 0 ->
            forall v w',
              uniform_int (S fuel) T this low high
                (set_heap (<[l := mt19937.discard 1 e1]> (heap w)) w) = Returns v w' ->
              uniform_int (S (S fuel)) T this low high w = Returns v w')).
Proof.
  intros Hv Ho Hlo Hle Hhi.
  assert (Hwf : mt19937.wf e = true).
  { apply valid_owns in Hv as (l' & e' & Ho' & Hwf).
    by destruct (owns_functional _ _ _ _ _ _ Ho Ho') as [_ ->]. }
  split_and!.
  - intros fuel v w' (e' & E & _)%(uniform_int_returns fuel T this low high w l e); [|done].
    by destruct (uniform_int_distribution_facts.operator_call_spec fuel T low high e v e').
  - intros fuel. rewrite (uniform_int_owns fuel T this low high w l e Ho).
    destruct (uniform_int_distribution.operator_call fuel T low high e) as [[v e']|];
      [right; by exists v, e'|by left].
  - intros fuel fuel' v w' Hf
      (e' & E & ->)%(uniform_int_returns fuel T this low high w l e); [|done].
    rewrite (uniform_int_owns fuel' T this low high w l e Ho).
    by rewrite (rejection.operator_call_mono fuel fuel' T low high e (v, e') Hf E).
  - intros Hn n fuel Hrej Hacc Hf.
    rewrite (uniform_int_owns fuel T this low high w l e Ho).
    destruct (rejection.operator_call_accepts fuel T low high e n
                Hwf Hlo Hle Hhi Hn Hrej Hacc Hf) as [-> _].
    reflexivity.
  - intros Hn fuel. rewrite (uniform_int_owns fuel T this low high w l e Ho).
    rewrite <- (rejection.operator_call_None fuel T low high e Hlo Hle Hhi Hn).
    by destruct (uniform_int_distribution.operator_call fuel T low high e) as [[v e']|].
  - intros Hwide fuel h w1 e1
      (e1' & E & ->)%(uniform_int_returns (S fuel) T this 0 ((high - low) / 2 ^ 32) w l e) Ho1;
      [|done].
    destruct (owns_functional _ _ _ _ _ _ Ho1 (owns_set_heap w this l e e1' Ho)) as [_ <-].
    destruct (upscaling.operator_call_round fuel T low high e h e1'
                Hwf Hlo Hle Hhi Hwide E) as [Hacc Hrej].
    split.
    + intros Hret. rewrite (uniform_int_owns (S (S fuel)) T this low high w l e Ho).
      by rewrite (Hacc Hret).
    + intros Hret v w'
        (e' & E' & ->)%(uniform_int_returns (S fuel) T this low high _ l
                          (mt19937.discard 1 e1')); [|exact (owns_set_heap w this l e _ Ho)].
      rewrite set_heap_twice.
      rewrite (uniform_int_owns (S (S fuel)) T this low high w l e Ho).
      by rewrite (Hrej Hret (v, e') E').
Qed.

Section polar.
Context {real : Type} {FP : Floating real}.






End polar.





Section errors.
Context {real : Type} {FP : Floating real}.

End errors.





Import Samples.

Lemma uniform_real_stays_within_witness :
  finite Double (of_Z Double (-3)) = true /\ finite Double (of_Z Double 5) = true
  /\ real_draw = Returns (S754_finite false 7593843307837560 (-51)) (world_of real_draw w1)
  /\ finite Double (S754_finite false 7593843307837560 (-51)) = true
  /\ real_leb (of_Z Double (-3)) (S754_finite false 7593843307837560 (-51)) = true
  /\ real_leb (S754_finite false 7593843307837560 (-51)) (of_Z Double 5) = true.
Proof.
  assert (H1 : finite Double (of_Z Double (-3)) = true) by (vm_compute; reflexivity).
  assert (H2 : finite Double (of_Z Double 5) = true) by (vm_compute; reflexivity).
  assert (H3 : real_leb (of_Z Double (-3)) (of_Z Double 5) = true) by (vm_compute; reflexivity).
  assert (H4 : finite Double (real_sub Double (of_Z Double 5) (of_Z Double (-3))) = true)
    by (vm_compute; reflexivity).
  assert (H5 : real_draw
               = Returns (S754_finite false 7593843307837560 (-51)) (world_of real_draw w1))
    by (vm_compute; reflexivity).
  exact (conj H1 (conj H2 (conj H5
           (uniform_real_stays_within Double a _ _ _ w1 _ H1 H2 H3 H4 H5)))).
Defined.

Lemma uniform_real_overflows_witness :
  finite Double (SFopp DBL_MAX) = true /\ finite Double DBL_MAX = true
  /\ real_leb (SFopp DBL_MAX) DBL_MAX = true
  /\ wide_draw = Returns (S754_infinity false) (world_of wide_draw w1)
  /\ finite Double (S754_infinity false) = false
  /\ real_leb (SFopp DBL_MAX) (S754_infinity false)
     && real_leb (S754_infinity false) DBL_MAX = false.
Proof.
  assert (H1 : finite Double (SFopp DBL_MAX) = true) by (vm_compute; reflexivity).
  assert (H2 : finite Double DBL_MAX = true) by (vm_compute; reflexivity).
  assert (H3 : real_leb (SFopp DBL_MAX) DBL_MAX = true) by (vm_compute; reflexivity).
  assert (H4 : finite Double (real_sub Double DBL_MAX (SFopp DBL_MAX)) = false)
    by (vm_compute; reflexivity).
  assert (H5 : wide_draw = Returns (S754_infinity false) (world_of wide_draw w1))
    by (vm_compute; reflexivity).
  exact (conj H1 (conj H2 (conj H3 (conj H5
           (uniform_real_overflows Double a _ _ _ w1 _ H1 H2 H4 H5))))).
Defined.

Lemma uniform_probability_below_one_witness :
  probability_draw
  = Returns (S754_finite false 7174621374446652 (-53)) (world_of probability_draw w1)
  /\ finite Double (S754_finite false 7174621374446652 (-53)) = true
  /\ real_leb (real_of_Z Double 0) (S754_finite false 7174621374446652 (-53)) = true
  /\ real_ltb (S754_finite false 7174621374446652 (-53)) (real_of_Z Double 1) = true.
Proof.
  assert (H : probability_draw
              = Returns (S754_finite false 7174621374446652 (-53))
                  (world_of probability_draw w1)) by (vm_compute; reflexivity).
  exact (conj H (uniform_probability_below_one a _ w1 _ H)).
Defined.

Lemma sampling_keeps_generators_valid_witness :
  valid w3 a = true /\ valid w3 b = true
  /\ (forall v w', do_call 8 a (call_uniform_int (real := spec_float) Int 1 100) w3
                   = Returns v w' -> valid w' b = true)
  /\ (forall w', seed a 7 w3 = Returns tt w' -> valid w' b = true).
Proof.
  assert (H1 : valid w3 a = true) by (vm_compute; reflexivity).
  assert (H2 : valid w3 b = true) by (vm_compute; reflexivity).
  exact (conj H1 (conj H2
           (sampling_keeps_generators_valid 8 a b (call_uniform_int Int 1 100) 7 w3 H1 H2))).
Defined.

Lemma uniform_real_draws_witness :
  owns w1 a l1 e1
  /\ (exists x, uniform_real Float a (of_Z Float (-3)) (of_Z Float 5) w1
         = Returns x (set_heap (<[l1 := mt19937.discard 1 e1]> (heap w1)) w1))
  /\ (exists p, uniform_probability a w1
         = Returns p (set_heap (<[l1 := mt19937.discard 2 e1]> (heap w1)) w1)).
Proof.
  assert (H : owns w1 a l1 e1) by (split; vm_compute; reflexivity).
  exact (conj H (uniform_real_draws Float a (of_Z Float (-3)) (of_Z Float 5) w1 l1 e1 H)).
Defined.

Lemma normal_real_scales_witness :
  normal_draw = Returns (S754_finite true 4956071728077056 (-53)) (world_of normal_draw w1)
  /\ exists z,
       S754_finite true 4956071728077056 (-53)
       = real_add Double (real_mul Double z (of_Z Double 1)) (of_Z Double 0)
       /\ forall mean' sigma',
            normal_real 8 a mean' sigma' w1
            = Returns (real_add Double (real_mul Double z sigma') mean')
                (world_of normal_draw w1).
Proof.
  assert (H : normal_draw
              = Returns (S754_finite true 4956071728077056 (-53)) (world_of normal_draw w1))
    by (vm_compute; reflexivity).
  exact (conj H (normal_real_scales 8 a _ _ _ w1 _ H)).
Defined.

Lemma uniform_int_power_of_two_witness :
  owns w1 a l1 e1 /\ mt19937.wf e1 = true
  /\ 0 <= 8 <= 32 /\ int_min Int <= 10 /\ 10 + 2 ^ 8 - 1 <= int_max Int
  /\ uniform_int 0 Int a 10 (10 + 2 ^ 8 - 1) w1
     = Returns (10 + Z.shiftr (mt19937.operator_call e1).1 (32 - 8))
         (set_heap (<[l1 := (mt19937.operator_call e1).2]> (heap w1)) w1).
Proof.
  assert (H1 : owns w1 a l1 e1) by (split; vm_compute; reflexivity).
  assert (H2 : mt19937.wf e1 = true) by (vm_compute; reflexivity).
  assert (H3 : 0 <= 8 <= 32) by lia.
  assert (H4 : int_min Int <= 10) by (vm_compute; discriminate).
  assert (H5 : 10 + 2 ^ 8 - 1 <= int_max Int) by (vm_compute; discriminate).
  exact (conj H1 (conj H2 (conj H3 (conj H4 (conj H5
           (uniform_int_power_of_two Int 8 10 a w1 0 l1 e1 H1 H2 H3 H4 H5)))))).
Defined.

Lemma moved_from_cannot_sample_witness :
  RandomTwister_move c a w1 = Returns tt moved
  /\ (forall fuel (k : call spec_float), do_call fuel a k moved = Undefined)
  /\ (forall sd, seed a sd moved = Undefined)
  /\ RandomTwister_destroy a moved
     = Returns tt (set_objects (delete a (objects moved)) moved).
Proof.
  assert (H : RandomTwister_move c a w1 = Returns tt moved) by (vm_compute; reflexivity).
  exact (conj H (moved_from_cannot_sample c a w1 moved H)).
Defined.

Lemma destruction_returns_the_storage_witness :
  RandomTwister_seed a 42 w0 = Returns tt w1
  /\ run 8 a three w1 = Returns [sample_int 38; sample_int 80; sample_int 96] w2
  /\ RandomTwister_destroy a w2 = Returns tt w0.
Proof.
  assert (H1 : RandomTwister_seed a 42 w0 = Returns tt w1) by (vm_compute; reflexivity).
  assert (H2 : run 8 a three w1 = Returns [sample_int 38; sample_int 80; sample_int 96] w2)
    by (vm_compute; reflexivity).
  exact (conj H1 (conj H2 (destruction_returns_the_storage a 42 8 three _ w0 w1 w2 H1 H2))).
Defined.

Lemma move_assignment_releases_witness :
  b <> a /\ owns w3 b 2%positive (mt19937.construct (result_type 2024))
  /\ objects w3 !! a = Some {| engine := Some 1%positive |}
  /\ operator_assign b a w3
     = Returns tt {| heap := delete 2%positive (heap w3);
                     objects := <[b := {| engine := Some 1%positive |}]>
                                  (<[a := {| engine := None |}]> (objects w3));
                     free_store := S (free_store w3); entropy := entropy w3 |}.
Proof.
  assert (H1 : b <> a) by discriminate.
  assert (H2 : owns w3 b 2%positive (mt19937.construct (result_type 2024)))
    by (split; vm_compute; reflexivity).
  assert (H3 : objects w3 !! a = Some {| engine := Some 1%positive |})
    by (vm_compute; reflexivity).
  exact (conj H1 (conj H2 (conj H3 (move_assignment_releases b a w3 _ _ _ H1 H2 H3)))).
Defined.

Lemma swap_exchanges_engines_witness :
  objects w3 !! a = Some {| engine := Some 1%positive |}
  /\ objects w3 !! b = Some {| engine := Some 2%positive |}
  /\ exists w',
       swap a b w3 = Returns tt w' /\ ntl_swap b a w3 = Returns tt w'
       /\ engine_of w' a = engine_of w3 b /\ engine_of w' b = engine_of w3 a
       /\ heap w' = heap w3
       /\ swap a b w' = Returns tt w3
       /\ objects w' !! a = Some {| engine := Some 2%positive |}
       /\ objects w' !! b = Some {| engine := Some 1%positive |}
       /\ (forall c, c <> a -> c <> b -> objects w' !! c = objects w3 !! c)
       /\ free_store w' = free_store w3 /\ entropy w' = entropy w3.
Proof.
  assert (H1 : objects w3 !! a = Some {| engine := Some 1%positive |})
    by (vm_compute; reflexivity).
  assert (H2 : objects w3 !! b = Some {| engine := Some 2%positive |})
    by (vm_compute; reflexivity).
  exact (conj H1 (conj H2 (swap_exchanges_engines a b w3 _ _ H1 H2))).
Defined.

Lemma default_construction_seeds_from_the_device_witness :
  RandomTwister_default b w2 = Returns tt w3
  /\ exists v rest,
       entropy w2 = v :: rest /\ entropy w3 = rest /\ free_store w2 = S (free_store w3)
       /\ forall b' wb wb' fuel (cs : list (call spec_float)),
            RandomTwister_seed b' v wb = Returns tt wb' ->
            result_of (run fuel b cs w3) = result_of (run fuel b' cs wb').
Proof.
  assert (H : RandomTwister_default b w2 = Returns tt w3) by (vm_compute; reflexivity).
  exact (conj H (default_construction_seeds_from_the_device b w2 w3 H)).
Defined.

Lemma ownership_stays_unique_witness :
  unique_owner w3
  /\ (forall this sd w', RandomTwister_seed this sd w3 = Returns tt w' -> unique_owner w')
  /\ (forall this w', RandomTwister_default this w3 = Returns tt w' -> unique_owner w')
  /\ (forall this other w',
        RandomTwister_move this other w3 = Returns tt w' -> unique_owner w')
  /\ (forall this other w',
        operator_assign this other w3 = Returns tt w' -> unique_owner w')
  /\ (forall x y w', swap x y w3 = Returns tt w' -> unique_owner w')
  /\ (forall this w', RandomTwister_destroy this w3 = Returns tt w' -> unique_owner w')
  /\ (forall fuel this (k : call spec_float) v w',
        do_call fuel this k w3 = Returns v w' -> unique_owner w')
  /\ (forall this sd w', seed this sd w3 = Returns tt w' -> unique_owner w').
Proof.
  assert (H : unique_owner w3).
  { apply (@bool_decide_unpack _ (unique_owner_dec w3)). vm_compute. exact I. }
  exact (conj H (ownership_stays_unique w3 H)).
Defined.

Lemma uniform_int_within_bounds_witness :
  (valid w1 a = true /\ owns w1 a l1 e1
   /\ int_min Int <= - 2 ^ 30 /\ - 2 ^ 30 <= 2 ^ 30 /\ 2 ^ 30 <= int_max Int
   /\ 2 ^ 30 - - 2 ^ 30 < 2 ^ 32
   /\ forallb (fun k => rejected (2 ^ 30 - - 2 ^ 30 + 1) (output e1 k)) (seq 0 2) = true
   /\ rejected (2 ^ 30 - - 2 ^ 30 + 1) (output e1 2) = false
   /\ uniform_int 1 Int a (- 2 ^ 30) (2 ^ 30) w1 = Unfinished
   /\ uniform_int 2 Int a (- 2 ^ 30) (2 ^ 30) w1
      = Returns 967901614 (set_heap (<[l1 := mt19937.discard 3 e1]> (heap w1)) w1))
  /\ (valid (set_heap (<[l1 := mt19937.discard 1 e1]> (heap w1)) w1) a = true
      /\ owns (set_heap (<[l1 := mt19937.discard 1 e1]> (heap w1)) w1) a l1
           (mt19937.discard 1 e1)
      /\ int_min LongLong <= 0 /\ 0 <= 2 ^ 32 /\ 2 ^ 32 <= int_max LongLong
      /\ uniform_int 2 LongLong a 0 ((2 ^ 32 - 0) / 2 ^ 32)
           (set_heap (<[l1 := mt19937.discard 1 e1]> (heap w1)) w1)
         = Returns 1 (set_heap (<[l1 := mt19937.discard 2 e1]> (heap w1)) w1)
      /\ 2 ^ 32 - 0 < 1 * 2 ^ 32 + output (mt19937.discard 2 e1) 0
      /\ uniform_int 3 LongLong a 0 (2 ^ 32)
           (set_heap (<[l1 := mt19937.discard 1 e1]> (heap w1)) w1)
         = Returns 3143890026 (set_heap (<[l1 := mt19937.discard 5 e1]> (heap w1)) w1)).
Proof.
  assert (H1 : valid w1 a = true) by (vm_compute; reflexivity).
  assert (H2 : owns w1 a l1 e1) by (split; vm_compute; reflexivity).
  assert (H3 : int_min Int <= - 2 ^ 30) by (vm_compute; discriminate).
  assert (H4 : - 2 ^ 30 <= 2 ^ 30) by lia.
  assert (H5 : 2 ^ 30 <= int_max Int) by (vm_compute; discriminate).
  assert (H6 : 2 ^ 30 - - 2 ^ 30 < 2 ^ 32) by (vm_compute; reflexivity).
  assert (H7 : forallb (fun k => rejected (2 ^ 30 - - 2 ^ 30 + 1) (output e1 k)) (seq 0 2)
               = true) by (vm_compute; reflexivity).
  assert (H8 : rejected (2 ^ 30 - - 2 ^ 30 + 1) (output e1 2) = false)
    by (vm_compute; reflexivity).
  assert (E1 : - 2 ^ 30 + Z.shiftr (output e1 2 * (2 ^ 30 - - 2 ^ 30 + 1)) 32 = 967901614)
    by (vm_compute; reflexivity).
  pose proof (uniform_int_within_bounds Int (- 2 ^ 30) (2 ^ 30) a w1 l1 e1
                H1 H2 H3 H4 H5) as (_ & _ & _ & Hn & Hu & _).
  pose proof (Hn H6 2%nat 2%nat H7 H8 (le_n 2)) as R1. rewrite E1 in R1.
  pose proof (proj2 (Hu H6 1%nat) H7) as R0.
  assert (G1 : valid (set_heap (<[l1 := mt19937.discard 1 e1]> (heap w1)) w1) a = true)
    by (vm_compute; reflexivity).
  assert (G2 : owns (set_heap (<[l1 := mt19937.discard 1 e1]> (heap w1)) w1) a l1
                 (mt19937.discard 1 e1)) by (split; vm_compute; reflexivity).
  assert (G3 : int_min LongLong <= 0) by (vm_compute; discriminate).
  assert (G4 : 0 <= 2 ^ 32) by lia.
  assert (G5 : 2 ^ 32 <= int_max LongLong) by (vm_compute; discriminate).
  assert (G6 : 2 ^ 32 <= 2 ^ 32 - 0) by lia.
  assert (G7 : uniform_int 2 LongLong a 0 ((2 ^ 32 - 0) / 2 ^ 32)
                 (set_heap (<[l1 := mt19937.discard 1 e1]> (heap w1)) w1)
               = Returns 1 (set_heap (<[l1 := mt19937.discard 2 e1]> (heap w1)) w1))
    by (vm_compute; reflexivity).
  assert (G8 : owns (set_heap (<[l1 := mt19937.discard 2 e1]> (heap w1)) w1) a l1
                 (mt19937.discard 2 e1)) by (split; vm_compute; reflexivity).
  assert (G9 : 2 ^ 32 - 0 < 1 * 2 ^ 32 + output (mt19937.discard 2 e1) 0)
    by (vm_compute; reflexivity).
  assert (G10 : uniform_int 2 LongLong a 0 (2 ^ 32)
                  (set_heap (<[l1 := mt19937.discard 1 (mt19937.discard 2 e1)]>
                     (heap (set_heap (<[l1 := mt19937.discard 1 e1]> (heap w1)) w1)))
                     (set_heap (<[l1 := mt19937.discard 1 e1]> (heap w1)) w1))
                = Returns 3143890026
                    (set_heap (<[l1 := mt19937.discard 5 e1]> (heap w1)) w1))
    by (vm_compute; reflexivity).
  pose proof (uniform_int_within_bounds LongLong 0 (2 ^ 32) a
                (set_heap (<[l1 := mt19937.discard 1 e1]> (heap w1)) w1) l1
                (mt19937.discard 1 e1) G1 G2 G3 G4 G5) as (_ & _ & _ & _ & _ & Hw).
  pose proof (Hw G6 1%nat 1 _ (mt19937.discard 2 e1) G7 G8) as [_ Hr].
  pose proof (Hr G9 _ _ G10) as R2.
  exact (conj (conj H1 (conj H2 (conj H3 (conj H4 (conj H5 (conj H6 (conj H7 (conj H8 (conj R0 R1)))))))))
           (conj G1 (conj G2 (conj G3 (conj G4 (conj G5 (conj G7 (conj G9 R2)))))))).
Defined.



